(** * amaze2p: lobby manager, maze generator and game engine

    A shallow embedding of [src/lobby.ts], [src/maze.ts], [src/game.ts],
    [src/player.ts] and of the handlers, the socket registry and the
    countdown of [server.ts], followed by the properties of the
    specification that concern them and by further properties of the code.

    Conventions of the embedding.
    - JavaScript numbers that hold coordinates, lengths, cell values and
      time stamps are integers here ([Z]); array indices are converted with
      [Z.to_nat] after the bounds test the source performs.
    - The module-level [Map]s ([lobbies], [games]) and the [players] object of
      a game are finite maps keyed by strings; a function that mutates one of
      them takes the store and returns the new one.  The [players] object is
      read with client ids only, which are not names of members of
      [Object.prototype].
    - [throw new Error('CODE')] is a result in [Err CODE].
    - [Math.random()] is an oracle: the n-th draw of
      [Math.floor(Math.random() * k)] is [rnd n mod k].  Every sequence of
      outcomes of the source is obtained from some [rnd].
    - Each call of [Date.now()] is an argument: [now], and [now'] where a
      function reads the clock a second time.
    - A string is the sequence of the bytes of its UTF-8 encoding.
    - The [players] map of player.ts is the list of its entries in the order
      of insertion, which is the order in which a [Map] is iterated. *)

From stdpp Require Import gmap strings list fin_maps.
From Stdlib Require Import ZArith Lia.

#[local] Set Warnings "-clear-no-such-hyp".

Local Open Scope Z_scope.

(** ** types.ts *)

Record Position := mkPosition { x : Z; y : Z }.

#[global] Instance Position_eq_dec : EqDecision Position.
Proof. solve_decision. Defined.

Abbreviation MazeGrid := (list (list Z)).

Record MazeMetadata := mkMazeMetadata {
  grid : MazeGrid;
  width : Z;
  height : Z;
  start : Position;
  exit : Position
}.

(** ** Access to a grid (shared by maze.ts and game.ts) *)

(** [grid.length] *)
Definition rows (grid : MazeGrid) : Z := Z.of_nat (length grid).

(** [grid[0].length]; the source reads it only where [grid[0]] exists
    (after a test [0 <= ny < grid.length], or after a write to [grid[1]]). *)
Definition cols (grid : MazeGrid) : Z :=
  match grid with
  | [] => 0
  | row :: _ => Z.of_nat (length row)
  end.

(** [grid[j]?.[i]]: [None] is [undefined]. *)
Definition cell (grid : MazeGrid) (i j : Z) : option Z :=
  if bool_decide (0 ≤ j ∧ 0 ≤ i) then
    match grid !! Z.to_nat j with
    | Some row => row !! Z.to_nat i
    | None => None
    end
  else None.

(** [grid[j][i] = v].  The source only writes inside the grid.  A write to a
    missing row is a [TypeError]; a write past the end of a row would grow
    the row, which this model does not represent: both are [None]. *)
Definition setCell (grid : MazeGrid) (i j v : Z) : option MazeGrid :=
  if bool_decide (0 ≤ j ∧ 0 ≤ i) then
    match grid !! Z.to_nat j with
    | Some row =>
        if bool_decide (Z.to_nat i < length row)%nat
        then Some (<[Z.to_nat j := <[Z.to_nat i := v]> row]> grid)
        else None
    | None => None
    end
  else None.

(** ** maze.ts *)

Module Maze.

(** *** Randomness and failure

    A computation reads the outcomes [rnd] of the random draws through a
    cursor.  [None] stands for an exception of the JavaScript runtime
    (a [TypeError] on [undefined[...]]) or for the exhaustion of the
    recursion budget of the model. *)

Definition M (A : Type) : Type := (nat → nat) → nat → option (A * nat).

Definition ret {A} (a : A) : M A := λ _ k, Some (a, k).

Definition bind {A B} (m : M A) (f : A → M B) : M B :=
  λ rnd k, match m rnd k with
           | Some (a, k') => f a rnd k'
           | None => None
           end.

Definition throw {A} : M A := λ _ _, None.

Definition lift {A} (o : option A) : M A :=
  λ _ k, match o with Some a => Some (a, k) | None => None end.

Notation "'let*' x ':=' m 'in' f" := (bind m (λ x, f))
  (at level 10, x name, m at level 100, f at level 200, only parsing).

(** [Math.floor(Math.random() * n)] *)
Definition randomBelow (n : nat) : M nat :=
  λ rnd k, Some (match n with O => O | S _ => (rnd k `mod` n)%nat end, S k).

(** *** Carving *)

Record Delta := mkDelta { dx : Z; dy : Z }.

Definition DIRECTIONS : list Delta :=
  [mkDelta 0 (-2); mkDelta 2 0; mkDelta 0 2; mkDelta (-2) 0].

(** [temp = input[i]; input[i] = input[j]; input[j] = temp] *)
Definition swap {T} (input : list T) (i j : nat) : list T :=
  match input !! i, input !! j with
  | Some a, Some b => <[j := a]> (<[i := b]> input)
  | _, _ => input
  end.

(** The loop of [shuffle], from index [i] down to 1. *)
Fixpoint shuffleFrom {T} (i : nat) (input : list T) : M (list T) :=
  match i with
  | O => ret input
  | S i' =>
      let* j := randomBelow (S i) in
      shuffleFrom i' (swap input i j)
  end.

Definition shuffle {T} (input : list T) : M (list T) :=
  shuffleFrom (length input - 1) input.

(** The [for] loop of [carveMaze] at cell [(x, y)]; [rec] is the recursive
    call. *)
Definition carveDirs (rec : MazeGrid → Z → Z → M MazeGrid) (x y : Z)
  : list Delta → MazeGrid → M MazeGrid :=
  fix go (dirs : list Delta) (grid : MazeGrid) : M MazeGrid :=
    match dirs with
    | [] => ret grid
    | d :: dirs' =>
        let nx := x + dx d in
        let ny := y + dy d in
        if (ny <=? 0) || (ny >=? rows grid - 1) ||
           (nx <=? 0) || (nx >=? cols grid - 1)
        then go dirs' grid
        else if negb (bool_decide (cell grid nx ny = Some 0))
        then go dirs' grid
        else
          let* grid1 := lift (setCell grid (x + dx d / 2) (y + dy d / 2) 1) in
          let* grid2 := rec grid1 nx ny in
          go dirs' grid2
    end.

(** [carveMaze]; [fuel] bounds the depth of the recursion. *)
Fixpoint carveMaze (fuel : nat) (grid : MazeGrid) (x y : Z) : M MazeGrid :=
  match fuel with
  | O => throw
  | S fuel' =>
      let* grid1 := lift (setCell grid x y 1) in
      let* dirs := shuffle DIRECTIONS in
      carveDirs (carveMaze fuel') x y dirs grid1
  end.

(** *** Exit and start *)

Definition isPath (grid : MazeGrid) (pos : Position) : bool :=
  match cell grid (x pos) (y pos) with
  | Some value => (value =? 1) || (value =? 2)
  | None => false
  end.

Definition deltas : list Delta :=
  [mkDelta 0 (-1); mkDelta 1 0; mkDelta 0 1; mkDelta (-1) 0].

Definition neighbors (grid : MazeGrid) (pos : Position) : list Position :=
  flat_map (λ d,
    let nx := x pos + dx d in
    let ny := y pos + dy d in
    if (ny <? 0) || (ny >=? rows grid) then []
    else if (nx <? 0) || (nx >=? cols grid) then []
    else if negb (isPath grid (mkPosition nx ny)) then []
    else [mkPosition nx ny]) deltas.

(** The integers [lo, lo+1, ..., hi-1] of a [for] loop. *)
Definition range (lo hi : Z) : list Z :=
  (λ n, lo + Z.of_nat n) <$> seq 0 (Z.to_nat (hi - lo)).

(** [grid[j][i] === 1], where [grid[j]] must exist. *)
Definition isOne (grid : MazeGrid) (i j : Z) : option bool :=
  if bool_decide (0 ≤ j < rows grid)
  then Some (bool_decide (cell grid i j = Some 1))
  else None.

(** The candidates collected by the two loops of [findExit]. *)
Fixpoint exitsX (grid : MazeGrid) (maxY : Z) (xs : list Z)
  : option (list Position) :=
  match xs with
  | [] => Some []
  | x :: xs' =>
      top ← isOne grid x 1;
      bottom ← isOne grid x (maxY - 1);
      rest ← exitsX grid maxY xs';
      Some ((if top : bool then [mkPosition x 0] else []) ++
            (if bottom : bool then [mkPosition x maxY] else []) ++ rest)
  end.

Fixpoint exitsY (grid : MazeGrid) (maxX : Z) (ys : list Z)
  : option (list Position) :=
  match ys with
  | [] => Some []
  | y :: ys' =>
      left ← isOne grid 1 y;
      right ← isOne grid (maxX - 1) y;
      rest ← exitsY grid maxX ys';
      Some ((if left : bool then [mkPosition 0 y] else []) ++
            (if right : bool then [mkPosition maxX y] else []) ++ rest)
  end.

Definition exitCandidates (grid : MazeGrid) : option (list Position) :=
  match grid with
  | [] => None
  | _ =>
      let maxY := rows grid - 1 in
      let maxX := cols grid - 1 in
      ex ← exitsX grid maxY (range 1 maxX);
      ey ← exitsY grid maxX (range 1 maxY);
      Some (ex ++ ey)
  end.

Definition findExit (grid : MazeGrid) : M Position :=
  let* exits := lift (exitCandidates grid) in
  let exits :=
    match exits with
    | [] => [mkPosition (cols grid - 1) (rows grid - 1 - 1)]
    | _ => exits
    end in
  let* k := randomBelow (length exits) in
  lift (exits !! k).

(** An entry of the queue of [computeFarthestPosition]. *)
Record Entry := mkEntry { pos : Position; dist : Z }.

(** [key]: the string [`${p.x},${p.y}`], which determines the pair. *)
Definition key (p : Position) : Z * Z := (x p, y p).

(** The [while] loop of [computeFarthestPosition]. *)
Fixpoint farthestLoop (fuel : nat) (grid : MazeGrid) (queue : list Entry)
    (visited : gset (Z * Z)) (farthest : Entry) : option Position :=
  match fuel with
  | O => None
  | S fuel' =>
      match queue with
      | [] => Some (pos farthest)
      | next :: queue' =>
          if bool_decide (key (pos next) ∈ visited)
          then farthestLoop fuel' grid queue' visited farthest
          else
            let visited' := {[key (pos next)]} ∪ visited in
            let farthest' :=
              if dist next >? dist farthest then next else farthest in
            farthestLoop fuel' grid
              (queue' ++ ((λ n, mkEntry n (dist next + 1))
                            <$> neighbors grid (pos next)))
              visited' farthest'
      end
  end.

(** Iterations granted to the loop: it pushes at most four entries per
    visited cell. *)
Definition farthestFuel (grid : MazeGrid) : nat :=
  (4 * (length grid * Z.to_nat (cols grid)) + 6)%nat.

Definition computeFarthestPosition (grid : MazeGrid) (start : Position)
  : option Position :=
  farthestLoop (farthestFuel grid) grid [mkEntry start 0] ∅ (mkEntry start 0).

Definition generateMaze (size : Z) : M MazeMetadata :=
  let width := size * 2 + 1 in
  let height := size * 2 + 1 in
  let grid0 : MazeGrid :=
    replicate (Z.to_nat height) (replicate (Z.to_nat width) 0) in
  let* grid1 := carveMaze (Z.to_nat (width * height)) grid0 1 1 in
  let* exit := findExit grid1 in
  let* grid2 := lift (setCell grid1 (x exit) (y exit) 2) in
  let* start := lift (computeFarthestPosition grid2 exit) in
  ret (mkMazeMetadata grid2 width height start exit).

End Maze.


(** ** Results of operations that may throw *)

Inductive result (E A : Type) : Type :=
| Ok (a : A)
| Err (e : E).
Arguments Ok {E A} a.
Arguments Err {E A} e.

(** ** lobby.ts *)

Module Lobby.

Inductive Status := OPEN | STARTING | IN_GAME.

Record LobbyPlayer := mkLobbyPlayer {
  clientId : string;
  name : string;
  acceptedGame : bool
}.

Record LobbyState := mkLobbyState {
  code : string;
  leaderId : string;
  createdAt : Z;
  players : list LobbyPlayer;
  selectedMazeSize : Z;
  status : Status
}.

Inductive LobbyError :=
| LOBBY_NOT_FOUND
| LOBBY_FULL
| NOT_LEADER
| INVALID_SIZE
| ALREADY_IN_LOBBY
| NOT_IN_LOBBY
| CODE_SPACE_EXHAUSTED.  (* 'Failed to generate unique lobby code' *)

(** The module-level [lobbies] map. *)
Abbreviation Lobbies := (gmap string LobbyState).

Definition setPlayers (l : LobbyState) (ps : list LobbyPlayer) : LobbyState :=
  mkLobbyState (code l) (leaderId l) (createdAt l) ps (selectedMazeSize l)
    (status l).
Definition setLeaderId (l : LobbyState) (id : string) : LobbyState :=
  mkLobbyState (code l) id (createdAt l) (players l) (selectedMazeSize l)
    (status l).
Definition setStatus (l : LobbyState) (s : Status) : LobbyState :=
  mkLobbyState (code l) (leaderId l) (createdAt l) (players l)
    (selectedMazeSize l) s.
Definition setSelectedMazeSize (l : LobbyState) (size : Z) : LobbyState :=
  mkLobbyState (code l) (leaderId l) (createdAt l) (players l) size (status l).
Definition setAcceptedGame (p : LobbyPlayer) (b : bool) : LobbyPlayer :=
  mkLobbyPlayer (clientId p) (name p) b.

Definition LOBBY_CODE_LENGTH : nat := 4.
Definition MAX_PLAYERS : nat := 2.
Definition LOBBY_TTL_MS : Z := 60 * 60 * 1000.

(** [MazeSize] and [mazeSizeValues] of types.ts *)
Definition TenByTen : Z := 10.
Definition mazeSizeValues : list Z := [10; 20; 30; 40; 50].

(** [lobby.players.find(p => p.clientId === clientId)] *)
Definition findPlayer (id : string) (ps : list LobbyPlayer)
  : option LobbyPlayer :=
  List.find (λ p, bool_decide (clientId p = id)) ps.

Definition digit (d : nat) : string :=
  match d with
  | 0 => "0" | 1 => "1" | 2 => "2" | 3 => "3" | 4 => "4"
  | 5 => "5" | 6 => "6" | 7 => "7" | 8 => "8" | _ => "9"
  end%nat.

(** [Array.from({ length: n }, randomDigit).join('')], drawing from the
    cursor [k] on. *)
Fixpoint randomDigits (n : nat) (rnd : nat → nat) (k : nat) : string :=
  match n with
  | O => ""
  | S n' => digit (rnd k `mod` 10)%nat +:+ randomDigits n' rnd (S k)
  end.

(** The loop of [generateLobbyCode] with [remaining] attempts left. *)
Fixpoint generateLobbyCodeFrom (remaining : nat) (lobbies : Lobbies)
    (rnd : nat → nat) (k : nat) : option string :=
  match remaining with
  | O => None
  | S remaining' =>
      let code := randomDigits LOBBY_CODE_LENGTH rnd k in
      if bool_decide (lobbies !! code = None) then Some code
      else generateLobbyCodeFrom remaining' lobbies rnd
             (k + LOBBY_CODE_LENGTH)%nat
  end.

Definition generateLobbyCode (lobbies : Lobbies) (rnd : nat → nat) (k : nat)
  : option string :=
  generateLobbyCodeFrom (100 * 100) lobbies rnd k.

Definition getLobby (lobbies : Lobbies) (code : string) : option LobbyState :=
  lobbies !! code.

(** Every operation returns the store it leaves behind and its outcome. *)

Definition createLobby (lobbies : Lobbies) (rnd : nat → nat) (k : nat)
    (leaderId leaderName : string) (now : Z)
  : Lobbies * result LobbyError LobbyState :=
  match generateLobbyCode lobbies rnd k with
  | None => (lobbies, Err CODE_SPACE_EXHAUSTED)
  | Some code =>
      let player := mkLobbyPlayer leaderId leaderName false in
      let lobby := mkLobbyState code leaderId now [player] TenByTen OPEN in
      (<[code := lobby]> lobbies, Ok lobby)
  end.

Definition joinLobby (lobbies : Lobbies) (code clientId name : string)
  : Lobbies * result LobbyError LobbyState :=
  match lobbies !! code with
  | None => (lobbies, Err LOBBY_NOT_FOUND)
  | Some lobby =>
      if findPlayer clientId (players lobby) is Some _
      then (lobbies, Err ALREADY_IN_LOBBY)
      else if bool_decide (MAX_PLAYERS ≤ length (players lobby))%nat
      then (lobbies, Err LOBBY_FULL)
      else
        let player := mkLobbyPlayer clientId name false in
        let lobby1 := setPlayers lobby (players lobby ++ [player]) in
        let lobby2 :=
          setStatus lobby1
            (if bool_decide (length (players lobby1) = MAX_PLAYERS)
             then OPEN else status lobby1) in
        (<[code := lobby2]> lobbies, Ok lobby2)
  end.

Definition leaveLobby (lobbies : Lobbies) (code clientId : string)
  : Lobbies * option LobbyState :=
  match lobbies !! code with
  | None => (lobbies, None)
  | Some lobby =>
      let lobby1 :=
        setPlayers lobby
          (List.filter
             (λ player, negb (bool_decide (Lobby.clientId player = clientId)))
             (players lobby)) in
      match players lobby1 with
      | [] => (delete code lobbies, None)
      | first :: _ =>
          let lobby2 :=
            if findPlayer (leaderId lobby1) (players lobby1) is Some _
            then lobby1
            else setLeaderId lobby1 (Lobby.clientId first) in
          let lobby3 := setStatus lobby2 OPEN in
          (<[code := lobby3]> lobbies, Some lobby3)
      end
  end.

Definition setMazeSize (lobbies : Lobbies) (code leaderId : string) (size : Z)
  : Lobbies * result LobbyError LobbyState :=
  match lobbies !! code with
  | None => (lobbies, Err LOBBY_NOT_FOUND)
  | Some lobby =>
      if negb (bool_decide (Lobby.leaderId lobby = leaderId))
      then (lobbies, Err NOT_LEADER)
      else if negb (bool_decide (size ∈ mazeSizeValues))
      then (lobbies, Err INVALID_SIZE)
      else
        let lobby1 := setSelectedMazeSize lobby size in
        (<[code := lobby1]> lobbies, Ok lobby1)
  end.

(** [player.acceptedGame = b] on the first entry whose id is [id]. *)
Fixpoint acceptFirst (id : string) (b : bool) (ps : list LobbyPlayer)
  : list LobbyPlayer :=
  match ps with
  | [] => []
  | p :: ps' =>
      if bool_decide (clientId p = id) then setAcceptedGame p b :: ps'
      else p :: acceptFirst id b ps'
  end.

Definition markAcceptGame (lobbies : Lobbies) (code clientId : string)
    (accepted : bool) : Lobbies * result LobbyError LobbyState :=
  match lobbies !! code with
  | None => (lobbies, Err LOBBY_NOT_FOUND)
  | Some lobby =>
      match findPlayer clientId (players lobby) with
      | None => (lobbies, Err NOT_IN_LOBBY)
      | Some _ =>
          let lobby1 :=
            setPlayers lobby (acceptFirst clientId accepted (players lobby)) in
          (<[code := lobby1]> lobbies, Ok lobby1)
      end
  end.

Definition resetAcceptances (lobbies : Lobbies) (code : string)
  : Lobbies * option LobbyState :=
  match lobbies !! code with
  | None => (lobbies, None)
  | Some lobby =>
      let lobby1 :=
        setPlayers lobby ((λ player, setAcceptedGame player false)
                            <$> players lobby) in
      (<[code := lobby1]> lobbies, Some lobby1)
  end.

Definition startGame (lobbies : Lobbies) (code : string)
  : Lobbies * result LobbyError LobbyState :=
  match lobbies !! code with
  | None => (lobbies, Err LOBBY_NOT_FOUND)
  | Some lobby =>
      let lobby1 := setStatus lobby STARTING in
      (<[code := lobby1]> lobbies, Ok lobby1)
  end.

Definition finishGame (lobbies : Lobbies) (code : string)
  : Lobbies * option LobbyState :=
  match lobbies !! code with
  | None => (lobbies, None)
  | Some lobby =>
      let lobby1 := setStatus lobby IN_GAME in
      (<[code := lobby1]> lobbies, Some lobby1)
  end.

Definition endGame (lobbies : Lobbies) (code : string)
  : Lobbies * option LobbyState :=
  match lobbies !! code with
  | None => (lobbies, None)
  | Some lobby =>
      let lobbies1 := <[code := setStatus lobby OPEN]> lobbies in
      let lobbies2 := (resetAcceptances lobbies1 code).1 in
      (lobbies2, lobbies2 !! code)
  end.

Definition cleanupStaleLobbies (lobbies : Lobbies) (now : Z) : Lobbies :=
  filter (λ kv, ¬ (now - createdAt kv.2 > LOBBY_TTL_MS
                   ∨ length (players kv.2) = 0%nat)) lobbies.

End Lobby.

(** ** server.ts: the START_GAME handler *)

Module Server.

Import Lobby.

(** How [handleStartGame] ends when it does not update the lobby: one of its
    four refusals, or the error thrown by [startGame]. *)
Inductive Refusal :=
| NotInALobby
| LobbyNotFound
| OnlyLeaderCanStart
| NeedTwoPlayers
| Thrown (e : LobbyError).

(** [leader.acceptedGame = true] for the leader found in the lobby stored
    under [lobbyCode]. *)
Definition acceptLeader (lobbies : Lobbies) (lobbyCode : string) : Lobbies :=
  match lobbies !! lobbyCode with
  | None => lobbies
  | Some lobby =>
      match findPlayer (leaderId lobby) (players lobby) with
      | None => lobbies
      | Some _ =>
          <[lobbyCode :=
              setPlayers lobby
                (acceptFirst (leaderId lobby) true (players lobby))]> lobbies
      end
  end.

(** [lobby.status = 'OPEN'] on the lobby stored under [lobbyCode], as the
    ACCEPT_GAME and RESTART_GAME handlers write it. *)
Definition openLobby (lobbies : Lobbies) (lobbyCode : string) : Lobbies :=
  match lobbies !! lobbyCode with
  | None => lobbies
  | Some lobby => <[lobbyCode := setStatus lobby OPEN]> lobbies
  end.

(** The effect of [handleStartGame] on the lobbies, for a connection whose
    context holds [lobbyCode] (absent or empty: not in a lobby) and
    [clientId]; the two broadcasts that follow the update do not touch the
    store. *)
Definition handleStartGame (lobbies : Lobbies) (lobbyCode : option string)
    (clientId : string) : Lobbies * option Refusal :=
  match lobbyCode with
  | None => (lobbies, Some NotInALobby)
  | Some lobbyCode =>
      if bool_decide (lobbyCode = "") then (lobbies, Some NotInALobby) else
      match getLobby lobbies lobbyCode with
      | None => (lobbies, Some LobbyNotFound)
      | Some lobby =>
          if negb (bool_decide (leaderId lobby = clientId))
          then (lobbies, Some OnlyLeaderCanStart)
          else if bool_decide (length (players lobby) < 2)%nat
          then (lobbies, Some NeedTwoPlayers)
          else
            match startGame lobbies (code lobby) with
            | (lobbies1, Err e) => (lobbies1, Some (Thrown e))
            | (lobbies1, Ok _) =>
                let lobbies2 := (resetAcceptances lobbies1 (code lobby)).1 in
                (acceptLeader lobbies2 lobbyCode, None)
            end
      end
  end.

End Server.

(** ** game.ts *)

Module Game.

Inductive GamePhase := WAITING | COUNTDOWN | PLAYING | FINISHED.

#[global] Instance GamePhase_eq_dec : EqDecision GamePhase.
Proof. solve_decision. Defined.

Record PlayerInfo := mkPlayerInfo {
  infoClientId : string;
  infoName : string
}.

Record PlayerGameState := mkPlayerGameState {
  clientId : string;
  name : string;
  position : Position;
  targetPosition : option Position;
  movementEndsAt : option Z
}.

Record GameState := mkGameState {
  lobbyCode : string;
  maze : MazeMetadata;
  phase : GamePhase;
  players : gmap string PlayerGameState;
  startedAt : option Z;
  winnerId : option string;
  allowReconnectUntil : option Z
}.

Record MoveResult := mkMoveResult {
  resultPosition : Position;
  durationMs : Z
}.

Inductive GameError :=
| GAME_NOT_FOUND
| GAME_NOT_READY
| PLAYER_NOT_FOUND
| INVALID_MOVE
| TYPE_ERROR.  (* [grid[0].length] on an empty grid *)

(** The module-level [games] map. *)
Abbreviation Games := (gmap string GameState).

Definition RECONNECT_WINDOW_MS : Z := 30000.

(** The keys of [directionVectors], in the order of [Object.keys]. *)
Inductive Direction := UP | DOWN | LEFT | RIGHT.

Definition directionKeys : list Direction := [UP; DOWN; LEFT; RIGHT].

Definition directionVectors (key : Direction) : Maze.Delta :=
  match key with
  | UP => Maze.mkDelta 0 (-1)
  | DOWN => Maze.mkDelta 0 1
  | LEFT => Maze.mkDelta (-1) 0
  | RIGHT => Maze.mkDelta 1 0
  end.

Definition isWalkable (value : option Z) : bool :=
  match value with
  | Some v => (v =? 1) || (v =? 2)
  | None => false
  end.

Definition countOpenNeighbors (grid : MazeGrid) (position : Position) : Z :=
  fold_left (λ count key,
    let nx := x position + Maze.dx (directionVectors key) in
    let ny := y position + Maze.dy (directionVectors key) in
    if (ny <? 0) || (ny >=? rows grid) then count
    else if (nx <? 0) || (nx >=? cols grid) then count
    else if isWalkable (cell grid nx ny) then count + 1
    else count) directionKeys 0.

(** The [while] loop of [moveToNextJunction]; [fuel] is
    [grid.length * grid[0].length - steps]. *)
Fixpoint glide (fuel : nat) (grid : MazeGrid) (d : Maze.Delta)
    (current : Position) (steps : Z) : Position * Z :=
  match fuel with
  | O => (current, steps)
  | S fuel' =>
      let next := mkPosition (x current + Maze.dx d) (y current + Maze.dy d) in
      if (y next <? 0) || (y next >=? rows grid) then (current, steps)
      else if (x next <? 0) || (x next >=? cols grid) then (current, steps)
      else if negb (isWalkable (cell grid (x next) (y next)))
      then (current, steps)
      else
        let current := next in
        let steps := steps + 1 in
        if bool_decide (cell grid (x current) (y current) = Some 2)
        then (current, steps)
        else if countOpenNeighbors grid current >=? 3 then (current, steps)
        else glide fuel' grid d current steps
  end.

Definition moveToNextJunction (grid : MazeGrid) (start : Position)
    (direction : Direction) : result GameError (Position * Z) :=
  match grid with
  | [] => Err TYPE_ERROR
  | _ =>
      let '(current, steps) :=
        glide (Z.to_nat (rows grid * cols grid)) grid
          (directionVectors direction) start 0 in
      if steps =? 0 then Err INVALID_MOVE else Ok (current, steps)
  end.

(** [acc[player.clientId] = {...}] over the players, from the empty object. *)
Definition initialPlayers (start : Position) (players : list PlayerInfo)
  : gmap string PlayerGameState :=
  fold_left (λ acc player,
    <[infoClientId player :=
        mkPlayerGameState (infoClientId player) (infoName player)
          start None None]> acc) players ∅.

Definition createGame (games : Games) (lobbyCode : string) (size : Z)
    (players : list PlayerInfo) (now : Z) : Maze.M (Games * GameState) :=
  Maze.bind (Maze.generateMaze size) (λ maze,
    let game :=
      mkGameState lobbyCode maze WAITING (initialPlayers (start maze) players)
        None None (Some (now + RECONNECT_WINDOW_MS)) in
    Maze.ret (<[lobbyCode := game]> games, game)).

Definition getGame (games : Games) (lobbyCode : string) : option GameState :=
  games !! lobbyCode.

Definition removeGame (games : Games) (lobbyCode : string) : Games :=
  delete lobbyCode games.

Definition startCountdown (games : Games) (lobbyCode : string)
    (countdownSeconds now : Z) : Games * result GameError GameState :=
  match games !! lobbyCode with
  | None => (games, Err GAME_NOT_FOUND)
  | Some game =>
      let game1 :=
        mkGameState (Game.lobbyCode game) (maze game) COUNTDOWN (players game)
          (Some (now + countdownSeconds * 1000)) (winnerId game)
          (allowReconnectUntil game) in
      (<[lobbyCode := game1]> games, Ok game1)
  end.

(** [beginGame] reads the clock twice: [now] for [startedAt], then [now']
    for [allowReconnectUntil]. *)
Definition beginGame (games : Games) (lobbyCode : string) (now now' : Z)
  : Games * result GameError GameState :=
  match games !! lobbyCode with
  | None => (games, Err GAME_NOT_FOUND)
  | Some game =>
      let game1 :=
        mkGameState (Game.lobbyCode game) (maze game) PLAYING (players game)
          (Some now) (winnerId game) (Some (now' + RECONNECT_WINDOW_MS)) in
      (<[lobbyCode := game1]> games, Ok game1)
  end.

Definition markPlayerDisconnected (games : Games) (lobbyCode clientId : string)
    (now : Z) : Games * option GameState :=
  match games !! lobbyCode with
  | None => (games, None)
  | Some game =>
      match players game !! clientId with
      | None => (games, Some game)
      | Some _ =>
          let game1 :=
            mkGameState (Game.lobbyCode game) (maze game) (phase game)
              (players game) (startedAt game) (winnerId game)
              (Some (now + RECONNECT_WINDOW_MS)) in
          (<[lobbyCode := game1]> games, Some game1)
      end
  end.

Definition markPlayerReconnected (games : Games) (lobbyCode clientId : string)
    (now : Z) : Games * option GameState :=
  match games !! lobbyCode with
  | None => (games, None)
  | Some game =>
      match players game !! clientId with
      | None => (games, Some game)
      | Some _ =>
          let game1 :=
            mkGameState (Game.lobbyCode game) (maze game) (phase game)
              (players game) (startedAt game) (winnerId game)
              (Some (now + RECONNECT_WINDOW_MS)) in
          (<[lobbyCode := game1]> games, Some game1)
      end
  end.

(** [String.prototype.toUpperCase], on the bytes of the string.  The upper
    case of a character holds an ASCII character for the letters a-z
    ([upperAscii]) and for seventeen characters outside ASCII, which are
    encoded on two bytes ([upperTwo]) or three ([upperThree]); the tables give
    the bytes of each and the bytes of its upper case.  Every other character
    outside ASCII is left as it is here, where JavaScript replaces some by
    other characters outside ASCII: the result then holds a character
    outside ASCII here as there, and is a key of [directionVectors] in
    neither case, which is all that [handleMove] asks of it. *)
Definition upperAscii (c : Ascii.ascii) : Ascii.ascii :=
  let n := Ascii.nat_of_ascii c in
  if bool_decide (97 ≤ n ≤ 122)%nat then Ascii.ascii_of_nat (n - 32) else c.

Definition upperTwo : list ((nat * nat) * list nat) :=
  [ ((195, 159), [83; 83]);           (* U+00DF: SS *)
    ((196, 177), [73]);               (* U+0131: I *)
    ((197, 137), [202; 188; 78]);     (* U+0149: U+02BC N *)
    ((197, 191), [83]);               (* U+017F: S *)
    ((199, 176), [74; 204; 140]) ]%nat.    (* U+01F0: J U+030C *)

Definition upperThree : list ((nat * nat * nat) * list nat) :=
  [ ((225, 186, 150), [72; 204; 177]);     (* U+1E96: H U+0331 *)
    ((225, 186, 151), [84; 204; 136]);     (* U+1E97: T U+0308 *)
    ((225, 186, 152), [87; 204; 138]);     (* U+1E98: W U+030A *)
    ((225, 186, 153), [89; 204; 138]);     (* U+1E99: Y U+030A *)
    ((225, 186, 154), [65; 202; 190]);     (* U+1E9A: A U+02BE *)
    ((239, 172, 128), [70; 70]);           (* U+FB00: FF *)
    ((239, 172, 129), [70; 73]);           (* U+FB01: FI *)
    ((239, 172, 130), [70; 76]);           (* U+FB02: FL *)
    ((239, 172, 131), [70; 70; 73]);       (* U+FB03: FFI *)
    ((239, 172, 132), [70; 70; 76]);       (* U+FB04: FFL *)
    ((239, 172, 133), [83; 84]);           (* U+FB05: ST *)
    ((239, 172, 134), [83; 84]) ]%nat.     (* U+FB06: ST *)

(** The entry of a table for the bytes [key]. *)
Fixpoint upperOf {K} `{EqDecision K} (key : K) (table : list (K * list nat))
  : option (list nat) :=
  match table with
  | [] => None
  | (key', upper) :: table' =>
      if decide (key = key') then Some upper else upperOf key table'
  end.

Definition upper2 (c c1 : Ascii.ascii) : option (list nat) :=
  upperOf (Ascii.nat_of_ascii c, Ascii.nat_of_ascii c1) upperTwo.

Definition upper3 (c c1 c2 : Ascii.ascii) : option (list nat) :=
  upperOf (Ascii.nat_of_ascii c, Ascii.nat_of_ascii c1, Ascii.nat_of_ascii c2)
    upperThree.

(** The string [s] after the bytes [codes]. *)
Definition prepend (codes : list nat) (s : string) : string :=
  foldr (λ n s, String (Ascii.ascii_of_nat n) s) s codes.

Fixpoint toUpperCase (s : string) : string :=
  match s with
  | EmptyString => EmptyString
  | String c s1 =>
      let single := String (upperAscii c) (toUpperCase s1) in
      match s1 with
      | EmptyString => single
      | String c1 s2 =>
          match upper2 c c1 with
          | Some upper => prepend upper (toUpperCase s2)
          | None =>
              match s2 with
              | EmptyString => single
              | String c2 s3 =>
                  match upper3 c c1 c2 with
                  | Some upper => prepend upper (toUpperCase s3)
                  | None => single
                  end
              end
          end
      end
  end.

(** [Object.hasOwn(directionVectors, direction)], with the key it names. *)
Definition ownDirection (direction : string) : option Direction :=
  if bool_decide (direction = "UP") then Some UP
  else if bool_decide (direction = "DOWN") then Some DOWN
  else if bool_decide (direction = "LEFT") then Some LEFT
  else if bool_decide (direction = "RIGHT") then Some RIGHT
  else None.

Section HandleMove.

(** The per-step duration read from the environment at start-up. *)
Variable MOVEMENT_SPEED_MS_PER_STEP : Z.

Definition handleMove (games : Games) (lobbyCode clientId : string)
    (moveDirection : string) (now : Z) : Games * result GameError MoveResult :=
  match games !! lobbyCode with
  | None => (games, Err GAME_NOT_FOUND)
  | Some game =>
      if negb (bool_decide (phase game = PLAYING))
      then (games, Err GAME_NOT_READY)
      else
        match players game !! clientId with
        | None => (games, Err PLAYER_NOT_FOUND)
        | Some player =>
            match ownDirection (toUpperCase moveDirection) with
            | None => (games, Err INVALID_MOVE)
            | Some direction =>
                match moveToNextJunction (grid (maze game)) (position player)
                        direction with
                | Err e => (games, Err e)
                | Ok (position, steps) =>
                    let durationMs := steps * MOVEMENT_SPEED_MS_PER_STEP in
                    let movementEndsAt := now + durationMs in
                    let player1 :=
                      mkPlayerGameState (Game.clientId player) (name player)
                        position (Some position) (Some movementEndsAt) in
                    let players1 := <[clientId := player1]> (players game) in
                    let finished :=
                      bool_decide
                        (cell (grid (maze game)) (x position) (y position)
                         = Some 2) in
                    let game1 :=
                      mkGameState (Game.lobbyCode game) (maze game)
                        (if finished then FINISHED else phase game)
                        players1 (startedAt game)
                        (if finished then Some clientId else winnerId game)
                        (allowReconnectUntil game) in
                    (<[lobbyCode := game1]> games,
                     Ok (mkMoveResult position durationMs))
                end
            end
        end
  end.

End HandleMove.

Definition restartGame (games : Games) (lobbyCode : string) (size : Z)
    (players : list PlayerInfo) (now : Z) : Maze.M (Games * GameState) :=
  createGame (delete lobbyCode games) lobbyCode size players now.

(** [game.phase === 'FINISHED' && game.allowReconnectUntil
     && now > game.allowReconnectUntil] *)
Definition expired (now : Z) (game : GameState) : bool :=
  bool_decide (phase game = FINISHED) &&
  match allowReconnectUntil game with
  | Some until => negb (until =? 0) && (now >? until)
  | None => false
  end.

Definition expireOldGames (games : Games) (now : Z) : Games :=
  filter (λ kv, expired now kv.2 = false) games.

End Game.

(** ** player.ts *)

Module Player.

Record PlayerRecord := mkPlayerRecord {
  clientId : string;
  name : string;
  connected : bool;
  lastSeen : Z;
  lobbyCode : option string;
  gameCode : option string;
  authenticatedAt : Z
}.

(** The module-level [players] map.  A JavaScript [Map] iterates over its
    entries in the order in which their keys were first inserted, and
    [getPlayersInLobby] and [getPlayersInGame] expose that order: the store
    is the list of its entries in that order. *)
Abbreviation Players := (list (string * PlayerRecord)).

Definition TEN_SECONDS : Z := 10000.

(** [players.get(clientId)] *)
Definition getPlayer (players : Players) (clientId : string)
  : option PlayerRecord :=
  snd <$> List.find (λ kv, bool_decide (kv.1 = clientId)) players.

(** Assignments to fields of the record stored under [clientId]; the entry
    keeps its place.  (A [Map] holds a key once: the keys of the list are
    distinct, see [PlayerSpec.tidy].) *)
Definition update (players : Players) (clientId : string)
    (f : PlayerRecord → PlayerRecord) : Players :=
  (λ kv, if bool_decide (kv.1 = clientId) then (kv.1, f kv.2) else kv)
    <$> players.

Definition upsertPlayer (players : Players) (clientId name : string) (now : Z)
  : Players * PlayerRecord :=
  match getPlayer players clientId with
  | Some existing =>
      let existing1 :=
        mkPlayerRecord (Player.clientId existing) name true now
          (lobbyCode existing) (gameCode existing) (authenticatedAt existing) in
      (update players clientId (λ _, existing1), existing1)
  | None =>
      let record := mkPlayerRecord clientId name true now None None now in
      (players ++ [(clientId, record)], record)
  end.

Definition markPlayerSeen (players : Players) (clientId : string) (now : Z)
  : Players :=
  match getPlayer players clientId with
  | None => players
  | Some _ =>
      update players clientId (λ player,
        mkPlayerRecord (Player.clientId player) (name player) true now
          (lobbyCode player) (gameCode player) (authenticatedAt player))
  end.

Definition authenticatePlayer (players : Players) (clientId : string) (now : Z)
  : bool :=
  match getPlayer players clientId with
  | None => false
  | Some player => bool_decide (now - authenticatedAt player ≤ TEN_SECONDS)
  end.

Definition assignLobby (players : Players) (clientId : string)
    (lobbyCode : option string) : Players :=
  match getPlayer players clientId with
  | None => players
  | Some _ =>
      update players clientId (λ player,
        mkPlayerRecord (Player.clientId player) (name player)
          (connected player) (lastSeen player) lobbyCode (gameCode player)
          (authenticatedAt player))
  end.

Definition assignGame (players : Players) (clientId : string)
    (gameCode : option string) : Players :=
  match getPlayer players clientId with
  | None => players
  | Some _ =>
      update players clientId (λ player,
        mkPlayerRecord (Player.clientId player) (name player)
          (connected player) (lastSeen player) (lobbyCode player) gameCode
          (authenticatedAt player))
  end.

Definition markDisconnected (players : Players) (clientId : string) (now : Z)
  : Players :=
  match getPlayer players clientId with
  | None => players
  | Some _ =>
      update players clientId (λ player,
        mkPlayerRecord (Player.clientId player) (name player) false now
          (lobbyCode player) (gameCode player) (authenticatedAt player))
  end.

Definition removePlayer (players : Players) (clientId : string) : Players :=
  filter (λ kv, kv.1 ≠ clientId) players.

Definition getPlayersInLobby (players : Players) (lobbyCode : string)
  : list PlayerRecord :=
  filter (λ player, Player.lobbyCode player = Some lobbyCode)
    (snd <$> players).

Definition getPlayersInGame (players : Players) (gameCode : string)
  : list PlayerRecord :=
  filter (λ player, Player.gameCode player = Some gameCode) (snd <$> players).

Definition cleanupStalePlayers (players : Players) (maxAgeMs now : Z)
  : Players :=
  filter (λ kv, ¬ (now - lastSeen kv.2 > maxAgeMs)) players.

End Player.

(** ** server.ts: sockets of a lobby, countdown, and the other handlers

    The handlers are given by their effect on the stores of lobby.ts,
    game.ts and player.ts and on the two registries of server.ts that they
    write; the packets they send are not part of the stores.  A handler
    that runs after [ensureIdentified] takes the identity it returned. *)

Module Handlers.

Definition COUNTDOWN_SECONDS : Z := 5.

(** [lobbySockets]; a socket is known by a number. *)
Abbreviation Sockets := (gmap string (gset nat)).

Definition addSocketToLobby (lobbySockets : Sockets) (socket : nat)
    (lobbyCode : string) : Sockets :=
  match lobbySockets !! lobbyCode with
  | None => <[lobbyCode := {[socket]}]> lobbySockets
  | Some sockets => <[lobbyCode := {[socket]} ∪ sockets]> lobbySockets
  end.

Definition removeSocketFromLobby (lobbySockets : Sockets) (socket : nat)
    (lobbyCode : option string) : Sockets :=
  match lobbyCode with
  | None => lobbySockets
  | Some lobbyCode =>
      if bool_decide (lobbyCode = "") then lobbySockets else
      match lobbySockets !! lobbyCode with
      | None => lobbySockets
      | Some sockets =>
          let sockets1 := sockets ∖ {[socket]} in
          if bool_decide (size sockets1 = 0%nat)
          then delete lobbyCode lobbySockets
          else <[lobbyCode := sockets1]> lobbySockets
      end
  end.

(** [/^\d{4}$/.test(codeRaw)] *)
Definition isDigit (c : Ascii.ascii) : bool :=
  bool_decide (48 ≤ Ascii.nat_of_ascii c ≤ 57)%nat.

Fixpoint allDigits (s : string) : bool :=
  match s with
  | EmptyString => true
  | String c s' => isDigit c && allDigits s'
  end.

Definition validCode (codeRaw : string) : bool :=
  bool_decide (String.length codeRaw = 4%nat) && allDigits codeRaw.

(** The stores. *)
Record Stores := mkStores {
  lobbies : Lobby.Lobbies;
  games : Game.Games;
  players : Player.Players;
  lobbySockets : Sockets;
  (** [countdownTimers]: a live timer is the value of the variable
      [remaining] of its callback. *)
  countdownTimers : gmap string Z
}.

Definition setLobbies (s : Stores) (lobbies : Lobby.Lobbies) : Stores :=
  mkStores lobbies (games s) (players s) (lobbySockets s) (countdownTimers s).
Definition setGames (s : Stores) (games : Game.Games) : Stores :=
  mkStores (lobbies s) games (players s) (lobbySockets s) (countdownTimers s).
Definition setPlayers (s : Stores) (players : Player.Players) : Stores :=
  mkStores (lobbies s) (games s) players (lobbySockets s) (countdownTimers s).
Definition setCountdownTimers (s : Stores) (timers : gmap string Z) : Stores :=
  mkStores (lobbies s) (games s) (players s) (lobbySockets s) timers.

(** [scheduleCountdown]: a timer of [COUNTDOWN_SECONDS] replaces the timer
    of the lobby, if the lobby has a game. *)
Definition scheduleCountdown (s : Stores) (lobby : Lobby.LobbyState) : Stores :=
  let lobbyCode := Lobby.code lobby in
  match Game.getGame (games s) lobbyCode with
  | None => s
  | Some _ =>
      setCountdownTimers s
        (<[lobbyCode := COUNTDOWN_SECONDS]> (countdownTimers s))
  end.

(** One firing of the timer of [lobbyCode]: the callback of [setInterval] in
    [scheduleCountdown]; [now] and [now'] are the two readings of the clock
    by [beginGame].  A cleared timer does not fire.  When [beginGame] throws,
    the rest of the callback is not run. *)
Definition countdownTick (s : Stores) (lobbyCode : string) (now now' : Z)
  : Stores :=
  match countdownTimers s !! lobbyCode with
  | None => s
  | Some remaining =>
      let remaining := remaining - 1 in
      if bool_decide (remaining ≤ 0) then
        let s1 := setCountdownTimers s (delete lobbyCode (countdownTimers s)) in
        match Game.beginGame (games s1) lobbyCode now now' with
        | (_, Err _) => s1
        | (games1, Ok _) =>
            setLobbies (setGames s1 games1)
              (Lobby.finishGame (lobbies s1) lobbyCode).1
        end
      else setCountdownTimers s (<[lobbyCode := remaining]> (countdownTimers s))
  end.

(** [lobby.players.map(player => ({ clientId, name }))] *)
Definition playerInfos (lobby : Lobby.LobbyState) : list Game.PlayerInfo :=
  (λ player, Game.mkPlayerInfo (Lobby.clientId player) (Lobby.name player))
    <$> Lobby.players lobby.

(** [lobby.players.forEach(player =>
       assignPlayerGame(player.clientId, lobbyCode))] *)
Definition assignGames (players : Player.Players) (lobby : Lobby.LobbyState)
    (lobbyCode : string) : Player.Players :=
  fold_left (λ acc player,
    Player.assignGame acc (Lobby.clientId player) (Some lobbyCode))
    (Lobby.players lobby) players.

(** [ensureGame]; [None] when [createGame] throws. *)
Definition ensureGame (s : Stores) (lobbyCode : string)
    (lobby : Lobby.LobbyState) (now : Z) (rnd : nat → nat) (k : nat)
  : option (Stores * Game.GameState * nat) :=
  match Game.getGame (games s) lobbyCode with
  | Some game => Some (s, game, k)
  | None =>
      match Game.createGame (games s) lobbyCode (Lobby.selectedMazeSize lobby)
              (playerInfos lobby) now rnd k with
      | None => None
      | Some (games1, game, k') =>
          Some (setPlayers (setGames s games1)
                  (assignGames (players s) lobby lobbyCode), game, k')
      end
  end.

(** How [handleAcceptGamePacket] ends. *)
Inductive AcceptOutcome :=
| AcceptNotInLobby   (* 'Not in a lobby' *)
| AcceptFailed       (* the exception caught: 'Failed to accept game' *)
| AcceptDeclined
| AcceptWaiting
| AcceptCountdown.

(** [handleAcceptGamePacket] for a connection whose context holds
    [lobbyCode] and [clientId]; [now] is the clock read by [createGame],
    [now'] the clock read by [startCountdown]. *)
Definition handleAcceptGamePacket (s : Stores) (lobbyCode : option string)
    (clientId : string) (accepted : bool) (now now' : Z)
    (rnd : nat → nat) (k : nat) : Stores * AcceptOutcome * nat :=
  match lobbyCode with
  | None => (s, AcceptNotInLobby, k)
  | Some lobbyCode =>
      if bool_decide (lobbyCode = "") then (s, AcceptNotInLobby, k) else
      match Lobby.markAcceptGame (lobbies s) lobbyCode clientId accepted with
      | (_, Err _) => (s, AcceptFailed, k)
      | (lobbies1, Ok lobby) =>
          let s1 := setLobbies s lobbies1 in
          if negb accepted then
            let lobbies2 :=
              (Lobby.resetAcceptances lobbies1 (Lobby.code lobby)).1 in
            (setLobbies s (Server.openLobby lobbies2 lobbyCode),
             AcceptDeclined, k)
          else if bool_decide (length (Lobby.players lobby) = 2%nat)
                  && forallb Lobby.acceptedGame (Lobby.players lobby)
          then
            match ensureGame s1 (Lobby.code lobby) lobby now rnd k with
            | None => (s1, AcceptFailed, k)
            | Some (s2, _, k') =>
                match Game.startCountdown (games s2) (Lobby.code lobby)
                        COUNTDOWN_SECONDS now' with
                | (_, Err _) => (s2, AcceptFailed, k')
                | (games3, Ok _) =>
                    (scheduleCountdown (setGames s2 games3) lobby,
                     AcceptCountdown, k')
                end
            end
          else (s1, AcceptWaiting, k)
      end
  end.

(** How [handleRestart] ends. *)
Inductive RestartOutcome :=
| RestartNotInLobby
| RestartLobbyNotFound
| RestartNotLeader
| RestartThrown      (* [restartGame] threw after deleting the old game *)
| Restarted.

Definition handleRestart (s : Stores) (lobbyCode : option string)
    (clientId : string) (now : Z) (rnd : nat → nat) (k : nat)
  : Stores * RestartOutcome * nat :=
  match lobbyCode with
  | None => (s, RestartNotInLobby, k)
  | Some lobbyCode =>
      if bool_decide (lobbyCode = "") then (s, RestartNotInLobby, k) else
      match Lobby.getLobby (lobbies s) lobbyCode with
      | None => (s, RestartLobbyNotFound, k)
      | Some lobby =>
          if negb (bool_decide (Lobby.leaderId lobby = clientId))
          then (s, RestartNotLeader, k)
          else
            match Game.restartGame (games s) lobbyCode
                    (Lobby.selectedMazeSize lobby) (playerInfos lobby) now
                    rnd k with
            | None =>
                (setGames s (delete lobbyCode (games s)), RestartThrown, k)
            | Some (games1, _, k') =>
                let lobbies1 := Server.openLobby (lobbies s) lobbyCode in
                let players1 := assignGames (players s) lobby lobbyCode in
                let lobbies2 :=
                  (Lobby.resetAcceptances lobbies1 lobbyCode).1 in
                let lobbies3 := Server.acceptLeader lobbies2 lobbyCode in
                (mkStores lobbies3 games1 players1 (lobbySockets s)
                   (countdownTimers s), Restarted, k')
            end
      end
  end.

(** [handleCreateLobby] for the identity [clientId], [name] and the number
    [size] read from the packet (10 when the packet names none, or one that
    is not finite); the result is the lobby code written to the context,
    unless [createLobby] threw.  An error of [setMazeSize] is ignored. *)
Definition handleCreateLobby (s : Stores) (socket : nat)
    (clientId name : string) (size : Z) (now : Z) (rnd : nat → nat) (k : nat)
  : Stores * option string :=
  match Lobby.createLobby (lobbies s) rnd k clientId name now with
  | (_, Err _) => (s, None)
  | (lobbies1, Ok lobby) =>
      let lobbies2 :=
        (Lobby.setMazeSize lobbies1 (Lobby.code lobby) clientId size).1 in
      (mkStores lobbies2 (games s)
         (Player.assignLobby (players s) clientId (Some (Lobby.code lobby)))
         (addSocketToLobby (lobbySockets s) socket (Lobby.code lobby))
         (countdownTimers s),
       Some (Lobby.code lobby))
  end.

(** How [handleJoinLobbyPacket] ends. *)
Inductive JoinOutcome :=
| JoinInvalidCode
| JoinFailed (e : Lobby.LobbyError)
| Joined (lobbyCode : string).

(** [handleJoinLobbyPacket]; [codeRaw] is [None] when the packet holds no
    string under [code]. *)
Definition handleJoinLobbyPacket (s : Stores) (socket : nat)
    (clientId name : string) (codeRaw : option string) : Stores * JoinOutcome :=
  match codeRaw with
  | None => (s, JoinInvalidCode)
  | Some codeRaw =>
      if negb (validCode codeRaw) then (s, JoinInvalidCode) else
      match Lobby.joinLobby (lobbies s) codeRaw clientId name with
      | (_, Err e) => (s, JoinFailed e)
      | (lobbies1, Ok lobby) =>
          (mkStores lobbies1 (games s)
             (Player.assignLobby (players s) clientId
                (Some (Lobby.code lobby)))
             (addSocketToLobby (lobbySockets s) socket (Lobby.code lobby))
             (countdownTimers s),
           Joined (Lobby.code lobby))
      end
  end.

(** The context of a connection: [lobbyCode] is written only by the two
    handlers above, which run for an identified connection. *)
Inductive Context :=
| Anonymous
| Identified (clientId name : string) (lobbyCode : option string).

(** [onClose]; [now] is the clock read by [markPlayerDisconnected], [now']
    the clock read by [markDisconnected]. *)
Definition onClose (s : Stores) (socket : nat) (context : Context)
    (now now' : Z) : Stores :=
  match context with
  | Anonymous => s
  | Identified clientId _ lobbyCode =>
      let s1 :=
        match lobbyCode with
        | None => s
        | Some lobbyCode =>
            if bool_decide (lobbyCode = "") then s else
            mkStores
              (Lobby.leaveLobby (lobbies s) lobbyCode clientId).1
              (Game.markPlayerDisconnected (games s) lobbyCode clientId now).1
              (players s)
              (removeSocketFromLobby (lobbySockets s) socket (Some lobbyCode))
              (delete lobbyCode (countdownTimers s))
        end in
      if bool_decide (clientId = "") then s1 else
      setPlayers s1
        (Player.assignGame
           (Player.assignLobby
              (Player.markDisconnected (players s1) clientId now')
              clientId None)
           clientId None)
  end.

End Handlers.

(** * Vocabulary of the properties *)

(** ** Lobbies *)

Module LobbySpec.

Import Lobby.

(** The client ids of the members, in list order. *)
Definition members (l : LobbyState) : list string := clientId <$> players l.

(** The requests that reach the lobby store: the operations of lobby.ts, the
    START_GAME handler of server.ts, and the two direct writes of the other
    handlers of server.ts ([lobby.status = 'OPEN'] and
    [leader.acceptedGame = true]). *)
Inductive Op :=
| OpCreateLobby (rnd : nat → nat) (k : nat) (leaderId leaderName : string)
    (now : Z)
| OpJoinLobby (code clientId name : string)
| OpLeaveLobby (code clientId : string)
| OpSetMazeSize (code leaderId : string) (size : Z)
| OpMarkAcceptGame (code clientId : string) (accepted : bool)
| OpResetAcceptances (code : string)
| OpStartGame (code : string)
| OpFinishGame (code : string)
| OpEndGame (code : string)
| OpCleanupStaleLobbies (now : Z)
| OpHandleStartGame (lobbyCode : option string) (clientId : string)
| OpOpenLobby (lobbyCode : string)
| OpAcceptLeader (lobbyCode : string).

Definition apply (lobbies : Lobbies) (op : Op) : Lobbies :=
  match op with
  | OpCreateLobby rnd k leaderId leaderName now =>
      (createLobby lobbies rnd k leaderId leaderName now).1
  | OpJoinLobby code clientId name => (joinLobby lobbies code clientId name).1
  | OpLeaveLobby code clientId => (leaveLobby lobbies code clientId).1
  | OpSetMazeSize code leaderId size =>
      (setMazeSize lobbies code leaderId size).1
  | OpMarkAcceptGame code clientId accepted =>
      (markAcceptGame lobbies code clientId accepted).1
  | OpResetAcceptances code => (resetAcceptances lobbies code).1
  | OpStartGame code => (startGame lobbies code).1
  | OpFinishGame code => (finishGame lobbies code).1
  | OpEndGame code => (endGame lobbies code).1
  | OpCleanupStaleLobbies now => cleanupStaleLobbies lobbies now
  | OpHandleStartGame lobbyCode clientId =>
      (Server.handleStartGame lobbies lobbyCode clientId).1
  | OpOpenLobby lobbyCode => Server.openLobby lobbies lobbyCode
  | OpAcceptLeader lobbyCode => Server.acceptLeader lobbies lobbyCode
  end.

(** The store after a history of requests, from the empty store. *)
Definition run (ops : list Op) : Lobbies := fold_left apply ops ∅.

(** What holds of every live lobby. *)
Record wfLobby (key : string) (l : LobbyState) : Prop := {
  wf_key : key ≠ "";
  wf_code : code l = key;
  wf_nonempty : players l ≠ [];
  wf_capacity : (length (players l) ≤ MAX_PLAYERS)%nat;
  wf_distinct : NoDup (members l);
  wf_leader : leaderId l ∈ members l
}.

Definition wfLobbies (lobbies : Lobbies) : Prop :=
  ∀ key l, lobbies !! key = Some l → wfLobby key l.

(** The history used as an example: a lobby is created and joined. *)
Definition twoPlayerHistory : list Op :=
  [OpCreateLobby (λ _, 0%nat) 0 "ann" "Ann" 0; OpJoinLobby "0000" "bob" "Bob"].

Definition twoPlayerLobby : LobbyState :=
  mkLobbyState "0000" "ann" 0
    [mkLobbyPlayer "ann" "Ann" false; mkLobbyPlayer "bob" "Bob" false]
    TenByTen OPEN.

End LobbySpec.

(** ** Mazes *)

Module MazeSpec.

(** A cell that holds a path or the exit. *)
Definition walkable (g : MazeGrid) (p : Position) : Prop :=
  Maze.isPath g p = true.

(** 4-directional adjacency. *)
Definition adjacent (p q : Position) : Prop :=
  Z.abs (x p - x q) + Z.abs (y p - y q) = 1.

(** [pathIn P a b l]: [l] lists the cells of a simple path from [a] to [b]
    through cells of [P]: consecutive cells are adjacent and no cell occurs
    twice. *)
Inductive pathIn (P : Position → Prop)
  : Position → Position → list Position → Prop :=
| pathIn_one a : P a → pathIn P a a [a]
| pathIn_step a c b l :
    P a → adjacent a c → a ∉ l → pathIn P c b l → pathIn P a b (a :: l).

(** The cells of [P] form a tree: exactly one simple path joins any two. *)
Definition treeOn (P : Position → Prop) : Prop :=
  ∀ a b, P a → P b →
    ∃ l, pathIn P a b l ∧ ∀ l', pathIn P a b l' → l' = l.

(** A perfect maze: between any two walkable cells there is one and only one
    simple path through walkable cells. *)
Definition perfect (g : MazeGrid) : Prop := treeOn (walkable g).

(** A grid of [h] rows of [w] cells. *)
Definition shaped (w h : nat) (g : MazeGrid) : Prop :=
  length g = h ∧ ∀ j row, g !! j = Some row → length row = w.

(** The outer ring of a grid of side [2 * size + 1]. *)
Definition onBorder (size : Z) (p : Position) : Prop :=
  x p = 0 ∨ y p = 0 ∨ x p = 2 * size ∨ y p = 2 * size.

(** The cell one step inside the grid from a border cell. *)
Definition inward (size : Z) (p : Position) : Position :=
  if y p =? 0 then mkPosition (x p) 1
  else if y p =? 2 * size then mkPosition (x p) (2 * size - 1)
  else if x p =? 0 then mkPosition 1 (y p)
  else mkPosition (2 * size - 1) (y p).

(** The state of the grid while it is carved: walkable cells lie inside the
    border, never on a cell with two even coordinates; a carved cell between
    two lattice cells has both of them carved; the carved cells form a
    tree. *)
Record carved (size : Z) (g : MazeGrid) : Prop := {
  carved_shape :
    shaped (Z.to_nat (2 * size + 1)) (Z.to_nat (2 * size + 1)) g;
  carved_inside : ∀ p, walkable g p →
    0 < x p < 2 * size ∧ 0 < y p < 2 * size ∧
    (x p mod 2 = 1 ∨ y p mod 2 = 1);
  carved_walls : ∀ p, walkable g p →
    (x p mod 2 = 0 → walkable g (mkPosition (x p - 1) (y p))
                     ∧ walkable g (mkPosition (x p + 1) (y p))) ∧
    (y p mod 2 = 0 → walkable g (mkPosition (x p) (y p - 1))
                     ∧ walkable g (mkPosition (x p) (y p + 1)));
  carved_tree : perfect g;
  carved_values : ∀ i j v, cell g i j = Some v → v = 0 ∨ v = 1
}.

(** The cells of a grid that are still 0. *)
Definition zerosRow (row : list Z) : nat := length (filter (λ v, v = 0) row).

Definition zeros (g : MazeGrid) : nat := sum_list (zerosRow <$> g).

(** A candidate exit of a carved grid of side [2 * size + 1]: a border cell,
    not a corner, whose inward neighbour is a path. *)
Definition candidate (size : Z) (g : MazeGrid) (e : Position) : Prop :=
  (y e = 0 ∧ 1 ≤ x e < 2 * size ∧ cell g (x e) 1 = Some 1) ∨
  (y e = 2 * size ∧ 1 ≤ x e < 2 * size
   ∧ cell g (x e) (2 * size - 1) = Some 1) ∨
  (x e = 0 ∧ 1 ≤ y e < 2 * size ∧ cell g 1 (y e) = Some 1) ∨
  (x e = 2 * size ∧ 1 ≤ y e < 2 * size
   ∧ cell g (2 * size - 1) (y e) = Some 1).

(** *** Breadth-first search *)

(** One step of the search: to an adjacent walkable cell inside the grid. *)
Definition link (g : MazeGrid) (p q : Position) : Prop :=
  adjacent p q ∧ 0 ≤ y q < rows g ∧ 0 ≤ x q < cols g ∧ walkable g q.

(** [walk g a b n]: [b] is reached from [a] in [n] steps. *)
Inductive walk (g : MazeGrid) (a : Position) : Position → nat → Prop :=
| walk_here : walk g a a 0
| walk_step b c n : walk g a b n → link g b c → walk g a c (S n).

(** The breadth-first distance: the length of a shortest walk. *)
Definition distance (g : MazeGrid) (a b : Position) (n : nat) : Prop :=
  walk g a b n ∧ ∀ m, walk g a b m → (n ≤ m)%nat.

(** The cells of [l] that are not in [seen], each at its first occurrence. *)
Fixpoint fresh (seen l : list Position) : list Position :=
  match l with
  | [] => []
  | p :: l' =>
      if decide (p ∈ seen) then fresh seen l' else p :: fresh (p :: seen) l'
  end.

(** The search by rounds from [s]: the cells found before round [n], and
    the cells found in round [n], in the order in which a first-in first-out
    search finds them (the neighbours of a cell are tried in the order of
    [Maze.neighbors]). *)
Fixpoint bfsRound (g : MazeGrid) (s : Position) (n : nat)
  : list Position * list Position :=
  match n with
  | O => ([], [s])
  | S n' =>
      let '(seen, found) := bfsRound g s n' in
      (seen ++ found,
       fresh (seen ++ found) (flat_map (Maze.neighbors g) found))
  end.

Definition foundBefore (g : MazeGrid) (s : Position) (n : nat)
  : list Position := (bfsRound g s n).1.

Definition level (g : MazeGrid) (s : Position) (n : nat) : list Position :=
  (bfsRound g s n).2.

(** The cells of the grid. *)
Definition allCells (g : MazeGrid) : list Position :=
  flat_map (λ j, (λ i, mkPosition i j) <$> Maze.range 0 (cols g))
    (Maze.range 0 (rows g)).

(** Queue entries at distance [n]. *)
Definition entries (n : Z) (l : list Position) : list Maze.Entry :=
  (λ p, Maze.mkEntry p n) <$> l.

(** The farthest entry after the cells [l] were visited at distance [n]. *)
Definition better (n : Z) (far : Maze.Entry) (l : list Position)
  : Maze.Entry :=
  match l with
  | [] => far
  | q :: _ => if n >? Maze.dist far then Maze.mkEntry q n else far
  end.

(** The set of keys of a list of cells. *)
Definition keys (l : list Position) : gset (Z * Z) :=
  list_to_set (Maze.key <$> l).

(** A first-in first-out search from [s] that records the cells in the
    order it finds them: the cell at the head of the queue is expanded, and
    those of its neighbours that were not found yet are appended, in order,
    to the queue and to the record. *)
Fixpoint fifoSearch (fuel : nat) (g : MazeGrid) (queue found : list Position)
  : list Position :=
  match fuel with
  | O => found
  | S fuel' =>
      match queue with
      | [] => found
      | p :: queue' =>
          let new := fresh found (Maze.neighbors g p) in
          fifoSearch fuel' g (queue' ++ new) (found ++ new)
      end
  end.

(** The order in which the first-in first-out search from [s] finds the
    cells; every cell enters the queue once, so the search ends within the
    number of cells. *)
Definition discoveryOrder (g : MazeGrid) (s : Position) : list Position :=
  fifoSearch (S (S (length (allCells g)))) g [s] [s].

(** What the queue holds when round [n] begins, and the iterations the loop
    spends before that. *)
Definition raw (g : MazeGrid) (s : Position) (n : nat) : list Position :=
  match n with
  | O => [s]
  | S n' => flat_map (Maze.neighbors g) (level g s n')
  end.

Fixpoint cost (g : MazeGrid) (s : Position) (n : nat) : nat :=
  match n with
  | O => O
  | S n' => (cost g s n' + length (raw g s n'))%nat
  end.

(** The farthest entry when round [n] begins. *)
Definition farAt (g : MazeGrid) (s : Position) (n : nat) : Maze.Entry :=
  match n with
  | O => Maze.mkEntry s 0
  | S n' => Maze.mkEntry (hd s (level g s n')) (Z.of_nat n')
  end.

End MazeSpec.

(** ** Movement *)

Module GameSpec.

Import Game.

(** A cell inside the grid that holds a path or the exit. *)
Definition walkableAt (grid : MazeGrid) (p : Position) : bool :=
  bool_decide (0 ≤ y p < rows grid ∧ 0 ≤ x p < cols grid ∧
               (cell grid (x p) (y p) = Some 1
                ∨ cell grid (x p) (y p) = Some 2)).

Definition isExit (grid : MazeGrid) (p : Position) : Prop :=
  cell grid (x p) (y p) = Some 2.

(** The cell [n] steps from [p] along [d]. *)
Definition ahead (d : Maze.Delta) (p : Position) (n : Z) : Position :=
  mkPosition (x p + n * Maze.dx d) (y p + n * Maze.dy d).

Definition fourNeighbors (p : Position) : list Position :=
  [mkPosition (x p) (y p - 1); mkPosition (x p) (y p + 1);
   mkPosition (x p - 1) (y p); mkPosition (x p + 1) (y p)].

(** A junction: three or more walkable 4-neighbours. *)
Definition junction (grid : MazeGrid) (p : Position) : Prop :=
  (3 ≤ length (filter (λ q, walkableAt grid q = true) (fourNeighbors p)))%nat.

(** A glide from [start] along [d] stops after [n >= 1] steps: the cells
    passed are walkable, none before the last is the exit or a junction, and
    the last is the exit, or a junction, or has no walkable cell after it. *)
Definition stopsAfter (grid : MazeGrid) (d : Maze.Delta) (start : Position)
    (n : Z) : Prop :=
  1 ≤ n ∧
  (∀ i, 1 ≤ i ≤ n → walkableAt grid (ahead d start i) = true) ∧
  (∀ i, 1 ≤ i < n → ¬ isExit grid (ahead d start i)
                     ∧ ¬ junction grid (ahead d start i)) ∧
  (isExit grid (ahead d start n) ∨ junction grid (ahead d start n)
   ∨ walkableAt grid (ahead d start (n + 1)) = false).

(** The in-grid cells that lie strictly ahead of [p] along a unit vector. *)
Definition room (grid : MazeGrid) (d : Maze.Delta) (p : Position) : Z :=
  if Maze.dx d =? 1 then cols grid - 1 - x p
  else if Maze.dx d =? -1 then x p
  else if Maze.dy d =? 1 then rows grid - 1 - y p
  else y p.

Definition unitVector (d : Maze.Delta) : Prop :=
  ∃ key, d = directionVectors key.

(** A corridor that ends at the exit, its only game and its only player. *)
Definition corridor : MazeGrid :=
  [[0; 0; 0; 0; 0]; [0; 1; 1; 1; 2]; [0; 0; 0; 0; 0]].

Definition corridorPlayer : PlayerGameState :=
  mkPlayerGameState "ann" "Ann" (mkPosition 1 1) None None.

Definition corridorGame : GameState :=
  mkGameState "0000"
    (mkMazeMetadata corridor 5 3 (mkPosition 1 1) (mkPosition 4 1))
    PLAYING {[ "ann" := corridorPlayer ]} (Some 0) None (Some 30000).

Definition corridorGames : Games := {[ "0000" := corridorGame ]}.

(** A move request: client, direction, time of arrival. *)
Record MoveRequest := mkMoveRequest {
  reqClientId : string;
  reqDirection : string;
  reqNow : Z
}.

(** The requests that reach the game store. *)
Inductive Op :=
| OpCreateGame (rnd : nat → nat) (k : nat) (lobbyCode : string) (size : Z)
    (players : list PlayerInfo) (now : Z)
| OpRestartGame (rnd : nat → nat) (k : nat) (lobbyCode : string) (size : Z)
    (players : list PlayerInfo) (now : Z)
| OpRemoveGame (lobbyCode : string)
| OpStartCountdown (lobbyCode : string) (countdownSeconds now : Z)
| OpBeginGame (lobbyCode : string) (now now' : Z)
| OpHandleMove (lobbyCode : string) (request : MoveRequest)
| OpMarkPlayerDisconnected (lobbyCode clientId : string) (now : Z)
| OpMarkPlayerReconnected (lobbyCode clientId : string) (now : Z)
| OpExpireOldGames (now : Z).

Section Run.

Variable speed : Z.

Definition move (games : Games) (lobbyCode : string) (request : MoveRequest)
  : Games * result GameError MoveResult :=
  handleMove speed games lobbyCode (reqClientId request)
    (reqDirection request) (reqNow request).

(** Successive move requests on one game: the final store and the outcomes. *)
Fixpoint moves (games : Games) (lobbyCode : string)
    (requests : list MoveRequest)
  : Games * list (result GameError MoveResult) :=
  match requests with
  | [] => (games, [])
  | request :: requests' =>
      let '(games1, outcome) := move games lobbyCode request in
      let '(games2, outcomes) := moves games1 lobbyCode requests' in
      (games2, outcome :: outcomes)
  end.

Definition apply (games : Games) (op : Op) : Games :=
  match op with
  | OpCreateGame rnd k lobbyCode size players now =>
      match createGame games lobbyCode size players now rnd k with
      | Some (games', _, _) => games'
      | None => games
      end
  | OpRestartGame rnd k lobbyCode size players now =>
      match restartGame games lobbyCode size players now rnd k with
      | Some (games', _, _) => games'
      | None => delete lobbyCode games
      end
  | OpRemoveGame lobbyCode => removeGame games lobbyCode
  | OpStartCountdown lobbyCode countdownSeconds now =>
      (startCountdown games lobbyCode countdownSeconds now).1
  | OpBeginGame lobbyCode now now' => (beginGame games lobbyCode now now').1
  | OpHandleMove lobbyCode request => (move games lobbyCode request).1
  | OpMarkPlayerDisconnected lobbyCode clientId now =>
      (markPlayerDisconnected games lobbyCode clientId now).1
  | OpMarkPlayerReconnected lobbyCode clientId now =>
      (markPlayerReconnected games lobbyCode clientId now).1
  | OpExpireOldGames now => expireOldGames games now
  end.

(** The store after a history of requests, from the empty store. *)
Definition run (ops : list Op) : Games := fold_left apply ops ∅.

End Run.

(** What holds of every game in the store: its grid has a row, and every
    player stands on a walkable cell of it. *)
Definition wfGame (game : GameState) : Prop :=
  grid (maze game) ≠ [] ∧
  ∀ cid player, players game !! cid = Some player →
    MazeSpec.walkable (grid (maze game)) (position player).

Definition wfGames (games : Games) : Prop :=
  ∀ code game, games !! code = Some game → wfGame game.

(** The history used as an example: a game of size 1 is created for two
    players and the countdown elapses; then one of them moves. *)
Definition playingHistory : list Op :=
  [OpCreateGame (λ n, n) 0 "0000" 1
     [mkPlayerInfo "ann" "Ann"; mkPlayerInfo "bob" "Bob"] 0;
   OpStartCountdown "0000" 5 10;
   OpBeginGame "0000" 5010 5010].

Definition playingGame : GameState :=
  mkGameState "0000"
    (mkMazeMetadata [[0; 0; 0]; [0; 1; 2]; [0; 0; 0]] 3 3
       (mkPosition 1 1) (mkPosition 2 1))
    PLAYING
    (initialPlayers (mkPosition 1 1)
       [mkPlayerInfo "ann" "Ann"; mkPlayerInfo "bob" "Bob"])
    (Some 5010) None (Some 35010).

Definition playingAnn : PlayerGameState :=
  mkPlayerGameState "ann" "Ann" (mkPosition 1 1) None None.

Definition demoHistory : list Op :=
  playingHistory ++ [OpHandleMove "0000" (mkMoveRequest "ann" "right" 6000)].

End GameSpec.

(** ** The rooms of a maze *)

Module LatticeSpec.

(** A room of a grid of side [2 * size + 1]: a cell inside the border with
    two odd coordinates.  [carveMaze] starts in the room (1,1) and moves
    from room to room, two cells at a time. *)
Definition room (size : Z) (p : Position) : Prop :=
  0 < x p < 2 * size ∧ 0 < y p < 2 * size ∧ x p mod 2 = 1 ∧ y p mod 2 = 1.

(** The room two cells away from [p] along [d]. *)
Definition beyond (p : Position) (d : Maze.Delta) : Position :=
  mkPosition (x p + Maze.dx d) (y p + Maze.dy d).

(** Every room next to [p] has been carved. *)
Definition closedAt (size : Z) (g : MazeGrid) (p : Position) : Prop :=
  ∀ d, d ∈ Maze.DIRECTIONS →
    0 < x (beyond p d) < 2 * size → 0 < y (beyond p d) < 2 * size →
    MazeSpec.walkable g (beyond p d).

(** The four cells around [p], in the order in which [neighbors] tries
    them: up, right, down, left. *)
Definition around (p : Position) : list Position :=
  [mkPosition (x p) (y p - 1); mkPosition (x p + 1) (y p);
   mkPosition (x p) (y p + 1); mkPosition (x p - 1) (y p)].

End LatticeSpec.

(** ** Games in the store *)

Module EngineSpec.

Import Game.

(** A maze returned by [generateMaze], for a size of at least 1. *)
Definition generated (m : MazeMetadata) : Prop :=
  ∃ size rnd k k', 1 ≤ size ∧ Maze.generateMaze size rnd k = Some (m, k').

(** What holds of every game of the store, besides [GameSpec.wfGame]. *)
Record soundGame (code : string) (game : GameState) : Prop := {
  sound_code : lobbyCode game = code;
  sound_maze : generated (maze game);
  sound_ids : ∀ cid player,
    players game !! cid = Some player → clientId player = cid;
  sound_finished : phase game = FINISHED →
    ∃ w player, winnerId game = Some w ∧ players game !! w = Some player ∧
                cell (grid (maze game)) (x (position player))
                  (y (position player)) = Some 2;
  sound_winner : ∀ w, winnerId game = Some w → is_Some (players game !! w);
  sound_waiting : phase game = WAITING →
    winnerId game = None ∧ startedAt game = None ∧
    ∀ cid player, players game !! cid = Some player →
      position player = start (maze game) ∧ targetPosition player = None
      ∧ movementEndsAt player = None;
  sound_window : is_Some (allowReconnectUntil game)
}.

Definition soundGames (games : Games) : Prop :=
  ∀ code game, games !! code = Some game → soundGame code game.

(** The requests that put a new game under [code]. *)
Definition creates (op : GameSpec.Op) (code : string) : Prop :=
  match op with
  | GameSpec.OpCreateGame _ _ c _ _ _ => c = code
  | GameSpec.OpRestartGame _ _ c _ _ _ => c = code
  | _ => False
  end.

(** The directions as [handleMove] recognises them. *)
Definition directionNames : list string := ["UP"; "DOWN"; "LEFT"; "RIGHT"].

(** The first bytes of the characters of the tables of [toUpperCase]. *)
Definition leadBytes : list nat := [195; 196; 197; 199; 225; 239]%nat.

(** A byte that [toUpperCase] writes as it is wherever it stands: it is no
    letter a-z and starts no entry of the tables. *)
Definition settled (n : nat) : Prop :=
  (n < 256)%nat ∧ ¬ (97 ≤ n ≤ 122)%nat ∧ n ∉ leadBytes.

(** What the proofs use of an entry of the tables, for a character of bytes
    [first :: others] and its upper case [upper]: the first byte is a lead
    byte; the others are outside ASCII and are not 202; the upper case starts
    with an ASCII byte or with 202, and its bytes are settled. *)
Definition entryOk (first : nat) (others upper : list nat) : Prop :=
  first ∈ leadBytes ∧
  Forall (λ n, 128 ≤ n ∧ n ≠ 202)%nat others ∧
  (∃ n, head upper = Some n ∧ (n < 128 ∨ n = 202)%nat) ∧
  Forall settled upper.

End EngineSpec.

(** ** Lobbies: codes, sizes and answers *)

Module LobbyShape.

Import Lobby.

(** What holds of every live lobby, besides [LobbySpec.wfLobby]: its code
    passes the check of the JOIN_LOBBY handler, and its maze size is one of
    the five sizes. *)
Record soundLobby (key : string) (l : LobbyState) : Prop := {
  shape_code : Handlers.validCode key = true;
  shape_size : selectedMazeSize l ∈ mazeSizeValues
}.

Definition soundLobbies (lobbies : Lobbies) : Prop :=
  ∀ key l, lobbies !! key = Some l → soundLobby key l.

(** The entry of a player after the client [clientId] answered
    [accepted]. *)
Definition answer (clientId : string) (accepted : bool) (p : LobbyPlayer)
  : LobbyPlayer :=
  if bool_decide (Lobby.clientId p = clientId)
  then setAcceptedGame p accepted else p.

(** The codes tried by [generateLobbyCode], attempt by attempt. *)
Definition attempt (rnd : nat → nat) (k : nat) (a : nat) : string :=
  randomDigits LOBBY_CODE_LENGTH rnd (k + a * LOBBY_CODE_LENGTH).

End LobbyShape.

(** ** The registry of players *)

Module PlayerSpec.

Import Player.

(** The requests that reach the registry. *)
Inductive Op :=
| OpUpsertPlayer (clientId name : string) (now : Z)
| OpMarkPlayerSeen (clientId : string) (now : Z)
| OpAssignLobby (clientId : string) (lobbyCode : option string)
| OpAssignGame (clientId : string) (gameCode : option string)
| OpMarkDisconnected (clientId : string) (now : Z)
| OpRemovePlayer (clientId : string)
| OpCleanupStalePlayers (maxAgeMs now : Z).

Definition apply (players : Players) (op : Op) : Players :=
  match op with
  | OpUpsertPlayer clientId name now =>
      (upsertPlayer players clientId name now).1
  | OpMarkPlayerSeen clientId now => markPlayerSeen players clientId now
  | OpAssignLobby clientId lobbyCode => assignLobby players clientId lobbyCode
  | OpAssignGame clientId gameCode => assignGame players clientId gameCode
  | OpMarkDisconnected clientId now => markDisconnected players clientId now
  | OpRemovePlayer clientId => removePlayer players clientId
  | OpCleanupStalePlayers maxAgeMs now =>
      cleanupStalePlayers players maxAgeMs now
  end.

(** The registry after a history of requests, from the empty registry. *)
Definition run (ops : list Op) : Players := fold_left apply ops [].

(** The keys of the registry are distinct, and every record is stored under
    its own client id. *)
Definition tidy (players : Players) : Prop :=
  NoDup (fst <$> players) ∧
  ∀ id player, (id, player) ∈ players → clientId player = id.

End PlayerSpec.

(** ** The server *)

Module ServerSpec.

Import Handlers.

(** The requests that reach the registry of sockets. *)
Inductive SocketOp :=
| OpAddSocket (socket : nat) (lobbyCode : string)
| OpRemoveSocket (socket : nat) (lobbyCode : option string).

Definition applySocket (lobbySockets : Sockets) (op : SocketOp) : Sockets :=
  match op with
  | OpAddSocket socket lobbyCode =>
      addSocketToLobby lobbySockets socket lobbyCode
  | OpRemoveSocket socket lobbyCode =>
      removeSocketFromLobby lobbySockets socket lobbyCode
  end.

Definition runSockets (ops : list SocketOp) : Sockets :=
  fold_left applySocket ops ∅.

(** The sockets registered for a lobby. *)
Definition socketsOf (lobbySockets : Sockets) (lobbyCode : string) : gset nat :=
  default ∅ (lobbySockets !! lobbyCode).

(** Successive firings of the timer of a lobby, each with the two readings
    of the clock that it makes if it begins the game. *)
Definition ticks (s : Stores) (lobbyCode : string) (times : list (Z * Z))
  : Stores :=
  fold_left (λ s time, countdownTick s lobbyCode time.1 time.2) times s.

(** The history used as an example: a lobby is created and joined, and its
    leader asks to start; and stores that hold nothing but its lobbies. *)
Definition startedHistory : list LobbySpec.Op :=
  LobbySpec.twoPlayerHistory
  ++ [LobbySpec.OpHandleStartGame (Some "0000") "ann"].

Definition startedLobby : Lobby.LobbyState :=
  Lobby.mkLobbyState "0000" "ann" 0
    [Lobby.mkLobbyPlayer "ann" "Ann" true;
     Lobby.mkLobbyPlayer "bob" "Bob" false]
    Lobby.TenByTen Lobby.STARTING.

Definition startedStores : Stores :=
  mkStores (LobbySpec.run startedHistory) ∅ [] ∅ ∅.

End ServerSpec.


(** * Properties *)

(** Linear integer arithmetic with division and remainder by constants. *)
Ltac zsolve := Z.div_mod_to_equations; lia.

(** ** Lobby manager *)

Section LobbyProperties.

Import Lobby LobbySpec.

#[local] Arguments findPlayer : simpl never.

Lemma findPlayer_Some id ps p :
  findPlayer id ps = Some p → p ∈ ps ∧ clientId p = id.
Proof.
  unfold findPlayer. intros H. apply find_some in H as [Hin Hb].
  apply bool_decide_eq_true in Hb. split; [by apply list_elem_of_In | done].
Qed.

Lemma findPlayer_None id ps :
  findPlayer id ps = None ↔ id ∉ clientId <$> ps.
Proof.
  unfold findPlayer. induction ps as [|p ps IH]; simpl.
  - split; [intros _ H; inversion H | done].
  - case_bool_decide as Hp.
    + split; [done | intros H; exfalso; apply H; subst; left].
    + rewrite IH, not_elem_of_cons. split; [by split | by intros []].
Qed.

Lemma findPlayer_is_Some id ps :
  is_Some (findPlayer id ps) ↔ id ∈ clientId <$> ps.
Proof.
  destruct (findPlayer id ps) eqn:E.
  - split; [intros _ | eauto]. apply findPlayer_Some in E as [Hin <-].
    by apply list_elem_of_fmap_2.
  - apply findPlayer_None in E. split; [intros [? ?]; done | done].
Qed.

(** C6 as stated fails: a member who joins their own full lobby again is
    refused with ALREADY_IN_LOBBY, not with LOBBY_FULL. *)
Lemma joinLobby_full_member_counterexample :
  let ann := mkLobbyPlayer "ann" "Ann" false in
  let bob := mkLobbyPlayer "bob" "Bob" false in
  let lobby := mkLobbyState "1234" "ann" 0 [ann; bob] TenByTen OPEN in
  let lobbies : Lobbies := {[ "1234" := lobby ]} in
  length (players lobby) = 2%nat ∧
  (joinLobby lobbies "1234" "ann" "Ann").2 = Err ALREADY_IN_LOBBY ∧
  (joinLobby lobbies "1234" "ann" "Ann").2 ≠ Err LOBBY_FULL.
Proof.
  cbv zeta. unfold joinLobby. rewrite lookup_singleton_eq. simpl.
  split; [done | split; [done | discriminate]].
Qed.

(** Every request keeps the live lobbies well formed. *)
Lemma wfLobbies_empty : wfLobbies ∅.
Proof. intros key l H. by rewrite lookup_empty in H. Qed.

Lemma wfLobbies_insert lobbies key l :
  wfLobbies lobbies → wfLobby key l → wfLobbies (<[key := l]> lobbies).
Proof.
  intros Hwf Hl key' l'. rewrite lookup_insert. case_decide.
  - intros [= <-]. by subst.
  - apply Hwf.
Qed.

Lemma wfLobby_same_members key l l' :
  wfLobby key l → code l' = code l → leaderId l' = leaderId l →
  clientId <$> players l' = clientId <$> players l →
  wfLobby key l'.
Proof.
  intros [Hk Hc Hne Hcap Hd Hlead] Hcode Hleader Hmem.
  assert (length (players l') = length (players l)) as Hlen.
  { by rewrite <- (length_fmap clientId (players l')), Hmem, length_fmap. }
  split.
  - done.
  - congruence.
  - intros E. rewrite E in Hlen. destruct (players l); [done | discriminate].
  - by rewrite Hlen.
  - unfold members. by rewrite Hmem.
  - unfold members. by rewrite Hmem, Hleader.
Qed.

Lemma acceptFirst_members id b ps :
  clientId <$> acceptFirst id b ps = clientId <$> ps.
Proof.
  induction ps as [|p ps IH]; csimpl; [done|].
  case_bool_decide; csimpl; [done | by rewrite IH].
Qed.

Lemma reset_members (ps : list LobbyPlayer) :
  clientId <$> ((λ player, setAcceptedGame player false) <$> ps)
  = clientId <$> ps.
Proof. rewrite <- list_fmap_compose. by apply list_fmap_ext. Qed.

Lemma randomDigits_nonempty n rnd k : randomDigits (S n) rnd k ≠ "".
Proof.
  change (randomDigits (S n) rnd k)
    with (digit (rnd k `mod` 10)%nat +:+ randomDigits n rnd (S k)).
  generalize (rnd k `mod` 10)%nat. intros d.
  by destruct d as [|[|[|[|[|[|[|[|[|]]]]]]]]].
Qed.

Lemma generateLobbyCodeFrom_nonempty n lobbies rnd k code :
  generateLobbyCodeFrom n lobbies rnd k = Some code → code ≠ "".
Proof.
  revert k. induction n as [|n IH]; intros k; [done|].
  change (generateLobbyCodeFrom (S n) lobbies rnd k)
    with (if bool_decide (lobbies !! randomDigits LOBBY_CODE_LENGTH rnd k = None)
          then Some (randomDigits LOBBY_CODE_LENGTH rnd k)
          else generateLobbyCodeFrom n lobbies rnd (k + LOBBY_CODE_LENGTH)%nat).
  case_bool_decide; [|apply IH]. intros Hcode Hempty.
  rewrite Hempty in Hcode. injection Hcode as Hcode.
  by apply (randomDigits_nonempty 3 rnd k).
Qed.

Lemma filter_members_leave (cid : string) (ps : list LobbyPlayer) :
  clientId <$> List.filter (λ p, negb (bool_decide (clientId p = cid))) ps
  = filter (λ id, id ≠ cid) (clientId <$> ps).
Proof.
  induction ps as [|p ps IH]; csimpl; [done|].
  rewrite filter_cons. case_bool_decide; csimpl.
  - rewrite decide_False by naive_solver. done.
  - rewrite decide_True by done. by rewrite IH.
Qed.

Lemma wfLobbies_resetAcceptances lobbies code :
  wfLobbies lobbies → wfLobbies (resetAcceptances lobbies code).1.
Proof.
  intros Hwf. unfold resetAcceptances.
  destruct (lobbies !! code) as [l|] eqn:E; simpl; [|done].
  apply wfLobbies_insert; [done|].
  eapply wfLobby_same_members; [by apply Hwf | done | done |].
  apply reset_members.
Qed.

Lemma wfLobbies_startGame lobbies code :
  wfLobbies lobbies → wfLobbies (startGame lobbies code).1.
Proof.
  intros Hwf. unfold startGame.
  destruct (lobbies !! code) as [l|] eqn:E; simpl; [|done].
  apply wfLobbies_insert; [done|].
  eapply wfLobby_same_members; [by apply Hwf | done..].
Qed.

Lemma wfLobbies_acceptLeader lobbies code :
  wfLobbies lobbies → wfLobbies (Server.acceptLeader lobbies code).
Proof.
  intros Hwf. unfold Server.acceptLeader.
  destruct (lobbies !! code) as [l|] eqn:E; [|done].
  destruct (findPlayer _ _); [|done].
  apply wfLobbies_insert; [done|].
  eapply wfLobby_same_members; [by apply Hwf | done | done |].
  apply acceptFirst_members.
Qed.

Lemma wfLobbies_leaveLobby lobbies code cid :
  wfLobbies lobbies → wfLobbies (leaveLobby lobbies code cid).1.
Proof.
  intros Hwf. unfold leaveLobby.
  destruct (lobbies !! code) as [l|] eqn:E; simpl; [|done].
  destruct (List.filter _ (players l)) as [|first rest] eqn:Hf; simpl.
  - intros key l'. rewrite lookup_delete. case_decide; [done | apply Hwf].
  - apply wfLobbies_insert; [done|].
    destruct (Hwf _ _ E) as [Hk Hc Hne Hcap Hd Hlead].
    assert (clientId <$> first :: rest
            = filter (λ id, id ≠ cid) (members l)) as Hmem.
    { rewrite <- Hf. apply filter_members_leave. }
    assert (NoDup (clientId <$> first :: rest)) as Hnd.
    { rewrite Hmem. by apply NoDup_filter. }
    assert (length (first :: rest) ≤ MAX_PLAYERS)%nat as Hlen.
    { rewrite <- Hf. etrans; [apply List.filter_length_le | done]. }
    destruct (findPlayer (leaderId l) (first :: rest)) eqn:Hfind.
    + split; simpl; try done.
      apply findPlayer_is_Some. eauto.
    + split; simpl; try done. unfold members. simpl. left.
Qed.

Lemma wfLobbies_apply lobbies op :
  wfLobbies lobbies → wfLobbies (apply lobbies op).
Proof.
  intros Hwf.
  destruct op as [rnd k lid lname now | c cid nm | c cid | c lid size
                 | c cid b | c | c | c | c | now | lc cid | c | c]; simpl.
  - unfold createLobby, generateLobbyCode.
    destruct (generateLobbyCodeFrom _ _ _ _) as [c|] eqn:E; simpl; [|done].
    apply wfLobbies_insert; [done|].
    split; simpl; try done.
    + by eapply generateLobbyCodeFrom_nonempty.
    + unfold MAX_PLAYERS. lia.
    + unfold members. simpl. apply NoDup_singleton.
    + unfold members. simpl. left.
  - unfold joinLobby.
    destruct (lobbies !! c) as [l|] eqn:E; simpl; [|done].
    destruct (findPlayer cid (players l)) eqn:Hfind; simpl; [done|].
    case_bool_decide as Hfull; simpl; [done|].
    apply wfLobbies_insert; [done|].
    destruct (Hwf _ _ E) as [Hk Hc Hne Hcap Hd Hlead].
    apply findPlayer_None in Hfind.
    split; simpl; try done.
    + by destruct (players l).
    + rewrite length_app. simpl. unfold MAX_PLAYERS in *. lia.
    + unfold members. simpl. rewrite fmap_app. simpl.
      apply NoDup_app. split; [done|]. split; [|apply NoDup_singleton].
      intros id Hid Hin. apply list_elem_of_singleton in Hin. by subst.
    + unfold members. simpl. rewrite fmap_app. apply elem_of_app. by left.
  - by apply wfLobbies_leaveLobby.
  - unfold setMazeSize.
    destruct (lobbies !! c) as [l|] eqn:E; simpl; [|done].
    case_bool_decide; simpl; [|done].
    case_bool_decide; simpl; [|done].
    apply wfLobbies_insert; [done|].
    eapply wfLobby_same_members; [by apply Hwf | done..].
  - unfold markAcceptGame.
    destruct (lobbies !! c) as [l|] eqn:E; simpl; [|done].
    destruct (findPlayer _ _); simpl; [|done].
    apply wfLobbies_insert; [done|].
    eapply wfLobby_same_members; [by apply Hwf | done | done |].
    apply acceptFirst_members.
  - by apply wfLobbies_resetAcceptances.
  - by apply wfLobbies_startGame.
  - unfold finishGame.
    destruct (lobbies !! c) as [l|] eqn:E; simpl; [|done].
    apply wfLobbies_insert; [done|].
    eapply wfLobby_same_members; [by apply Hwf | done..].
  - unfold endGame.
    destruct (lobbies !! c) as [l|] eqn:E; simpl; [|done].
    apply wfLobbies_resetAcceptances, wfLobbies_insert; [done|].
    eapply wfLobby_same_members; [by apply Hwf | done..].
  - unfold cleanupStaleLobbies. intros key l Hl.
    apply map_lookup_filter_Some in Hl as [Hl _]. by apply Hwf.
  - unfold Server.handleStartGame.
    destruct lc as [lc|]; simpl; [|done].
    case_bool_decide; [done|].
    unfold getLobby. destruct (lobbies !! lc) as [l|] eqn:E; simpl; [|done].
    case_bool_decide; simpl; [|done].
    case_bool_decide; simpl; [done|].
    pose proof (wfLobbies_startGame lobbies (code l) Hwf) as Hs.
    destruct (startGame lobbies (code l)) as [lobbies1 [?|?]]; simpl in *;
      [|done].
    by apply wfLobbies_acceptLeader, wfLobbies_resetAcceptances.
  - unfold Server.openLobby.
    destruct (lobbies !! c) as [l|] eqn:E; [|done].
    apply wfLobbies_insert; [done|].
    eapply wfLobby_same_members; [by apply Hwf | done..].
  - by apply wfLobbies_acceptLeader.
Qed.

Lemma wfLobbies_run ops : wfLobbies (run ops).
Proof.
  unfold run. generalize wfLobbies_empty. generalize (∅ : Lobbies).
  induction ops as [|op ops IH]; intros s Hs; simpl; [done|].
  by apply IH, wfLobbies_apply.
Qed.

(** C6 (amended): in every store reached by a history of requests,
    [joinLobby] fails with LOBBY_NOT_FOUND when the code is not a live lobby,
    with ALREADY_IN_LOBBY when the client is already a member, and with
    LOBBY_FULL when the lobby has 2 members none of which is the client; so
    joining a full lobby always fails and leaves the store, and hence the
    player list of the lobby, as it was.  A successful join appends the
    player, with [acceptedGame = false], and the status is OPEN afterwards. *)
Theorem joinLobby_outcomes (ops : list Op) (code clientId name : string) :
  (run ops !! code = None →
     joinLobby (run ops) code clientId name = (run ops, Err LOBBY_NOT_FOUND)) ∧
  (∀ lobby, run ops !! code = Some lobby →
     (clientId ∈ members lobby →
        joinLobby (run ops) code clientId name
          = (run ops, Err ALREADY_IN_LOBBY)) ∧
     (clientId ∉ members lobby → length (players lobby) = MAX_PLAYERS →
        joinLobby (run ops) code clientId name = (run ops, Err LOBBY_FULL)) ∧
     (length (players lobby) = MAX_PLAYERS →
        ∃ e, joinLobby (run ops) code clientId name = (run ops, Err e) ∧
             (e = ALREADY_IN_LOBBY ∨ e = LOBBY_FULL)) ∧
     (clientId ∉ members lobby → (length (players lobby) < MAX_PLAYERS)%nat →
        ∃ lobby',
          joinLobby (run ops) code clientId name
            = (<[code := lobby']> (run ops), Ok lobby') ∧
          players lobby' = players lobby ++ [mkLobbyPlayer clientId name false] ∧
          leaderId lobby' = leaderId lobby ∧
          status lobby' = OPEN)).
Proof.
  split.
  - intros Hnone. unfold joinLobby. by rewrite Hnone.
  - intros lobby Hl. unfold joinLobby. rewrite Hl.
    destruct (wfLobbies_run ops code lobby Hl) as [_ _ Hne _ _ _].
    destruct (findPlayer clientId (players lobby)) as [p|] eqn:Hfind.
    + assert (clientId ∈ members lobby) as Hmem
        by (apply findPlayer_is_Some; eauto).
      repeat split; try done. eauto.
    + apply findPlayer_None in Hfind. fold (members lobby) in Hfind.
      case_bool_decide as Hfull.
      * repeat split; try done. { eauto. } intros _ ?. lia.
      * split; [done|]. split; [intros _ ?; lia|]. split; [intros ?; lia|].
        intros _ _. eexists. split; [reflexivity|]. simpl.
        split; [done|]. split; [done|].
        rewrite length_app. simpl.
        destruct (players lobby) as [|a [|b ps]]; simpl in *; [done|done|].
        unfold MAX_PLAYERS in *. lia.
Qed.

(** C7: in every store reached by a history of requests, the leader of a live
    lobby is one of its members.  When a client leaves and members remain,
    the lobby stays, a leader who left is replaced by the first remaining
    member, and another leader is kept; in a lobby of two, the one who stays
    leads after the leader left. *)
Theorem leader_is_member (ops : list Op) (key : string) (l : LobbyState) :
  run ops !! key = Some l →
  leaderId l ∈ members l ∧
  (∀ cid first rest,
     List.filter (λ p, negb (bool_decide (clientId p = cid))) (players l)
       = first :: rest →
     ∃ l', leaveLobby (run ops) key cid = (<[key := l']> (run ops), Some l') ∧
           players l' = first :: rest ∧
           leaderId l' ∈ members l' ∧
           (cid = leaderId l → leaderId l' = clientId first) ∧
           (cid ≠ leaderId l → leaderId l' = leaderId l)) ∧
  (∀ a b, players l = [a; b] →
     (leaveLobby (run ops) key (clientId a)).2
       = Some (mkLobbyState (code l)
                 (if bool_decide (leaderId l = clientId a)
                  then clientId b else leaderId l)
                 (createdAt l) [b] (selectedMazeSize l) OPEN) ∧
     (leaveLobby (run ops) key (clientId b)).2
       = Some (mkLobbyState (code l)
                 (if bool_decide (leaderId l = clientId b)
                  then clientId a else leaderId l)
                 (createdAt l) [a] (selectedMazeSize l) OPEN)).
Proof.
  intros Hl.
  destruct (wfLobbies_run ops key l Hl) as [Hk Hc Hne Hcap Hd Hlead].
  assert (∀ cid first rest,
     List.filter (λ p, negb (bool_decide (clientId p = cid))) (players l)
       = first :: rest →
     ∃ l', leaveLobby (run ops) key cid = (<[key := l']> (run ops), Some l') ∧
           players l' = first :: rest ∧
           leaderId l' ∈ members l' ∧
           (cid = leaderId l → leaderId l' = clientId first) ∧
           (cid ≠ leaderId l → leaderId l' = leaderId l) ∧
           l' = mkLobbyState (code l)
                  (if bool_decide (leaderId l = cid)
                   then clientId first else leaderId l)
                  (createdAt l) (first :: rest) (selectedMazeSize l) OPEN)
    as Hleave.
  { intros cid first rest Hf. unfold leaveLobby. rewrite Hl. simpl.
    rewrite Hf.
    assert (clientId <$> first :: rest
            = filter (λ id, id ≠ cid) (members l)) as Hmem.
    { rewrite <- Hf. apply filter_members_leave. }
    destruct (findPlayer (leaderId l) (first :: rest)) eqn:Hfind.
    - assert (leaderId l ∈ clientId <$> first :: rest) as Hin
        by (apply findPlayer_is_Some; eauto).
      assert (leaderId l ≠ cid) as Hneq.
      { rewrite Hmem in Hin. by apply list_elem_of_filter in Hin as [? _]. }
      eexists. split; [reflexivity|]. simpl.
      rewrite bool_decide_eq_false_2 by done.
      repeat split; try done; try (by intros ->).
    - apply findPlayer_None in Hfind.
      assert (leaderId l = cid) as Heq.
      { destruct (decide (leaderId l = cid)) as [|Hneq]; [done|].
        exfalso. apply Hfind. rewrite Hmem. by apply list_elem_of_filter. }
      eexists. split; [reflexivity|]. simpl.
      rewrite bool_decide_eq_true_2 by done.
      repeat split; try done; try (by intros Hneq; subst).
      unfold members. simpl. left. }
  split; [done|]. split.
  - intros cid first rest Hf.
    destruct (Hleave cid first rest Hf) as (l' & ? & ? & ? & ? & ? & ?).
    eauto 10.
  - intros a b Hab. unfold members in Hd. rewrite Hab in Hd.
    apply NoDup_cons in Hd as [Hna _].
    apply not_elem_of_cons in Hna as [Hna _].
    split.
    + destruct (Hleave (clientId a) b []) as (l' & -> & _ & _ & _ & _ & ->);
        [|done].
      rewrite Hab. simpl.
      rewrite bool_decide_eq_true_2 by done. simpl.
      rewrite bool_decide_eq_false_2 by done. done.
    + destruct (Hleave (clientId b) a []) as (l' & -> & _ & _ & _ & _ & ->);
        [|done].
      rewrite Hab. simpl.
      rewrite bool_decide_eq_false_2 by done. simpl.
      rewrite bool_decide_eq_true_2 by done. done.
Qed.

Lemma leader_is_member_witness :
  run twoPlayerHistory !! "0000" = Some twoPlayerLobby ∧
  leaderId twoPlayerLobby ∈ members twoPlayerLobby.
Proof.
  split; [vm_compute; reflexivity|].
  apply (leader_is_member twoPlayerHistory "0000" twoPlayerLobby).
  vm_compute. reflexivity.
Defined.

Lemma acceptFirst_reset_distinct id (ps : list LobbyPlayer) :
  NoDup (clientId <$> ps) →
  acceptFirst id true ((λ player, setAcceptedGame player false) <$> ps)
  = (λ p, mkLobbyPlayer (clientId p) (name p) (bool_decide (clientId p = id)))
      <$> ps.
Proof.
  induction ps as [|p ps IH]; csimpl; [done|].
  intros [Hp Hps]%NoDup_cons. case_bool_decide as Hid; csimpl.
  - unfold setAcceptedGame at 1. simpl. f_equal.
    apply list_fmap_ext. intros i q Hq. unfold setAcceptedGame.
    rewrite bool_decide_eq_false_2; [done|].
    intros Hqid. apply Hp. rewrite Hid, <- Hqid.
    apply list_elem_of_fmap_2. by eapply list_elem_of_lookup_2.
  - rewrite IH by done. done.
Qed.





End LobbyProperties.

(** ** Game engine: movement *)

Section GameProperties.

Import Game GameSpec.

Lemma isWalkable_true v :
  isWalkable v = true ↔ v = Some 1 ∨ v = Some 2.
Proof.
  unfold isWalkable. destruct v as [v|].
  - rewrite orb_true_iff, !Z.eqb_eq. split.
    + intros [->| ->]; eauto.
    + intros [[= ->]|[= ->]]; eauto.
  - split; [done | intros [|]; done].
Qed.

(** The three tests of the source on a cell are [walkableAt]. *)
Lemma walkableAt_tests grid p :
  walkableAt grid p =
  negb ((y p <? 0) || (y p >=? rows grid)) &&
  negb ((x p <? 0) || (x p >=? cols grid)) &&
  isWalkable (cell grid (x p) (y p)).
Proof.
  unfold walkableAt.
  destruct (isWalkable (cell grid (x p) (y p))) eqn:Hw.
  - apply isWalkable_true in Hw.
    destruct (y p <? 0) eqn:E1, (y p >=? rows grid) eqn:E2,
             (x p <? 0) eqn:E3, (x p >=? cols grid) eqn:E4; simpl;
      try (apply bool_decide_eq_false_2; lia).
    apply bool_decide_eq_true_2. split; [lia|]. split; [lia|done].
  - rewrite andb_false_r. apply bool_decide_eq_false_2.
    intros (_ & _ & H). apply isWalkable_true in H. congruence.
Qed.

Lemma countOpenNeighbors_filter grid p :
  countOpenNeighbors grid p =
  Z.of_nat (length (filter (λ q, walkableAt grid q = true) (fourNeighbors p))).
Proof.
  assert (∀ q count,
    (if (y q <? 0) || (y q >=? rows grid) then count
     else if (x q <? 0) || (x q >=? cols grid) then count
     else if isWalkable (cell grid (x q) (y q)) then count + 1
     else count) = count + (if walkableAt grid q then 1 else 0)) as Hstep.
  { intros q count. rewrite walkableAt_tests.
    destruct ((y q <? 0) || (y q >=? rows grid)); simpl; [lia|].
    destruct ((x q <? 0) || (x q >=? cols grid)); simpl; [lia|].
    destruct (isWalkable _); lia. }
  unfold countOpenNeighbors, directionKeys, fourNeighbors. simpl.
  rewrite (Hstep (mkPosition (x p + 0) (y p + -1))).
  rewrite (Hstep (mkPosition (x p + 0) (y p + 1))).
  rewrite (Hstep (mkPosition (x p + -1) (y p + 0))).
  rewrite (Hstep (mkPosition (x p + 1) (y p + 0))).
  replace (x p + 0) with (x p) by lia. replace (y p + 0) with (y p) by lia.
  replace (y p + -1) with (y p - 1) by lia.
  replace (x p + -1) with (x p - 1) by lia.
  rewrite !filter_cons, filter_nil.
  destruct (walkableAt grid (mkPosition (x p) (y p - 1))),
           (walkableAt grid (mkPosition (x p) (y p + 1))),
           (walkableAt grid (mkPosition (x p - 1) (y p))),
           (walkableAt grid (mkPosition (x p + 1) (y p)));
    repeat (rewrite decide_True by done);
    repeat (rewrite decide_False by done); simpl; lia.
Qed.

Lemma junction_count grid p :
  junction grid p ↔ 3 ≤ countOpenNeighbors grid p.
Proof. unfold junction. rewrite countOpenNeighbors_filter. lia. Qed.

Lemma ahead_0 d p : ahead d p 0 = p.
Proof. destruct p. unfold ahead. simpl. f_equal; lia. Qed.

Lemma ahead_ahead d p n m : ahead d (ahead d p n) m = ahead d p (n + m).
Proof. unfold ahead. simpl. f_equal; lia. Qed.

(** What the loop computes.  Its iteration bound never cuts a glide short:
    the loop is entered with at least as many iterations left as there are
    cells ahead. *)
Lemma glide_spec fuel grid d current steps :
  unitVector d →
  (walkableAt grid (ahead d current 1) = true →
   room grid d current ≤ Z.of_nat fuel) →
  ∃ k, 0 ≤ k ∧
    glide fuel grid d current steps = (ahead d current k, steps + k) ∧
    (∀ i, 1 ≤ i ≤ k → walkableAt grid (ahead d current i) = true) ∧
    (∀ i, 1 ≤ i < k → ¬ isExit grid (ahead d current i)
                       ∧ ¬ junction grid (ahead d current i)) ∧
    (k = 0 → walkableAt grid (ahead d current 1) = false) ∧
    (1 ≤ k → isExit grid (ahead d current k) ∨ junction grid (ahead d current k)
             ∨ walkableAt grid (ahead d current (k + 1)) = false).
Proof.
  intros Hd. revert current steps.
  induction fuel as [|fuel IH]; intros current steps Hroom.
  - exists 0. simpl. rewrite ahead_0, Z.add_0_r.
    split; [lia|]. split; [done|]. split; [intros; lia|].
    split; [intros; lia|]. split; [|intros; lia].
    intros _. destruct (walkableAt grid (ahead d current 1)) eqn:Hw; [|done].
    exfalso. specialize (Hroom eq_refl).
    unfold walkableAt in Hw. apply bool_decide_eq_true in Hw.
    destruct Hw as (Hy & Hx & _). destruct Hd as [[] ->];
      unfold room, ahead in *; simpl in *; lia.
  - simpl.
    set (next := mkPosition (x current + Maze.dx d) (y current + Maze.dy d)).
    assert (ahead d current 1 = next) as Hnext.
    { unfold ahead, next. f_equal; lia. }
    pose proof (walkableAt_tests grid next) as Hw. simpl in Hw.
    destruct (walkableAt grid next) eqn:Hwn.
    + symmetry in Hw. apply andb_true_iff in Hw as [Hw Hw3].
      apply andb_true_iff in Hw as [Hw1 Hw2].
      apply negb_true_iff in Hw1, Hw2. rewrite Hw1, Hw2, Hw3. simpl.
      destruct (IH next (steps + 1)) as (k & Hk0 & Hg & Hwalk & Hmid & Hzero & Hstop).
      { intros Hw'. rewrite Hnext, Hwn in Hroom. specialize (Hroom eq_refl).
        unfold walkableAt in Hwn. apply bool_decide_eq_true in Hwn.
        destruct Hwn as (Hy & Hx & _). destruct Hd as [[] ->];
          unfold room, next in *; simpl in *; lia. }
      assert (∀ i, ahead d next i = ahead d current (1 + i)) as Hshift.
      { intros i. rewrite <- Hnext. apply ahead_ahead. }
      case_bool_decide as Hexit.
      * exists 1. rewrite Hnext. split; [lia|]. split; [done|].
        split. { intros i Hi. by replace i with 1 by lia; rewrite Hnext. }
        split; [intros; lia|]. split; [intros; lia|].
        intros _. by left.
      * destruct (countOpenNeighbors grid next >=? 3) eqn:Hj.
        -- exists 1. rewrite Hnext. split; [lia|]. split; [done|].
           split. { intros i Hi. by replace i with 1 by lia; rewrite Hnext. }
           split; [intros; lia|]. split; [intros; lia|].
           intros _. right. left. apply junction_count. lia.
        -- exists (1 + k). split; [lia|].
           split. { rewrite Hg, Hshift. f_equal. lia. }
           split.
           { intros i Hi. destruct (decide (i = 1)) as [->|].
             - by rewrite Hnext.
             - replace i with (1 + (i - 1)) by lia. rewrite <- Hshift.
               apply Hwalk. lia. }
           split.
           { intros i Hi. destruct (decide (i = 1)) as [->|].
             - rewrite Hnext. split; [done|].
               rewrite junction_count. lia.
             - replace i with (1 + (i - 1)) by lia. rewrite <- Hshift.
               apply Hmid. lia. }
           split; [intros; lia|].
           intros _. destruct (decide (k = 0)) as [->|].
           ++ right. right. replace (1 + 0 + 1) with (1 + 1) by lia.
              rewrite <- Hshift. by apply Hzero.
           ++ replace (1 + k + 1) with (1 + (k + 1)) by lia.
              rewrite <- !Hshift. apply Hstop. lia.
    + exists 0. rewrite ahead_0, Z.add_0_r, Hnext.
      split; [lia|]. split.
      { symmetry in Hw.
        destruct ((y current + Maze.dy d <? 0)
                  || (y current + Maze.dy d >=? rows grid)); [done|].
        destruct ((x current + Maze.dx d <? 0)
                  || (x current + Maze.dx d >=? cols grid)); [done|].
        simpl in Hw. by rewrite Hw. }
      split; [intros; lia|]. split; [intros; lia|].
      split; [done | intros; lia].
Qed.

Lemma stopsAfter_unique grid d start n m :
  stopsAfter grid d start n → stopsAfter grid d start m → n = m.
Proof.
  assert (∀ n m, stopsAfter grid d start n → stopsAfter grid d start m →
                 ¬ n < m) as Hlt.
  { clear n m. intros n m (Hn & _ & _ & Hstop) (_ & Hwalk & Hmid & _) Hnm.
    destruct (Hmid n) as [Hne Hnj]; [lia|].
    destruct Hstop as [?|[?|Hw]]; [done|done|].
    rewrite Hwalk in Hw by lia. done. }
  intros Hn Hm. pose proof (Hlt _ _ Hn Hm). pose proof (Hlt _ _ Hm Hn). lia.
Qed.

(** The outcome of a move in a game whose grid has a row. *)
Lemma glide_outcome (speed : Z) (games : Games) (code : string)
    (game : GameState) (cid : string) (player : PlayerGameState)
    (direction : string) (key : Direction) (now : Z) :
  games !! code = Some game →
  phase game = PLAYING →
  players game !! cid = Some player →
  ownDirection (toUpperCase direction) = Some key →
  grid (maze game) ≠ [] →
  let g := grid (maze game) in
  let d := directionVectors key in
  let start := position player in
  (walkableAt g (ahead d start 1) = true →
     ∃ n game' player',
       stopsAfter g d start n ∧
       (∀ m, stopsAfter g d start m → m = n) ∧
       handleMove speed games code cid direction now
         = (<[code := game']> games,
            Ok (mkMoveResult (ahead d start n) (n * speed))) ∧
       players game' !! cid = Some player' ∧
       position player' = ahead d start n ∧
       targetPosition player' = Some (ahead d start n) ∧
       movementEndsAt player' = Some (now + n * speed)) ∧
  (walkableAt g (ahead d start 1) = false →
     handleMove speed games code cid direction now = (games, Err INVALID_MOVE)).
Proof.
  intros Hgame Hphase Hplayer Hkey Hgrid g d start.
  destruct (glide_spec (Z.to_nat (rows g * cols g)) g d start 0)
    as (k & Hk0 & Hg & Hwalk & Hmid & Hzero & Hstop).
  { by exists key. }
  { intros Hw. unfold walkableAt in Hw. apply bool_decide_eq_true in Hw.
    destruct Hw as (Hy & Hx & _). subst d.
    destruct key; unfold room, ahead in *; simpl in *; nia. }
  unfold handleMove. rewrite Hgame, Hphase, Hplayer, Hkey. simpl.
  unfold moveToNextJunction. fold g d start.
  destruct g as [|row g'] eqn:Eg; [done|]. rewrite <- Eg in *.
  rewrite Z.add_0_l in Hg. rewrite Hg. simpl. split.
  - intros Hw. assert (1 ≤ k) as Hk1.
    { destruct (decide (k = 0)) as [->|]; [|lia].
      rewrite Hzero in Hw; done. }
    rewrite (proj2 (Z.eqb_neq k 0)) by lia.
    assert (stopsAfter g d start k) as Hs by (split; auto).
    do 3 eexists. split; [exact Hs|]. split.
    { intros m Hm. eapply stopsAfter_unique; eauto. }
    split; [reflexivity|]. simpl. rewrite lookup_insert_eq. done.
  - intros Hw. destruct (decide (k = 0)) as [->|Hk]; [done|].
    rewrite Hwalk in Hw by lia. done.
Qed.

(** A failed move leaves the store as it was, whatever the time. *)
Lemma handleMove_error speed games code cid direction now e :
  (handleMove speed games code cid direction now).2 = Err e →
  ∀ now', handleMove speed games code cid direction now' = (games, Err e).
Proof.
  unfold handleMove. intros H now'.
  destruct (games !! code) as [game|]; simpl in *; [|congruence].
  destruct (negb (bool_decide (phase game = PLAYING))); simpl in *;
    [congruence|].
  destruct (players game !! cid) as [player|]; simpl in *; [|congruence].
  destruct (ownDirection (toUpperCase direction)) as [key|]; simpl in *;
    [|congruence].
  destruct (moveToNextJunction _ _ _) as [[p steps]|e']; simpl in *;
    congruence.
Qed.

(** C2: a successful move that stops on the exit cell (the cell that holds 2)
    puts the game in phase FINISHED with the mover as winner; and in a game
    in phase FINISHED every further move request fails with GAME_NOT_READY
    and changes nothing. *)
Theorem exit_finishes_game (speed : Z) (games : Games) (code : string)
    (game : GameState) :
  games !! code = Some game →
  (∀ cid direction now games' r,
     handleMove speed games code cid direction now = (games', Ok r) →
     isExit (grid (maze game)) (resultPosition r) →
     ∃ game', games' !! code = Some game' ∧
              phase game' = FINISHED ∧ winnerId game' = Some cid ∧
              maze game' = maze game) ∧
  (phase game = FINISHED →
   ∀ requests,
     moves speed games code requests
       = (games, replicate (length requests) (Err GAME_NOT_READY))).
Proof.
  intros Hgame. split.
  - intros cid direction now games' r. unfold handleMove. rewrite Hgame.
    destruct (negb (bool_decide (phase game = PLAYING))); [done|].
    destruct (players game !! cid) as [player|]; [|done].
    destruct (ownDirection (toUpperCase direction)) as [key|]; [|done].
    destruct (moveToNextJunction _ _ _) as [[p steps]|e']; [|done].
    intros [= <- <-] Hexit. simpl in Hexit. unfold isExit in Hexit.
    rewrite bool_decide_eq_true_2 by done.
    eexists. rewrite lookup_insert_eq. split; [reflexivity|]. done.
  - intros Hphase requests. induction requests as [|req requests IH]; [done|].
    simpl. unfold move at 1, handleMove. rewrite Hgame, Hphase. simpl.
    by rewrite IH.
Qed.

Lemma exit_finishes_game_witness :
  ∃ game', (handleMove 50 corridorGames "0000" "ann" "right" 1000).1 !! "0000"
           = Some game' ∧
           phase game' = FINISHED ∧ winnerId game' = Some "ann".
Proof.
  destruct (exit_finishes_game 50 corridorGames "0000" corridorGame) as [H _].
  - reflexivity.
  - destruct (H "ann" "right" 1000
                (handleMove 50 corridorGames "0000" "ann" "right" 1000).1
                (mkMoveResult (mkPosition 4 1) 150)) as (game' & H1 & H2).
    + vm_compute. reflexivity.
    + reflexivity.
    + exists game'. split; [exact H1|]. split; [apply H2 | apply H2].
Defined.

(** C3: a move request that raises an error leaves the store of games
    untouched, and with it the position, target, arrival time, phase and
    winner of every game; asked again at any later time from that state, the
    same request fails with the same error, so repeating an invalid direction
    always fails with INVALID_MOVE and never moves the player. *)
Theorem handleMove_atomic (speed : Z) (games : Games)
    (code cid direction : string) (now : Z) (e : GameError) :
  (handleMove speed games code cid direction now).2 = Err e →
  (handleMove speed games code cid direction now).1 = games ∧
  ∀ times : list Z,
    moves speed games code ((λ t, mkMoveRequest cid direction t) <$> times)
      = (games, replicate (length times) (Err e)).
Proof.
  intros H. pose proof (handleMove_error _ _ _ _ _ _ _ H) as Herr.
  split; [by rewrite Herr|].
  intros times. induction times as [|t times IH]; [done|].
  csimpl. unfold move at 1. simpl. rewrite Herr, IH. done.
Qed.

Lemma handleMove_atomic_witness :
  (handleMove 50 corridorGames "0000" "ann" "up" 1000).1 = corridorGames ∧
  moves 50 corridorGames "0000"
    [mkMoveRequest "ann" "up" 1; mkMoveRequest "ann" "up" 2]
    = (corridorGames, [Err INVALID_MOVE; Err INVALID_MOVE]).
Proof.
  destruct (handleMove_atomic 50 corridorGames "0000" "ann" "up" 1000
              INVALID_MOVE) as [H1 H2].
  - vm_compute. reflexivity.
  - split; [exact H1 | exact (H2 [1; 2])].
Defined.

End GameProperties.

(** ** Simple paths and trees of cells *)

Section Paths.

Import MazeSpec.

Lemma adjacent_sym p q : adjacent p q → adjacent q p.
Proof. unfold adjacent. lia. Qed.

Lemma adjacent_irrefl p : ¬ adjacent p p.
Proof. unfold adjacent. lia. Qed.

Lemma pathIn_first P a b l : pathIn P a b l → ∃ l', l = a :: l'.
Proof. destruct 1; eauto. Qed.

Lemma pathIn_first_in P a b l : pathIn P a b l → a ∈ l.
Proof. intros [l' ->]%pathIn_first. left. Qed.

Lemma pathIn_last_in P a b l : pathIn P a b l → b ∈ l.
Proof. induction 1; [left | by right]. Qed.

Lemma pathIn_all P a b l : pathIn P a b l → ∀ q, q ∈ l → P q.
Proof.
  induction 1 as [a Ha | a c b l Ha Hadj Hnot Hp IH]; intros q Hq.
  - apply list_elem_of_singleton in Hq. by subst.
  - apply elem_of_cons in Hq as [->|Hq]; [done | by apply IH].
Qed.

Lemma pathIn_first_P P a b l : pathIn P a b l → P a.
Proof. destruct 1; done. Qed.

Lemma pathIn_restrict (P Q : Position → Prop) a b l :
  pathIn Q a b l → (∀ q, q ∈ l → P q) → pathIn P a b l.
Proof.
  induction 1 as [a Ha | a c b l Ha Hadj Hnot Hp IH]; intros Hall.
  - constructor. apply Hall. left.
  - apply pathIn_step with c; [apply Hall; left | done | done |].
    apply IH. intros q Hq. apply Hall. by right.
Qed.

Lemma pathIn_mono (P Q : Position → Prop) a b l :
  (∀ q, P q → Q q) → pathIn P a b l → pathIn Q a b l.
Proof.
  intros HPQ Hp. eapply pathIn_restrict; [exact Hp|].
  intros q Hq. apply HPQ. by eapply pathIn_all.
Qed.

Lemma pathIn_loop P a l : pathIn P a a l → l = [a].
Proof.
  inversion 1 as [|? c ? l' Ha Hadj Hnot Hp]; subst; [done|].
  exfalso. apply Hnot. by eapply pathIn_last_in.
Qed.

Lemma pathIn_snoc P a b c l :
  pathIn P a b l → P c → adjacent b c → c ∉ l → pathIn P a c (l ++ [c]).
Proof.
  induction 1 as [a Ha | a c' b l Ha Hadj Hnot Hp IH]; intros Hc Hbc Hcl.
  - simpl. apply pathIn_step with c; [done | done | | by constructor].
    intros Hin. apply list_elem_of_singleton in Hin. subst.
    apply Hcl. left.
  - simpl. apply not_elem_of_cons in Hcl as [Hca Hcl].
    apply pathIn_step with c'; [done | done | | by apply IH].
    rewrite elem_of_app, list_elem_of_singleton. intros [?|?]; [done|].
    by subst.
Qed.

Lemma pathIn_rev P a b l : pathIn P a b l → pathIn P b a (rev l).
Proof.
  induction 1 as [a Ha | a c b l Ha Hadj Hnot Hp IH]; simpl.
  - by constructor.
  - eapply pathIn_snoc; [exact IH | done | by apply adjacent_sym |].
    by rewrite list_elem_of_In, <- in_rev, <- list_elem_of_In.
Qed.

Section Leaf.

(** [Q] is [P] with one more cell [leaf], whose only neighbour in [P] is
    [c]. *)
Variables (P Q : Position → Prop) (leaf c : Position).
Hypothesis HQ : ∀ q, Q q ↔ q = leaf ∨ P q.
Hypothesis Hleaf : ¬ P leaf.
Hypothesis Hc : P c.
Hypothesis Hadj : adjacent leaf c.
Hypothesis Honly : ∀ q, P q → adjacent leaf q → q = c.

Lemma leaf_not_inside a b l :
  pathIn Q a b l → a ≠ leaf → b ≠ leaf → leaf ∉ l.
Proof.
  induction 1 as [a Ha | a c' b l Ha Hac Hnot Hp IH]; intros Hal Hbl Hin.
  - apply list_elem_of_singleton in Hin. by subst.
  - apply elem_of_cons in Hin as [?|Hin]; [by subst|].
    destruct (decide (c' = leaf)) as [->|Hc'].
    + inversion Hp as [|? c2 ? l2 _ Hlc2 Hnot2 Hp2]; subst; [done|].
      assert (a = c) as ->.
      { apply Honly; [|by apply adjacent_sym].
        apply HQ in Ha as [?|?]; done. }
      assert (c2 = c) as ->.
      { apply Honly; [|done].
        pose proof (pathIn_first_P _ _ _ _ Hp2) as Hq2.
        apply HQ in Hq2 as [->|?]; [|done].
        exfalso. apply Hnot2. by eapply pathIn_first_in. }
      apply Hnot. right. by eapply pathIn_first_in.
    + by apply IH.
Qed.

Lemma leaf_first b l :
  pathIn Q leaf b l → b ≠ leaf → ∃ l', l = leaf :: l' ∧ pathIn P c b l'.
Proof.
  inversion 1 as [|? c2 ? l2 _ Hlc2 Hnot2 Hp2]; subst; [done|].
  intros Hb. exists l2. split; [done|].
  assert (c2 = c) as ->.
  { apply Honly; [|done].
    pose proof (pathIn_first_P _ _ _ _ Hp2) as Hq2.
    apply HQ in Hq2 as [->|?]; [|done].
    exfalso. apply Hnot2. by eapply pathIn_first_in. }
  eapply pathIn_restrict; [exact Hp2|].
  intros q Hq. pose proof (pathIn_all _ _ _ _ Hp2 q Hq) as HQq.
  apply HQ in HQq as [->|?]; done.
Qed.

Lemma path_to_leaf b l :
  pathIn P c b l → pathIn Q leaf b (leaf :: l).
Proof.
  intros Hp. apply pathIn_step with c; [apply HQ; by left | done | |].
  - intros Hin. apply Hleaf. by eapply pathIn_all.
  - eapply pathIn_mono; [|exact Hp]. intros q Hq. apply HQ. by right.
Qed.

(** Adding a leaf to a tree gives a tree. *)
Lemma treeOn_leaf : treeOn P → treeOn Q.
Proof.
  intros Htree a b Ha Hb.
  destruct (decide (a = leaf)) as [->|Hal], (decide (b = leaf)) as [->|Hbl].
  - exists [leaf]. split; [by constructor | apply pathIn_loop].
  - destruct (Htree c b) as (l & Hl & Huniq); [done | |].
    { apply HQ in Hb as [?|?]; done. }
    exists (leaf :: l). split; [by apply path_to_leaf|].
    intros l' Hl'. apply leaf_first in Hl' as (l2 & -> & Hl2); [|done].
    f_equal. by apply Huniq.
  - destruct (Htree c a) as (l & Hl & Huniq); [done | |].
    { apply HQ in Ha as [?|?]; done. }
    exists (rev (leaf :: l)). split.
    { apply pathIn_rev. by apply path_to_leaf. }
    intros l' Hl'. apply pathIn_rev in Hl'.
    apply leaf_first in Hl' as (l2 & Hrev & Hl2); [|done].
    apply Huniq in Hl2 as ->. rewrite <- Hrev. by rewrite rev_involutive.
  - assert (P a) as HPa by (apply HQ in Ha as [?|?]; done).
    assert (P b) as HPb by (apply HQ in Hb as [?|?]; done).
    destruct (Htree a b HPa HPb) as (l & Hl & Huniq).
    exists l. split.
    { eapply pathIn_mono; [|exact Hl]. intros q Hq. apply HQ. by right. }
    intros l' Hl'. apply Huniq.
    eapply pathIn_restrict; [exact Hl'|].
    intros q Hq. pose proof (pathIn_all _ _ _ _ Hl' q Hq) as HQq.
    apply HQ in HQq as [->|?]; [|done].
    exfalso. by eapply leaf_not_inside.
Qed.

End Leaf.

(** A single cell is a tree. *)
Lemma treeOn_single (Q : Position → Prop) (p : Position) :
  (∀ q, Q q ↔ q = p) → treeOn Q.
Proof.
  intros HQ a b Ha Hb. apply HQ in Ha as Ha', Hb as Hb'. subst.
  exists [p]. split; [by constructor | apply pathIn_loop].
Qed.

End Paths.

(** ** Reading and writing cells *)

Section GridAccess.

Import MazeSpec.

Lemma cell_Some g i j v :
  cell g i j = Some v →
  0 ≤ i ∧ 0 ≤ j ∧ ∃ row, g !! Z.to_nat j = Some row ∧ row !! Z.to_nat i = Some v.
Proof.
  unfold cell. case_bool_decide as H; [|done].
  destruct (g !! Z.to_nat j) as [row|] eqn:E; [|done].
  intros Hv. split; [lia|]. split; [lia|]. eauto.
Qed.

Lemma shaped_rows w h g : shaped w h g → rows g = Z.of_nat h.
Proof. intros [Hh _]. unfold rows. by rewrite Hh. Qed.

Lemma shaped_cols w h g : shaped w h g → (0 < h)%nat → cols g = Z.of_nat w.
Proof.
  intros [Hh Hw] Hpos. destruct g as [|row g]; simpl in *; [lia|].
  by rewrite (Hw 0%nat row).
Qed.

Lemma cell_shaped w h g i j v :
  shaped w h g → cell g i j = Some v →
  0 ≤ i < Z.of_nat w ∧ 0 ≤ j < Z.of_nat h.
Proof.
  intros [Hh Hw] (Hi & Hj & row & Hrow & Hv)%cell_Some.
  apply lookup_lt_Some in Hrow as Hlt. apply Hw in Hrow.
  apply lookup_lt_Some in Hv. lia.
Qed.

Lemma cell_is_Some w h g i j :
  shaped w h g → 0 ≤ i < Z.of_nat w → 0 ≤ j < Z.of_nat h →
  is_Some (cell g i j).
Proof.
  intros [Hh Hw] Hi Hj. unfold cell.
  rewrite bool_decide_eq_true_2 by lia.
  destruct (lookup_lt_is_Some_2 g (Z.to_nat j)) as [row Hrow]; [lia|].
  rewrite Hrow. apply lookup_lt_is_Some_2. rewrite (Hw _ _ Hrow). lia.
Qed.

Lemma setCell_is_Some w h g i j v :
  shaped w h g → 0 ≤ i < Z.of_nat w → 0 ≤ j < Z.of_nat h →
  is_Some (setCell g i j v).
Proof.
  intros [Hh Hw] Hi Hj. unfold setCell.
  rewrite bool_decide_eq_true_2 by lia.
  destruct (lookup_lt_is_Some_2 g (Z.to_nat j)) as [row Hrow]; [lia|].
  rewrite Hrow. rewrite bool_decide_eq_true_2; [done|].
  rewrite (Hw _ _ Hrow). lia.
Qed.

Lemma setCell_shaped w h g i j v g' :
  shaped w h g → setCell g i j v = Some g' → shaped w h g'.
Proof.
  intros [Hh Hw]. unfold setCell. case_bool_decide; [|done].
  destruct (g !! Z.to_nat j) as [row|] eqn:Hrow; [|done].
  case_bool_decide; [|done]. intros [= <-]. split.
  - by rewrite length_insert.
  - intros j' row' Hj'. apply list_lookup_insert_Some in Hj'
      as [(_ & <- & _)|(_ & Hj')].
    + rewrite length_insert. by eapply Hw.
    + by eapply Hw.
Qed.

Lemma setCell_cell g i j v g' i' j' :
  setCell g i j v = Some g' →
  cell g' i' j' = if bool_decide (i' = i ∧ j' = j) then Some v
                  else cell g i' j'.
Proof.
  unfold setCell. case_bool_decide as Hij; [|done].
  destruct (g !! Z.to_nat j) as [row|] eqn:Hrow; [|done].
  case_bool_decide as Hi; [|done]. intros [= <-].
  unfold cell. case_bool_decide as Hij'.
  - destruct (decide (Z.to_nat j' = Z.to_nat j)) as [Hjj|Hjj].
    + rewrite Hjj, list_lookup_insert_eq by (by eapply lookup_lt_Some).
      rewrite Hrow.
      destruct (decide (Z.to_nat i' = Z.to_nat i)) as [Hii|Hii].
      * rewrite Hii, list_lookup_insert_eq by done.
        rewrite bool_decide_eq_true_2 by lia. done.
      * rewrite list_lookup_insert_ne by done.
        rewrite bool_decide_eq_false_2 by lia. done.
    + rewrite list_lookup_insert_ne by done.
      rewrite bool_decide_eq_false_2 by lia. done.
  - rewrite bool_decide_eq_false_2 by lia. done.
Qed.

Lemma setCell_rows g i j v g' : setCell g i j v = Some g' → rows g' = rows g.
Proof.
  unfold setCell. case_bool_decide; [|done].
  destruct (g !! Z.to_nat j); [|done]. case_bool_decide; [|done].
  intros [= <-]. unfold rows. by rewrite length_insert.
Qed.

Lemma setCell_cols g i j v g' : setCell g i j v = Some g' → cols g' = cols g.
Proof.
  unfold setCell. case_bool_decide; [|done].
  destruct (g !! Z.to_nat j) as [row|] eqn:Hrow; [|done].
  case_bool_decide; [|done]. intros [= <-].
  destruct g as [|row0 g]; [done|].
  destruct (Z.to_nat j) as [|n]; simpl in *; [|done].
  injection Hrow as ->. by rewrite length_insert.
Qed.

Lemma walkable_cell g p :
  walkable g p ↔ cell g (x p) (y p) = Some 1 ∨ cell g (x p) (y p) = Some 2.
Proof.
  unfold walkable, Maze.isPath. destruct (cell g (x p) (y p)) as [v|].
  - rewrite orb_true_iff, !Z.eqb_eq. split.
    + intros [->| ->]; eauto.
    + intros [[= ->]|[= ->]]; eauto.
  - split; [done | intros [|]; done].
Qed.

Lemma walkable_setCell g i j v g' p :
  setCell g i j v = Some g' → v = 1 ∨ v = 2 →
  walkable g' p ↔ p = mkPosition i j ∨ walkable g p.
Proof.
  intros Hset Hv. rewrite !walkable_cell, (setCell_cell _ _ _ _ _ _ _ Hset).
  destruct p as [px py]. simpl. case_bool_decide as Hp.
  - destruct Hp as [-> ->]. split; [by left|].
    intros _. destruct Hv as [->| ->]; eauto.
  - split; [by right|]. intros [[= -> ->]|?]; [|done]. by destruct Hp.
Qed.

End GridAccess.

(** ** Carving *)

Section Carving.

Import MazeSpec.

Lemma perfect_setCell g i j v g' c :
  perfect g → setCell g i j v = Some g' → v = 1 ∨ v = 2 →
  ¬ walkable g (mkPosition i j) → walkable g c →
  adjacent (mkPosition i j) c →
  (∀ q, walkable g q → adjacent (mkPosition i j) q → q = c) →
  perfect g'.
Proof.
  intros Htree Hset Hv Hnot Hc Hadj Honly.
  eapply (treeOn_leaf (walkable g) (walkable g') (mkPosition i j) c); eauto.
  intros q. exact (walkable_setCell g i j v g' q Hset Hv).
Qed.

Lemma DIRECTIONS_cases d :
  d ∈ Maze.DIRECTIONS →
  (Maze.dx d = 0 ∧ Maze.dy d = -2) ∨ (Maze.dx d = 2 ∧ Maze.dy d = 0) ∨
  (Maze.dx d = 0 ∧ Maze.dy d = 2) ∨ (Maze.dx d = -2 ∧ Maze.dy d = 0).
Proof.
  unfold Maze.DIRECTIONS. rewrite !elem_of_cons, elem_of_nil.
  intros [->|[->|[->|[->|[]]]]]; simpl; lia.
Qed.

(** One round of the loop of [carveMaze]: the cell between the current cell
    and an uncarved lattice neighbour is carved, then the neighbour. *)
Lemma carved_step s g cx cy d gw gn :
  carved s g → cx mod 2 = 1 → cy mod 2 = 1 →
  walkable g (mkPosition cx cy) → d ∈ Maze.DIRECTIONS →
  0 < cx + Maze.dx d < 2 * s → 0 < cy + Maze.dy d < 2 * s →
  cell g (cx + Maze.dx d) (cy + Maze.dy d) = Some 0 →
  setCell g (cx + Maze.dx d / 2) (cy + Maze.dy d / 2) 1 = Some gw →
  setCell gw (cx + Maze.dx d) (cy + Maze.dy d) 1 = Some gn →
  carved s gn.
Proof.
  intros [Hshape Hin Hwalls Htree Hvals] Hcx Hcy Hc Hd Hnx Hny Hn0 Hw Hn.
  apply DIRECTIONS_cases in Hd.
  set (nx := cx + Maze.dx d) in *. set (ny := cy + Maze.dy d) in *.
  set (wx := cx + Maze.dx d / 2) in *. set (wy := cy + Maze.dy d / 2) in *.
  assert (¬ walkable g (mkPosition nx ny)) as Hnotn.
  { rewrite walkable_cell. simpl. rewrite Hn0. intros [|]; done. }
  assert (∀ p, walkable gw p ↔ p = mkPosition wx wy ∨ walkable g p) as Hgw.
  { intros p. apply (walkable_setCell _ _ _ _ _ _ Hw). by left. }
  assert (∀ p, walkable gn p ↔ p = mkPosition nx ny ∨ walkable gw p) as Hgn.
  { intros p. apply (walkable_setCell _ _ _ _ _ _ Hn). by left. }
  destruct (Hin _ Hc) as (Hcx' & Hcy' & _). simpl in Hcx', Hcy'.
  assert (wx = cx ∧ wy = cy - 1 ∧ nx = cx ∧ ny = cy - 2 ∨
          wx = cx + 1 ∧ wy = cy ∧ nx = cx + 2 ∧ ny = cy ∨
          wx = cx ∧ wy = cy + 1 ∧ nx = cx ∧ ny = cy + 2 ∨
          wx = cx - 1 ∧ wy = cy ∧ nx = cx - 2 ∧ ny = cy) as Hgeo.
  { subst nx ny wx wy.
    destruct Hd as [[-> ->]|[[-> ->]|[[-> ->]|[-> ->]]]];
      change (0 / 2) with 0; change (2 / 2) with 1;
      change (-2 / 2) with (-1); lia. }
  clearbody nx ny wx wy. clear Hd.
  assert (¬ walkable g (mkPosition wx wy)) as Hnotw.
  { intros Hww. destruct (Hwalls _ Hww) as [Hev1 Hev2]. simpl in *.
    apply Hnotn.
    destruct Hgeo as [(-> & -> & -> & ->)|[(-> & -> & -> & ->)|
                      [(-> & -> & -> & ->)|(-> & -> & -> & ->)]]].
    - destruct Hev2 as [H _]; [zsolve|].
      by replace (cy - 1 - 1) with (cy - 2) in H by lia.
    - destruct Hev1 as [_ H]; [zsolve|].
      by replace (cx + 1 + 1) with (cx + 2) in H by lia.
    - destruct Hev2 as [_ H]; [zsolve|].
      by replace (cy + 1 + 1) with (cy + 2) in H by lia.
    - destruct Hev1 as [H _]; [zsolve|].
      by replace (cx - 1 - 1) with (cx - 2) in H by lia. }
  split.
  - eapply setCell_shaped; [|exact Hn]. eapply setCell_shaped; eauto.
  - intros p Hp. apply Hgn in Hp as [->|Hp]; [simpl; zsolve|].
    apply Hgw in Hp as [->|Hp]; [simpl; zsolve|]. by apply Hin.
  - intros p Hp. apply Hgn in Hp as [->|Hp].
    { simpl. split; intros; zsolve. }
    apply Hgw in Hp as [->|Hp].
    { simpl. rewrite !Hgn, !Hgw.
      destruct Hgeo as [(-> & -> & -> & ->)|[(-> & -> & -> & ->)|
                        [(-> & -> & -> & ->)|(-> & -> & -> & ->)]]].
      - split; [intros; zsolve|]. intros _. split.
        + left. f_equal; lia.
        + right. right. by replace (cy - 1 + 1) with cy by lia.
      - split; [|intros; zsolve]. intros _. split.
        + right. right. by replace (cx + 1 - 1) with cx by lia.
        + left. f_equal; lia.
      - split; [intros; zsolve|]. intros _. split.
        + right. right. by replace (cy + 1 - 1) with cy by lia.
        + left. f_equal; lia.
      - split; [|intros; zsolve]. intros _. split.
        + left. f_equal; lia.
        + right. right. by replace (cx - 1 + 1) with cx by lia. }
    destruct (Hwalls _ Hp) as [H1 H2]. split.
    + intros He. destruct (H1 He). rewrite !Hgn, !Hgw. auto.
    + intros He. destruct (H2 He). rewrite !Hgn, !Hgw. auto.
  - apply (perfect_setCell gw nx ny 1 gn (mkPosition wx wy)); auto.
    + apply (perfect_setCell g wx wy 1 gw (mkPosition cx cy)); auto.
      * unfold adjacent. simpl. lia.
      * intros [qx qy] Hq Hadj. unfold adjacent in Hadj. simpl in Hadj.
        destruct (Hin _ Hq) as (_ & _ & Hpar). simpl in Hpar.
        assert (¬ (qx = nx ∧ qy = ny)) as Hqn.
        { intros [-> ->]. done. }
        f_equal; zsolve.
    + rewrite Hgw. intros [[= -> ->]|?]; [lia | done].
    + apply Hgw. by left.
    + unfold adjacent. simpl. lia.
    + intros [qx qy] Hq Hadj. apply Hgw in Hq as [Hq|Hq]; [done|].
      exfalso. apply Hnotn. unfold adjacent in Hadj. simpl in Hadj.
      destruct (Hin _ Hq) as (_ & _ & Hpar). simpl in Hpar.
      destruct (Hwalls _ Hq) as [H1 H2]. simpl in H1, H2.
      assert (nx mod 2 = 1 ∧ ny mod 2 = 1) as [Hnx2 Hny2] by zsolve.
      assert (qx = nx - 1 ∧ qy = ny ∨ qx = nx + 1 ∧ qy = ny ∨
              qx = nx ∧ qy = ny - 1 ∨ qx = nx ∧ qy = ny + 1) as Hq4 by lia.
      destruct Hq4 as [[-> ->]|[[-> ->]|[[-> ->]|[-> ->]]]].
      * destruct H1 as [_ H]; [zsolve|].
        by replace (nx - 1 + 1) with nx in H by lia.
      * destruct H1 as [H _]; [zsolve|].
        by replace (nx + 1 - 1) with nx in H by lia.
      * destruct H2 as [_ H]; [zsolve|].
        by replace (ny - 1 + 1) with ny in H by lia.
      * destruct H2 as [H _]; [zsolve|].
        by replace (ny + 1 - 1) with ny in H by lia.
  - intros i j v. rewrite (setCell_cell _ _ _ _ _ _ _ Hn).
    case_bool_decide; [intros [= <-]; by right|].
    rewrite (setCell_cell _ _ _ _ _ _ _ Hw).
    case_bool_decide; [intros [= <-]; by right|]. apply Hvals.
Qed.

Lemma bind_Some {A B} (m : Maze.M A) (f : A → Maze.M B) rnd k b k' :
  Maze.bind m f rnd k = Some (b, k') →
  ∃ a k1, m rnd k = Some (a, k1) ∧ f a rnd k1 = Some (b, k').
Proof.
  unfold Maze.bind. destruct (m rnd k) as [[a k1]|]; [|done]. eauto.
Qed.

Lemma lift_Some {A} (o : option A) rnd k a k' :
  Maze.lift o rnd k = Some (a, k') → o = Some a ∧ k' = k.
Proof. unfold Maze.lift. destruct o; [|done]. by intros [= -> ->]. Qed.

Lemma swap_elem {T} (l : list T) i j v : v ∈ Maze.swap l i j → v ∈ l.
Proof.
  unfold Maze.swap.
  destruct (l !! i) as [a|] eqn:Ha; [|done].
  destruct (l !! j) as [b|] eqn:Hb; [|done].
  intros (n & Hn)%list_elem_of_lookup_1.
  apply list_lookup_insert_Some in Hn as [(_ & <- & _)|(_ & Hn)].
  { by eapply list_elem_of_lookup_2. }
  apply list_lookup_insert_Some in Hn as [(_ & <- & _)|(_ & Hn)];
    by eapply list_elem_of_lookup_2.
Qed.

Lemma shuffleFrom_spec {T} i (l : list T) rnd k :
  ∃ l' k', Maze.shuffleFrom i l rnd k = Some (l', k') ∧ ∀ v, v ∈ l' → v ∈ l.
Proof.
  revert l k. induction i as [|i IH]; intros l k; simpl.
  - exists l, k. done.
  - unfold Maze.bind, Maze.randomBelow.
    destruct (IH (Maze.swap l (S i) (rnd k `mod` S (S i))%nat) (S k))
      as (l' & k' & -> & Hl').
    exists l', k'. split; [done|]. intros v Hv. eapply swap_elem. eauto.
Qed.

Lemma shuffle_spec {T} (l : list T) rnd k :
  ∃ l' k', Maze.shuffle l rnd k = Some (l', k') ∧ ∀ v, v ∈ l' → v ∈ l.
Proof. apply shuffleFrom_spec. Qed.

(** The four tests that keep a lattice neighbour inside the border. *)
Lemma inside_tests w h g nx ny :
  shaped w h g →
  (ny <=? 0) || (ny >=? rows g - 1) || (nx <=? 0) || (nx >=? cols g - 1)
    = false →
  0 < nx < Z.of_nat w - 1 ∧ 0 < ny < Z.of_nat h - 1.
Proof.
  intros Hs Ht. rewrite (shaped_rows _ _ _ Hs) in Ht.
  apply orb_false_iff in Ht as [Ht H4]. apply orb_false_iff in Ht as [Ht H3].
  apply orb_false_iff in Ht as [H1 H2].
  rewrite (shaped_cols _ _ _ Hs) in H4 by lia. lia.
Qed.

Section CarveInvariant.

Variable s : Z.

Section Loop.

(** The recursive call, and what it guarantees. *)
Variable rec : MazeGrid → Z → Z → Maze.M MazeGrid.

Hypothesis Hrec :
  ∀ g x y rnd k g' k' g1,
    setCell g x y 1 = Some g1 → carved s g1 →
    x mod 2 = 1 → y mod 2 = 1 →
    rec g x y rnd k = Some (g', k') →
    carved s g' ∧ ∀ p, walkable g1 p → walkable g' p.

Lemma carveDirs_carved x y :
  x mod 2 = 1 → y mod 2 = 1 →
  ∀ dirs g rnd k g' k',
    (∀ d, d ∈ dirs → d ∈ Maze.DIRECTIONS) →
    carved s g → walkable g (mkPosition x y) →
    Maze.carveDirs rec x y dirs g rnd k = Some (g', k') →
    carved s g' ∧ ∀ p, walkable g p → walkable g' p.
Proof.
  intros Hx Hy dirs.
  induction dirs as [|d dirs IH]; intros g rnd k g' k' Hdirs Hg Hc; simpl.
  - intros [= <- <-]. done.
  - assert (∀ d', d' ∈ dirs → d' ∈ Maze.DIRECTIONS) as Hdirs'.
    { intros d' Hd'. apply Hdirs. by right. }
    destruct ((y + Maze.dy d <=? 0) || (y + Maze.dy d >=? rows g - 1) ||
              (x + Maze.dx d <=? 0) || (x + Maze.dx d >=? cols g - 1))
      eqn:Htests; [by apply IH|].
    case_bool_decide as Hzero; simpl; [|by apply IH].
    intros (gw & k1 & (Hw & ->)%lift_Some & Hrest)%bind_Some.
    apply bind_Some in Hrest as (g2 & k2 & Hcall & Hrest).
    pose proof (inside_tests _ _ _ _ _ (carved_shape _ _ Hg) Htests)
      as [Hnx Hny].
    destruct (carved_inside _ _ Hg _ Hc) as (Hcx & Hcy & _). simpl in *.
    set (side := Z.to_nat (2 * s + 1)) in *.
    assert (Z.of_nat side = 2 * s + 1) as Hside by (subst side; lia).
    assert (d ∈ Maze.DIRECTIONS) as Hd by (apply Hdirs; left).
    destruct (setCell_is_Some side side gw (x + Maze.dx d) (y + Maze.dy d) 1)
      as [gn Hn]; [|lia|lia|].
    { eapply setCell_shaped; [|exact Hw]. apply (carved_shape _ _ Hg). }
    assert (carved s gn) as Hgn.
    { eapply (carved_step s g x y d gw gn); eauto; lia. }
    assert ((x + Maze.dx d) mod 2 = 1 ∧ (y + Maze.dy d) mod 2 = 1)
      as [Hnx2 Hny2].
    { apply DIRECTIONS_cases in Hd.
      destruct Hd as [[-> ->]|[[-> ->]|[[-> ->]|[-> ->]]]]; zsolve. }
    destruct (Hrec _ _ _ _ _ _ _ _ Hn Hgn Hnx2 Hny2 Hcall) as [Hg2 Hmono2].
    assert (∀ p, walkable g p → walkable g2 p) as Hmono.
    { intros p Hp. apply Hmono2.
      apply (walkable_setCell _ _ _ _ _ _ Hn); [by left|]. right.
      apply (walkable_setCell _ _ _ _ _ _ Hw); [by left|]. by right. }
    destruct (IH g2 rnd k2 g' k') as [Hg' Hmono']; auto.
Qed.

End Loop.

Lemma carveMaze_carved fuel :
  ∀ g x y rnd k g' k' g1,
    setCell g x y 1 = Some g1 → carved s g1 →
    x mod 2 = 1 → y mod 2 = 1 →
    Maze.carveMaze fuel g x y rnd k = Some (g', k') →
    carved s g' ∧ ∀ p, walkable g1 p → walkable g' p.
Proof.
  induction fuel as [|fuel IH]; intros g x y rnd k g' k' g1 Hset Hg1 Hx Hy;
    simpl; [done|].
  intros (g1' & k1 & (Hset' & ->)%lift_Some & Hrest)%bind_Some.
  assert (g1' = g1) as -> by congruence.
  apply bind_Some in Hrest as (dirs & k2 & Hsh & Hrest).
  destruct (shuffle_spec Maze.DIRECTIONS rnd k) as (dirs' & k2' & Hsh' & Hin).
  assert (dirs' = dirs) as -> by congruence.
  eapply (carveDirs_carved (Maze.carveMaze fuel) IH x y); eauto.
  apply (walkable_setCell _ _ _ _ _ _ Hset); [by left | by left].
Qed.

End CarveInvariant.

(** *** The recursion of [carveMaze] ends: each call carves a cell that was 0 *)

Lemma zerosRow_insert (row : list Z) (i : nat) (u v : Z) :
  row !! i = Some u →
  (zerosRow (<[i:=v]> row) + (if decide (u = 0%Z) then 1 else 0)
   = zerosRow row + (if decide (v = 0%Z) then 1 else 0))%nat.
Proof.
  unfold zerosRow. revert i.
  induction row as [|a row IH]; intros [|i] Hi; simpl in *; try done.
  - injection Hi as ->. rewrite !filter_cons.
    destruct (decide (u = 0)), (decide (v = 0)); simpl; lia.
  - rewrite !filter_cons. specialize (IH i Hi).
    destruct (decide (a = 0)); simpl; lia.
Qed.

Lemma zeros_insert (g : MazeGrid) (j : nat) (row row' : list Z) :
  g !! j = Some row →
  (zeros (<[j:=row']> g) + zerosRow row = zeros g + zerosRow row')%nat.
Proof.
  unfold zeros. revert j.
  induction g as [|r g IH]; intros [|j] Hj; csimpl in *; try done.
  - injection Hj as ->. lia.
  - specialize (IH j Hj). lia.
Qed.

Lemma zeros_setCell g i j v g' :
  setCell g i j v = Some g' →
  ∃ u, cell g i j = Some u ∧
       (zeros g' + (if decide (u = 0%Z) then 1 else 0)
        = zeros g + (if decide (v = 0%Z) then 1 else 0))%nat.
Proof.
  unfold setCell, cell. case_bool_decide as Hij; [|done].
  destruct (g !! Z.to_nat j) as [row|] eqn:Hrow; [|done].
  case_bool_decide as Hi; [|done]. intros [= <-].
  destruct (lookup_lt_is_Some_2 row (Z.to_nat i) Hi) as [u Hu].
  exists u. split; [done|].
  pose proof (zerosRow_insert row (Z.to_nat i) u v Hu).
  pose proof (zeros_insert g (Z.to_nat j) row (<[Z.to_nat i:=v]> row) Hrow).
  lia.
Qed.

Lemma zerosRow_le row : (zerosRow row ≤ length row)%nat.
Proof. unfold zerosRow. apply length_filter. Qed.

Lemma zeros_le w h g : shaped w h g → (zeros g ≤ h * w)%nat.
Proof.
  unfold zeros. revert h. induction g as [|row g IH]; intros h [Hh Hw].
  - simpl. lia.
  - csimpl in *. subst h.
    assert (shaped w (length g) g) as Hg.
    { split; [done|]. intros j r Hj. apply (Hw (S j)). done. }
    specialize (IH _ Hg). pose proof (zerosRow_le row).
    rewrite (Hw 0%nat row) in H by done. lia.
Qed.

Section CarveTotal.

Variable side : nat.

Section Loop.

Variables (fuel : nat) (rec : MazeGrid → Z → Z → Maze.M MazeGrid).

Hypothesis Hrec :
  ∀ g x y rnd k,
    shaped side side g → 0 ≤ x < Z.of_nat side → 0 ≤ y < Z.of_nat side →
    cell g x y = Some 0 → (zeros g ≤ fuel)%nat →
    ∃ g' k', rec g x y rnd k = Some (g', k') ∧
             shaped side side g' ∧ (zeros g' < zeros g)%nat.

Lemma carveDirs_total x y :
  0 ≤ x < Z.of_nat side → 0 ≤ y < Z.of_nat side →
  ∀ dirs g rnd k,
    (∀ d, d ∈ dirs → d ∈ Maze.DIRECTIONS) →
    shaped side side g → (zeros g ≤ fuel)%nat →
    ∃ g' k', Maze.carveDirs rec x y dirs g rnd k = Some (g', k') ∧
             shaped side side g' ∧ (zeros g' ≤ zeros g)%nat.
Proof.
  intros Hx Hy dirs.
  induction dirs as [|d dirs IH]; intros g rnd k Hdirs Hg Hz; simpl.
  - exists g, k. done.
  - assert (∀ d', d' ∈ dirs → d' ∈ Maze.DIRECTIONS) as Hdirs'.
    { intros d' Hd'. apply Hdirs. by right. }
    destruct ((y + Maze.dy d <=? 0) || (y + Maze.dy d >=? rows g - 1) ||
              (x + Maze.dx d <=? 0) || (x + Maze.dx d >=? cols g - 1))
      eqn:Htests; [by apply IH|].
    case_bool_decide as Hzero; simpl; [|by apply IH].
    pose proof (inside_tests _ _ _ _ _ Hg Htests) as [Hnx Hny].
    assert (d ∈ Maze.DIRECTIONS) as Hd by (apply Hdirs; left).
    apply DIRECTIONS_cases in Hd.
    destruct (setCell_is_Some side side g (x + Maze.dx d / 2)
                (y + Maze.dy d / 2) 1) as [gw Hw]; [done| | |].
    { destruct Hd as [[? ?]|[[? ?]|[[? ?]|[? ?]]]]; zsolve. }
    { destruct Hd as [[? ?]|[[? ?]|[[? ?]|[? ?]]]]; zsolve. }
    pose proof (setCell_shaped _ _ _ _ _ _ _ Hg Hw) as Hgw.
    assert (zeros gw ≤ zeros g)%nat as Hzw.
    { destruct (zeros_setCell _ _ _ _ _ Hw) as (u & _ & Hzw).
      repeat case_decide; lia. }
    assert (cell gw (x + Maze.dx d) (y + Maze.dy d) = Some 0) as Hn0.
    { rewrite (setCell_cell _ _ _ _ _ _ _ Hw).
      rewrite bool_decide_eq_false_2; [done|].
      destruct Hd as [[? ?]|[[? ?]|[[? ?]|[? ?]]]]; zsolve. }
    destruct (Hrec gw (x + Maze.dx d) (y + Maze.dy d) rnd k)
      as (g2 & k2 & Hcall & Hg2 & Hz2); [done|lia|lia|done|lia|].
    destruct (IH g2 rnd k2) as (g' & k' & Hrest & Hg' & Hz'); [done|done|lia|].
    exists g', k'. unfold Maze.bind, Maze.lift. rewrite Hw, Hcall.
    split; [done|]. split; [done|lia].
Qed.

End Loop.

Lemma carveMaze_total fuel :
  ∀ g x y rnd k,
    shaped side side g → 0 ≤ x < Z.of_nat side → 0 ≤ y < Z.of_nat side →
    cell g x y = Some 0 → (zeros g ≤ fuel)%nat →
    ∃ g' k', Maze.carveMaze fuel g x y rnd k = Some (g', k') ∧
             shaped side side g' ∧ (zeros g' < zeros g)%nat.
Proof.
  induction fuel as [|fuel IH]; intros g x y rnd k Hg Hx Hy Hc Hz.
  - exfalso. destruct (setCell_is_Some side side g x y 1) as [g1 H1]; auto.
    destruct (zeros_setCell _ _ _ _ _ H1) as (u & Hu & Hzu).
    assert (u = 0) as -> by congruence. repeat case_decide; lia.
  - simpl. destruct (setCell_is_Some side side g x y 1) as [g1 H1]; auto.
    assert (zeros g1 < zeros g)%nat as Hzu.
    { destruct (zeros_setCell _ _ _ _ _ H1) as (u & Hu & Hzu).
      assert (u = 0) as -> by congruence. repeat case_decide; lia. }
    destruct (shuffle_spec Maze.DIRECTIONS rnd k) as (dirs & k2 & Hsh & Hin).
    destruct (carveDirs_total fuel (Maze.carveMaze fuel) IH x y Hx Hy
                dirs g1 rnd k2) as (g' & k' & Hrest & Hg' & Hz'); auto.
    { eapply setCell_shaped; eauto. }
    { lia. }
    exists g', k'. unfold Maze.bind, Maze.lift. rewrite H1, Hsh.
    split; [done|]. split; [done|lia].
Qed.

End CarveTotal.

(** *** The grid before and after carving *)

Lemma replicate_shaped w h : shaped w h (replicate h (replicate w 0)).
Proof.
  split; [apply length_replicate|].
  intros j row [-> _]%lookup_replicate. apply length_replicate.
Qed.

Lemma replicate_cell w h i j v :
  cell (replicate h (replicate w 0)) i j = Some v → v = 0.
Proof.
  intros (_ & _ & row & [-> _]%lookup_replicate & Hv)%cell_Some.
  by apply lookup_replicate in Hv as [-> _].
Qed.

Lemma replicate_cell_inside w h i j :
  0 ≤ i < Z.of_nat w → 0 ≤ j < Z.of_nat h →
  cell (replicate h (replicate w 0)) i j = Some 0.
Proof.
  intros Hi Hj.
  destruct (cell_is_Some w h _ i j (replicate_shaped w h) Hi Hj) as [v Hv].
  by rewrite Hv, (replicate_cell _ _ _ _ _ Hv).
Qed.

(** After the first assignment of [carveMaze(grid, 1, 1)]. *)
Lemma carved_first s g1 :
  1 ≤ s →
  setCell (replicate (Z.to_nat (2 * s + 1)) (replicate (Z.to_nat (2 * s + 1)) 0))
    1 1 1 = Some g1 →
  carved s g1.
Proof.
  intros Hs Hset.
  assert (∀ p, walkable g1 p ↔ p = mkPosition 1 1) as Hw.
  { intros p. rewrite (walkable_setCell _ _ _ _ _ p Hset) by (by left).
    split; [|by left]. intros [?|Hp]; [done|].
    apply walkable_cell in Hp as [Hp|Hp]; by apply replicate_cell in Hp. }
  split.
  - eapply setCell_shaped; [apply replicate_shaped | exact Hset].
  - intros p ->%Hw. simpl. split; [lia|]. split; [lia|]. by left.
  - intros p ->%Hw. simpl. split; intros; zsolve.
  - by apply treeOn_single with (mkPosition 1 1).
  - intros i j v. rewrite (setCell_cell _ _ _ _ _ _ _ Hset).
    case_bool_decide; [intros [= <-]; by right|].
    intros ->%replicate_cell. by left.
Qed.

(** [carveMaze(grid, 1, 1)] on the fresh grid returns, and the grid it leaves
    is carved, with cell (1,1) a path. *)
Lemma carveMaze_fresh s rnd k :
  1 ≤ s →
  let side := Z.to_nat (2 * s + 1) in
  ∃ g k',
    Maze.carveMaze (Z.to_nat ((s * 2 + 1) * (s * 2 + 1)))
      (replicate side (replicate side 0)) 1 1 rnd k = Some (g, k') ∧
    carved s g ∧ cell g 1 1 = Some 1.
Proof.
  intros Hs side.
  destruct (carveMaze_total side (Z.to_nat ((s * 2 + 1) * (s * 2 + 1)))
              (replicate side (replicate side 0)) 1 1 rnd k)
    as (g & k' & Hcarve & Hshape & _).
  - apply replicate_shaped.
  - subst side. lia.
  - subst side. lia.
  - apply replicate_cell_inside; subst side; lia.
  - etrans; [apply (zeros_le side side), replicate_shaped|].
    subst side. nia.
  - exists g, k'. split; [done|].
    destruct (setCell_is_Some side side (replicate side (replicate side 0))
                1 1 1) as [g1 H1];
      [apply replicate_shaped | subst side; lia | subst side; lia |].
    destruct (carveMaze_carved s _ _ _ _ _ _ _ _ g1 H1 (carved_first s g1 Hs H1)
                eq_refl eq_refl Hcarve) as [Hg Hmono].
    split; [done|].
    assert (walkable g (mkPosition 1 1)) as Hw.
    { apply Hmono. apply (walkable_setCell _ _ _ _ _ _ H1); by left. }
    apply walkable_cell in Hw as [Hw|Hw]; [done|].
    apply (carved_values _ _ Hg) in Hw. lia.
Qed.

End Carving.

(** ** The exit *)

Section Exit.

Import MazeSpec.

Lemma range_elem lo hi v : v ∈ Maze.range lo hi ↔ lo ≤ v < hi.
Proof.
  unfold Maze.range. rewrite list_elem_of_fmap. split.
  - intros (n & -> & Hn). apply elem_of_seq in Hn. lia.
  - intros Hv. exists (Z.to_nat (v - lo)). split; [lia|].
    apply elem_of_seq. lia.
Qed.

Lemma isOne_inside g i j :
  0 ≤ j < rows g →
  Maze.isOne g i j = Some (bool_decide (cell g i j = Some 1)).
Proof. intros Hj. unfold Maze.isOne. by rewrite bool_decide_eq_true_2. Qed.

Lemma exitsX_spec g maxY xs :
  0 ≤ 1 < rows g → 0 ≤ maxY - 1 < rows g →
  ∃ ex, Maze.exitsX g maxY xs = Some ex ∧
    ∀ e, e ∈ ex ↔
      ∃ i, i ∈ xs ∧ (e = mkPosition i 0 ∧ cell g i 1 = Some 1
                     ∨ e = mkPosition i maxY ∧ cell g i (maxY - 1) = Some 1).
Proof.
  intros H1 HM. induction xs as [|i xs (ex & IH & Hex)]; simpl.
  - exists []. split; [done|]. intros e. split; [by intros ?%elem_of_nil|].
    by intros (i & ?%elem_of_nil & _).
  - rewrite !isOne_inside, IH by done. simpl. eexists. split; [reflexivity|].
    intros e. rewrite !elem_of_app, Hex. split.
    + intros [He|[He|(i' & Hi' & He)]].
      * case_bool_decide; [|by apply elem_of_nil in He].
        apply list_elem_of_singleton in He. exists i. split; [left|]. eauto.
      * case_bool_decide; [|by apply elem_of_nil in He].
        apply list_elem_of_singleton in He. exists i. split; [left|]. eauto.
      * exists i'. split; [by right | done].
    + intros (i' & [->|Hi']%elem_of_cons & He).
      * destruct He as [[-> Hc]|[-> Hc]].
        -- left. rewrite bool_decide_eq_true_2 by done. left.
        -- right. left. rewrite bool_decide_eq_true_2 by done. left.
      * right. right. eauto.
Qed.

Lemma exitsY_spec g maxX ys :
  (∀ j, j ∈ ys → 0 ≤ j < rows g) →
  ∃ ey, Maze.exitsY g maxX ys = Some ey ∧
    ∀ e, e ∈ ey ↔
      ∃ j, j ∈ ys ∧ (e = mkPosition 0 j ∧ cell g 1 j = Some 1
                     ∨ e = mkPosition maxX j ∧ cell g (maxX - 1) j = Some 1).
Proof.
  induction ys as [|j ys IH]; intros Hys; simpl.
  - exists []. split; [done|]. intros e. split; [by intros ?%elem_of_nil|].
    by intros (i & ?%elem_of_nil & _).
  - destruct IH as (ey & IH & Hey). { intros j' Hj'. apply Hys. by right. }
    rewrite !isOne_inside, IH by (apply Hys; left). simpl.
    eexists. split; [reflexivity|].
    intros e. rewrite !elem_of_app, Hey. split.
    + intros [He|[He|(i' & Hi' & He)]].
      * case_bool_decide; [|by apply elem_of_nil in He].
        apply list_elem_of_singleton in He. exists j. split; [left|]. eauto.
      * case_bool_decide; [|by apply elem_of_nil in He].
        apply list_elem_of_singleton in He. exists j. split; [left|]. eauto.
      * exists i'. split; [by right | done].
    + intros (i' & [->|Hi']%elem_of_cons & He).
      * destruct He as [[-> Hc]|[-> Hc]].
        -- left. rewrite bool_decide_eq_true_2 by done. left.
        -- right. left. rewrite bool_decide_eq_true_2 by done. left.
      * right. right. eauto.
Qed.

(** The candidates of a carved grid. *)
Lemma exitCandidates_spec s g :
  1 ≤ s → carved s g →
  ∃ exits, Maze.exitCandidates g = Some exits ∧
           ∀ e, e ∈ exits ↔ candidate s g e.
Proof.
  intros Hs Hg. pose proof (carved_shape _ _ Hg) as Hshape.
  pose proof (shaped_rows _ _ _ Hshape) as Hrows.
  pose proof (shaped_cols _ _ _ Hshape) as Hcols.
  rewrite Z2Nat.id in Hrows by lia. rewrite Z2Nat.id in Hcols by lia.
  specialize (Hcols ltac:(lia)).
  unfold Maze.exitCandidates.
  destruct g as [|row g'] eqn:Eg; [unfold rows in Hrows; simpl in *; lia|].
  rewrite <- Eg in *. rewrite Hrows, Hcols.
  destruct (exitsX_spec g (2 * s + 1 - 1) (Maze.range 1 (2 * s + 1 - 1)))
    as (ex & -> & Hex); [lia|lia|].
  destruct (exitsY_spec g (2 * s + 1 - 1) (Maze.range 1 (2 * s + 1 - 1)))
    as (ey & -> & Hey). { intros j Hj%range_elem. lia. }
  simpl. eexists. split; [reflexivity|].
  intros [ex0 ey0]. rewrite elem_of_app, Hex, Hey. unfold candidate. simpl.
  replace (2 * s + 1 - 1) with (2 * s) by lia.
  split.
  - intros [(i & Hi%range_elem & [[[= -> ->] Hc]|[[= -> ->] Hc]])
           |(j & Hj%range_elem & [[[= -> ->] Hc]|[[= -> ->] Hc]])].
    + left. split; [done|]. split; [lia|done].
    + right. left. split; [done|]. split; [lia|done].
    + right. right. left. split; [done|]. split; [lia|done].
    + right. right. right. split; [done|]. split; [lia|done].
  - intros [(-> & Hi & Hc)|[(-> & Hi & Hc)|[(-> & Hj & Hc)|(-> & Hj & Hc)]]].
    + left. exists ex0. split; [apply range_elem; lia|]. by left.
    + left. exists ex0. split; [apply range_elem; lia|]. by right.
    + right. exists ey0. split; [apply range_elem; lia|]. by left.
    + right. exists ey0. split; [apply range_elem; lia|]. by right.
Qed.

(** [findExit] returns one of the candidates, of which there is at least the
    cell above (1,1). *)
Lemma findExit_spec s g rnd k :
  1 ≤ s → carved s g → cell g 1 1 = Some 1 →
  ∃ exits e k',
    Maze.exitCandidates g = Some exits ∧ mkPosition 1 0 ∈ exits ∧
    Maze.findExit g rnd k = Some (e, k') ∧ e ∈ exits ∧ candidate s g e.
Proof.
  intros Hs Hg H11.
  destruct (exitCandidates_spec s g Hs Hg) as (exits & Hex & Hcand).
  assert (mkPosition 1 0 ∈ exits) as Htop.
  { apply Hcand. left. simpl. split; [done|]. split; [lia|done]. }
  unfold Maze.findExit, Maze.bind, Maze.lift, Maze.randomBelow. rewrite Hex.
  destruct exits as [|e0 exits'] eqn:Eex; [by apply elem_of_nil in Htop|].
  rewrite <- Eex in *.
  assert (length exits ≠ 0%nat) as Hlen by (rewrite Eex; simpl; lia).
  destruct (length exits) as [|n] eqn:En; [done|].
  destruct (lookup_lt_is_Some_2 exits (rnd k `mod` S n)%nat) as [e He].
  { rewrite En. apply Nat.mod_upper_bound. lia. }
  exists exits, e, (S k). rewrite He.
  assert (e ∈ exits) as Hin by (by eapply list_elem_of_lookup_2).
  repeat split; try done. by apply Hcand.
Qed.

(** Opening the exit keeps the maze perfect. *)
Lemma exit_opened s g e g2 :
  1 ≤ s → carved s g → candidate s g e →
  setCell g (x e) (y e) 2 = Some g2 →
  perfect g2 ∧ (∀ p, walkable g2 p ↔ p = e ∨ walkable g p) ∧
  onBorder s e ∧ adjacent e (inward s e) ∧
  cell g2 (x (inward s e)) (y (inward s e)) = Some 1.
Proof.
  intros Hs Hg Hcand Hset. destruct e as [ex ey]. simpl in *.
  assert (¬ walkable g (mkPosition ex ey)) as Hnot.
  { intros Hw. apply (carved_inside _ _ Hg) in Hw. simpl in Hw.
    unfold candidate in Hcand. simpl in Hcand. lia. }
  assert (cell g (x (inward s (mkPosition ex ey)))
            (y (inward s (mkPosition ex ey))) = Some 1
          ∧ adjacent (mkPosition ex ey) (inward s (mkPosition ex ey))
          ∧ onBorder s (mkPosition ex ey)
          ∧ ∀ q, adjacent (mkPosition ex ey) q → 0 < x q < 2 * s →
                 0 < y q < 2 * s → q = inward s (mkPosition ex ey))
    as (Hin & Hadj & Hborder & Honly).
  { unfold candidate, inward, adjacent, onBorder in *. simpl in *.
    destruct Hcand as [(-> & Hi & Hc)|[(-> & Hi & Hc)|
                       [(-> & Hj & Hc)|(-> & Hj & Hc)]]].
    - rewrite Z.eqb_refl. simpl. repeat split; try done; try lia.
      intros [qx qy] ? ? ?; simpl in *. f_equal; lia.
    - rewrite (proj2 (Z.eqb_neq _ 0)) by lia. rewrite Z.eqb_refl. simpl.
      repeat split; try done; try lia.
      intros [qx qy] ? ? ?; simpl in *. f_equal; lia.
    - rewrite (proj2 (Z.eqb_neq ey 0)) by lia.
      rewrite (proj2 (Z.eqb_neq ey _)) by lia. rewrite Z.eqb_refl. simpl.
      repeat split; try done; try lia.
      intros [qx qy] ? ? ?; simpl in *. f_equal; lia.
    - rewrite (proj2 (Z.eqb_neq ey 0)) by lia.
      rewrite (proj2 (Z.eqb_neq ey _)) by lia.
      rewrite (proj2 (Z.eqb_neq _ 0)) by lia. simpl.
      repeat split; try done; try lia.
      intros [qx qy] ? ? ?; simpl in *. f_equal; lia. }
  assert (walkable g (inward s (mkPosition ex ey))) as Hwin.
  { apply walkable_cell. by left. }
  split; [|split; [|split; [done|split; [done|]]]].
  - apply (perfect_setCell g ex ey 2 g2 (inward s (mkPosition ex ey)));
      [apply (carved_tree _ _ Hg) | done | by right | done | done | done |].
    intros q Hq Hqadj. destruct (carved_inside _ _ Hg _ Hq) as (? & ? & _).
    by apply Honly.
  - intros p. apply (walkable_setCell _ _ _ _ _ _ Hset). by right.
  - rewrite (setCell_cell _ _ _ _ _ _ _ Hset).
    rewrite bool_decide_eq_false_2; [done|].
    intros [Hx Hy]. apply Hnot.
    replace (mkPosition ex ey) with (inward s (mkPosition ex ey)); [done|].
    destruct (inward s (mkPosition ex ey)). simpl in *. by subst.
Qed.

End Exit.

(** ** The start: breadth-first search from the exit *)

Section Search.

Import MazeSpec.

Lemma neighbor_chunk g c q :
  q ∈ (if (y c <? 0) || (y c >=? rows g) then []
       else if (x c <? 0) || (x c >=? cols g) then []
       else if negb (Maze.isPath g c) then [] else [c])
  ↔ q = c ∧ 0 ≤ y c < rows g ∧ 0 ≤ x c < cols g ∧ walkable g c.
Proof.
  unfold walkable.
  destruct (y c <? 0) eqn:E1, (y c >=? rows g) eqn:E2; simpl;
    try (rewrite elem_of_nil; split; [done | lia]).
  destruct (x c <? 0) eqn:E3, (x c >=? cols g) eqn:E4; simpl;
    try (rewrite elem_of_nil; split; [done | lia]).
  destruct (Maze.isPath g c); simpl.
  - rewrite list_elem_of_singleton. split; [|by intros []].
    intros ->. split; [done|]. split; [lia|]. split; [lia|done].
  - rewrite elem_of_nil. split; [done | by intros (_ & _ & _ & ?)].
Qed.

Lemma elem_of_neighbors g p q : q ∈ Maze.neighbors g p ↔ link g p q.
Proof.
  unfold Maze.neighbors, Maze.deltas, link. simpl.
  rewrite !elem_of_app, elem_of_nil.
  rewrite (neighbor_chunk g (mkPosition (x p + 0) (y p + -1))).
  rewrite (neighbor_chunk g (mkPosition (x p + 1) (y p + 0))).
  rewrite (neighbor_chunk g (mkPosition (x p + 0) (y p + 1))).
  rewrite (neighbor_chunk g (mkPosition (x p + -1) (y p + 0))).
  unfold adjacent. destruct p as [px py], q as [qx qy]. simpl. split.
  - intros [([= -> ->] & ?)|[([= -> ->] & ?)|[([= -> ->] & ?)
           |[([= -> ->] & ?)|[]]]]]; simpl in *; (split; [lia | done]).
  - intros (Hadj & Hy & Hx & Hw).
    assert (qx = px + 0 ∧ qy = py + -1 ∨ qx = px + 1 ∧ qy = py + 0 ∨
            qx = px + 0 ∧ qy = py + 1 ∨ qx = px + -1 ∧ qy = py + 0)
      as [[-> ->]|[[-> ->]|[[-> ->]|[-> ->]]]] by lia.
    + left. done.
    + right. left. done.
    + right. right. left. done.
    + right. right. right. left. done.
Qed.

Lemma neighbors_length g p : (length (Maze.neighbors g p) ≤ 4)%nat.
Proof.
  assert (∀ c, (length (if ((y c <? 0) || (y c >=? rows g))%Z then []
       else if ((x c <? 0) || (x c >=? cols g))%Z then []
       else if negb (Maze.isPath g c) then [] else [c]) ≤ 1)%nat) as Hone.
  { intros c. repeat case_match; simpl; lia. }
  unfold Maze.neighbors, Maze.deltas. simpl. rewrite !length_app. simpl.
  pose proof (Hone (mkPosition (x p + 0) (y p + -1))).
  pose proof (Hone (mkPosition (x p + 1) (y p + 0))).
  pose proof (Hone (mkPosition (x p + 0) (y p + 1))).
  pose proof (Hone (mkPosition (x p + -1) (y p + 0))).
  simpl in *. lia.
Qed.

Lemma neighbors_flat_length g l :
  (length (flat_map (Maze.neighbors g) l) ≤ 4 * length l)%nat.
Proof.
  induction l as [|p l IH]; simpl; [lia|].
  rewrite length_app. pose proof (neighbors_length g p). lia.
Qed.

Lemma fresh_elem seen l p : p ∈ fresh seen l ↔ p ∈ l ∧ p ∉ seen.
Proof.
  revert seen. induction l as [|q l IH]; intros seen; simpl.
  - rewrite elem_of_nil. naive_solver.
  - case_decide as Hq.
    + rewrite IH, elem_of_cons. naive_solver.
    + rewrite !elem_of_cons, IH, not_elem_of_cons.
      destruct (decide (p = q)); naive_solver.
Qed.

Lemma fresh_NoDup seen l : NoDup (fresh seen l).
Proof.
  revert seen. induction l as [|q l IH]; intros seen; simpl.
  - constructor.
  - case_decide; [apply IH|]. constructor; [|apply IH].
    rewrite fresh_elem, not_elem_of_cons. naive_solver.
Qed.

Lemma fresh_ext seen seen' l :
  (∀ p, p ∈ seen ↔ p ∈ seen') → fresh seen l = fresh seen' l.
Proof.
  revert seen seen'. induction l as [|q l IH]; intros seen seen' H; simpl.
  - done.
  - destruct (decide (q ∈ seen)) as [Hq|Hq].
    + rewrite decide_True by by apply H. by apply IH.
    + rewrite decide_False by by rewrite <- H. f_equal. apply IH.
      intros p. rewrite !elem_of_cons, H. done.
Qed.

Lemma elem_of_keys l p : Maze.key p ∈ keys l ↔ p ∈ l.
Proof.
  unfold keys. rewrite elem_of_list_to_set, list_elem_of_fmap. split.
  - intros (q & Hk & Hq). destruct p, q. injection Hk as -> ->. done.
  - intros Hp. eauto.
Qed.

Lemma keys_cons p l : keys (p :: l) = {[Maze.key p]} ∪ keys l.
Proof. done. Qed.

Lemma better_step n far p l :
  better n (if n >? Maze.dist far then Maze.mkEntry p n else far) l
  = better n far (p :: l).
Proof.
  unfold better. destruct (n >? Maze.dist far) eqn:E.
  - destruct l; [done|]. simpl.
    by rewrite Z.gtb_ltb, Z.ltb_irrefl.
  - destruct l; [done|]. by rewrite E.
Qed.

(** The loop working through the entries of one round: the cells not seen
    before are visited in order, and their neighbours join the queue. *)
Lemma farthestLoop_batch g n B :
  ∀ T seen far fuel,
    Maze.farthestLoop (length B + fuel) g (entries n B ++ T) (keys seen) far
    = Maze.farthestLoop fuel g
        (T ++ entries (n + 1) (flat_map (Maze.neighbors g) (fresh seen B)))
        (keys (fresh seen B) ∪ keys seen) (better n far (fresh seen B)).
Proof.
  induction B as [|p B IH]; intros T seen far fuel; simpl.
  - rewrite app_nil_r. f_equal. unfold keys. simpl. set_solver.
  - case_bool_decide as Hp.
    + apply elem_of_keys in Hp. rewrite decide_True by done. apply IH.
    + rewrite elem_of_keys in Hp. rewrite decide_False by done.
      change ({[Maze.key p]} ∪ keys seen) with (keys (p :: seen)).
      change (Maze.dist (Maze.mkEntry p n)) with n.
      change (Maze.pos (Maze.mkEntry p n)) with p.
      rewrite <- app_assoc.
      change ((λ n0, Maze.mkEntry n0 (n + 1)) <$> Maze.neighbors g p)
        with (entries (n + 1) (Maze.neighbors g p)).
      rewrite IH. simpl. f_equal.
      * unfold entries. rewrite fmap_app, app_assoc. done.
      * rewrite !keys_cons. set_solver.
      * apply better_step.
Qed.

Section Rounds.

Variables (g : MazeGrid) (s : Position).

Lemma foundBefore_S n :
  foundBefore g s (S n) = foundBefore g s n ++ level g s n.
Proof.
  unfold foundBefore, level. simpl. by destruct (bfsRound g s n).
Qed.

Lemma level_S n :
  level g s (S n)
  = fresh (foundBefore g s n ++ level g s n)
      (flat_map (Maze.neighbors g) (level g s n)).
Proof.
  unfold foundBefore, level. simpl. by destruct (bfsRound g s n).
Qed.

Lemma level_fresh n : fresh (foundBefore g s n) (raw g s n) = level g s n.
Proof.
  destruct n as [|n]; [done|].
  rewrite foundBefore_S, level_S. done.
Qed.

Lemma keys_app l1 l2 : keys (l1 ++ l2) = keys l1 ∪ keys l2.
Proof. unfold keys. rewrite fmap_app. apply list_to_set_app_L. Qed.

(** The loop at the beginning of round [n], when every earlier round found a
    cell. *)
Lemma farthestLoop_rounds n :
  (∀ m, (m < n)%nat → level g s m ≠ []) →
  ∀ fuel,
    Maze.farthestLoop (cost g s n + fuel) g [Maze.mkEntry s 0] ∅
      (Maze.mkEntry s 0)
    = Maze.farthestLoop fuel g (entries (Z.of_nat n) (raw g s n))
        (keys (foundBefore g s n)) (farAt g s n).
Proof.
  induction n as [|n IH]; intros Hne fuel; [done|].
  simpl cost. rewrite <- Nat.add_assoc, IH by (intros; apply Hne; lia).
  rewrite <- (app_nil_r (entries (Z.of_nat n) (raw g s n))).
  rewrite farthestLoop_batch, level_fresh. simpl app.
  rewrite foundBefore_S, keys_app.
  replace (Z.of_nat n + 1) with (Z.of_nat (S n)) by lia.
  f_equal; [set_solver|].
  specialize (Hne n ltac:(lia)).
  destruct (level g s n) as [|q l] eqn:El; [done|].
  unfold better. destruct n as [|n]; simpl.
  - unfold level in El. simpl in El. by injection El as <- <-.
  - rewrite (proj2 (Z.gtb_gt _ _)) by lia. by rewrite El.
Qed.

(** The loop ends after the first round that finds nothing, and returns the
    first cell found in the round before. *)
Lemma farthestLoop_result n extra :
  level g s n = [] → (∀ m, (m < n)%nat → level g s m ≠ []) →
  Maze.farthestLoop (cost g s (S n) + S extra) g [Maze.mkEntry s 0] ∅
    (Maze.mkEntry s 0)
  = Some (Maze.pos (farAt g s n)).
Proof.
  intros Hn Hne. simpl cost.
  rewrite <- Nat.add_assoc, farthestLoop_rounds by done.
  rewrite <- (app_nil_r (entries (Z.of_nat n) (raw g s n))).
  rewrite farthestLoop_batch, level_fresh, Hn. done.
Qed.

Lemma cost_bound n :
  (cost g s (S n) ≤ 1 + 4 * length (foundBefore g s n))%nat.
Proof.
  induction n as [|n IH]; [simpl; lia|].
  change (cost g s (S (S n)))
    with (cost g s (S n) + length (raw g s (S n)))%nat.
  rewrite foundBefore_S, length_app. simpl raw.
  pose proof (neighbors_flat_length g (level g s n)). lia.
Qed.

Lemma found_NoDup n : NoDup (foundBefore g s n ++ level g s n).
Proof.
  induction n as [|n IH]; [apply NoDup_singleton|].
  rewrite foundBefore_S, level_S. apply NoDup_app.
  split; [done|]. split; [|apply fresh_NoDup].
  intros p Hp [_ Hp']%fresh_elem. done.
Qed.

Lemma elem_of_allCells p :
  p ∈ allCells g ↔ 0 ≤ x p < cols g ∧ 0 ≤ y p < rows g.
Proof.
  unfold allCells. rewrite list_elem_of_In, in_flat_map. split.
  - intros (j & Hj & Hp). apply list_elem_of_In, range_elem in Hj.
    apply list_elem_of_In, list_elem_of_fmap in Hp as (i & -> & Hi).
    apply range_elem in Hi. simpl. lia.
  - intros [Hx Hy]. exists (y p). split.
    + apply list_elem_of_In, range_elem. lia.
    + apply list_elem_of_In, list_elem_of_fmap. exists (x p).
      split; [by destruct p|]. apply range_elem. lia.
Qed.

Lemma allCells_length :
  length (allCells g) = (length g * Z.to_nat (cols g))%nat.
Proof.
  assert (∀ lo hi, length (Maze.range lo hi) = Z.to_nat (hi - lo)) as Hrange.
  { intros lo hi. unfold Maze.range. by rewrite length_fmap, length_seq. }
  unfold allCells.
  assert (∀ l : list Z,
    length (flat_map (λ j, (λ i, mkPosition i j) <$> Maze.range 0 (cols g)) l)
    = (length l * Z.to_nat (cols g))%nat) as Hflat.
  { induction l as [|j l IH]; simpl; [done|].
    rewrite length_app, IH, length_fmap, Hrange. lia. }
  rewrite Hflat, Hrange. unfold rows. lia.
Qed.

Lemma found_cells n p :
  p ∈ foundBefore g s n ++ level g s n → p = s ∨ p ∈ allCells g.
Proof.
  revert p. induction n as [|n IH]; intros p.
  - intros ->%list_elem_of_singleton. by left.
  - rewrite foundBefore_S, level_S.
    intros [Hp|[Hp _]%fresh_elem]%elem_of_app; [by apply IH|].
    right. apply list_elem_of_In, in_flat_map in Hp as (q & _ & Hq).
    apply list_elem_of_In, elem_of_neighbors in Hq as (_ & Hy & Hx & _).
    by apply elem_of_allCells.
Qed.

Lemma found_length n :
  (length (foundBefore g s n ++ level g s n) ≤ S (length (allCells g)))%nat.
Proof.
  change (S (length (allCells g))) with (length (s :: allCells g)).
  apply submseteq_length, NoDup_submseteq; [apply found_NoDup|].
  intros p Hp. apply found_cells in Hp as [->|Hp]; [left | by right].
Qed.

(** Some round finds nothing. *)
Lemma first_empty_level :
  ∃ n, level g s n = [] ∧ (∀ m, (m < n)%nat → level g s m ≠ []) ∧
       (1 ≤ n)%nat.
Proof.
  assert (∀ n, (∃ k, (k ≤ n)%nat ∧ level g s k = [] ∧
                     ∀ m, (m < k)%nat → level g s m ≠ []) ∨
               ((∀ m, (m < n)%nat → level g s m ≠ []) ∧
                (n ≤ length (foundBefore g s n))%nat)) as Hsearch.
  { induction n as [|n [IH|[Hne Hlen]]].
    - right. split; [intros; lia | simpl; lia].
    - left. destruct IH as (k & ? & ? & ?). exists k. split; [lia|done].
    - destruct (level g s n) as [|q l] eqn:El.
      + left. exists n. split; [lia|]. split; [done|]. done.
      + right. split.
        * intros m Hm. destruct (decide (m = n)) as [->|]; [by rewrite El|].
          apply Hne. lia.
        * rewrite foundBefore_S, length_app, El. simpl. lia. }
  destruct (Hsearch (S (S (length (allCells g))))) as [(k & _ & Hk & Hne)|[_ Hl]].
  - exists k. split; [done|]. split; [done|].
    destruct k; [discriminate Hk | lia].
  - pose proof (found_length (S (S (length (allCells g))))) as Hb.
    rewrite length_app in Hb. lia.
Qed.

(** [computeFarthestPosition] returns: its loop ends within the iterations
    the model grants, on the first cell of the last round that found one. *)
Lemma computeFarthestPosition_spec :
  ∃ n, level g s (S n) = [] ∧ (∀ m, (m ≤ n)%nat → level g s m ≠ []) ∧
       Maze.computeFarthestPosition g s = Some (hd s (level g s n)).
Proof.
  destruct first_empty_level as (n & Hn & Hne & Hpos).
  destruct n as [|n]; [lia|]. exists n. split; [done|].
  split; [intros m Hm; apply Hne; lia|].
  unfold Maze.computeFarthestPosition.
  pose proof (cost_bound (S n)) as Hcost.
  pose proof (found_length n) as Hlen. rewrite <- foundBefore_S in Hlen.
  rewrite allCells_length in Hlen.
  assert (∃ extra, Maze.farthestFuel g
                   = (cost g s (S (S n)) + S extra)%nat) as [extra ->].
  { unfold Maze.farthestFuel.
    exists (4 * (length g * Z.to_nat (cols g)) + 6 - cost g s (S (S n)) - 1)%nat.
    lia. }
  by rewrite farthestLoop_result.
Qed.

(** *** The rounds of the search are the breadth-first distances *)

Lemma level_walk n p : p ∈ level g s n → walk g s p n.
Proof.
  revert p. induction n as [|n IH]; intros p.
  - intros ->%list_elem_of_singleton. constructor.
  - rewrite level_S. intros [Hp _]%fresh_elem.
    apply list_elem_of_In, in_flat_map in Hp as (q & Hq & Hp).
    apply list_elem_of_In in Hq. apply list_elem_of_In, elem_of_neighbors in Hp.
    apply walk_step with q; [by apply IH | done].
Qed.

Lemma foundBefore_level n p :
  p ∈ foundBefore g s n → ∃ m, (m < n)%nat ∧ p ∈ level g s m.
Proof.
  induction n as [|n IH].
  - by intros ?%elem_of_nil.
  - rewrite foundBefore_S. intros [Hp|Hp]%elem_of_app.
    + destruct (IH Hp) as (m & ? & ?). exists m. split; [lia|done].
    + exists n. split; [lia|done].
Qed.

Lemma level_foundBefore m n p :
  (m < n)%nat → p ∈ level g s m → p ∈ foundBefore g s n.
Proof.
  induction n as [|n IH]; [lia|]. intros Hm Hp.
  rewrite foundBefore_S. apply elem_of_app.
  destruct (decide (m = n)) as [->|]; [by right|]. left. apply IH; [lia|done].
Qed.

Lemma walk_found n p :
  walk g s p n → ∃ m, (m ≤ n)%nat ∧ p ∈ level g s m.
Proof.
  induction 1 as [|b c n Hw (m & Hm & Hb) Hlink].
  - exists 0%nat. split; [lia|]. left.
  - destruct (decide (c ∈ foundBefore g s m ++ level g s m)) as [Hc|Hc].
    + rewrite <- foundBefore_S in Hc.
      apply foundBefore_level in Hc as (m' & ? & ?).
      exists m'. split; [lia|done].
    + exists (S m). split; [lia|]. rewrite level_S.
      apply fresh_elem. split; [|done].
      apply list_elem_of_In, in_flat_map. exists b.
      split; [by apply list_elem_of_In|].
      by apply list_elem_of_In, elem_of_neighbors.
Qed.

Lemma level_disjoint m n p :
  p ∈ level g s m → p ∈ level g s n → m = n.
Proof.
  assert (∀ m n, (m < n)%nat → p ∈ level g s m → p ∈ level g s n → False)
    as Hlt.
  { clear m n. intros m n Hmn Hm Hn.
    pose proof (found_NoDup n) as Hnd.
    apply NoDup_app in Hnd as (_ & Hdis & _).
    apply (Hdis p); [|done]. by apply level_foundBefore with m. }
  intros Hm Hn. destruct (Nat.lt_trichotomy m n) as [?|[?|?]];
    [exfalso; eauto | done | exfalso; eauto].
Qed.

(** The cells found in round [n] are those at distance [n]. *)
Lemma level_distance n p : p ∈ level g s n ↔ distance g s p n.
Proof.
  split.
  - intros Hp. split; [by apply level_walk|].
    intros m (m' & Hm' & Hp')%walk_found.
    by rewrite (level_disjoint _ _ _ Hp Hp').
  - intros [Hw Hmin]. destruct (walk_found _ _ Hw) as (m & Hm & Hp).
    pose proof (Hmin _ (level_walk _ _ Hp)).
    by replace n with m by lia.
Qed.

Lemma level_empty_after n m :
  level g s n = [] → (n ≤ m)%nat → level g s m = [].
Proof.
  intros Hn. induction 1 as [|m Hm IH]; [done|].
  by rewrite level_S, IH.
Qed.

(** *** The rounds are the first-in first-out order of discovery *)

Lemma fresh_app seen l1 l2 :
  fresh seen (l1 ++ l2)
  = fresh seen l1 ++ fresh (seen ++ fresh seen l1) l2.
Proof.
  revert seen. induction l1 as [|q l1 IH]; intros seen; simpl.
  - by rewrite app_nil_r.
  - case_decide as Hq; [apply IH|]. simpl. f_equal. rewrite IH. f_equal.
    apply fresh_ext. intros p. rewrite !elem_of_app, !elem_of_cons. tauto.
Qed.

Lemma fifoSearch_batch L :
  ∀ T found fuel,
    fifoSearch (length L + fuel) g (L ++ T) found
    = fifoSearch fuel g
        (T ++ fresh found (flat_map (Maze.neighbors g) L))
        (found ++ fresh found (flat_map (Maze.neighbors g) L)).
Proof.
  induction L as [|p L IH]; intros T found fuel; simpl.
  - by rewrite !app_nil_r.
  - rewrite <- app_assoc, IH, fresh_app, <- !app_assoc. done.
Qed.

Lemma fifoSearch_rounds n fuel :
  fifoSearch (length (foundBefore g s n) + fuel) g [s] [s]
  = fifoSearch fuel g (level g s n) (foundBefore g s (S n)).
Proof.
  revert fuel. induction n as [|n IH]; intros fuel; [done|].
  rewrite foundBefore_S at 1. rewrite length_app, <- Nat.add_assoc, IH.
  pose proof (fifoSearch_batch (level g s n) [] (foundBefore g s (S n)) fuel)
    as Hbatch.
  rewrite app_nil_r in Hbatch. rewrite Hbatch. simpl app.
  by rewrite (foundBefore_S (S n)), level_S, <- foundBefore_S.
Qed.

(** The order of discovery is the succession of the rounds. *)
Lemma discoveryOrder_rounds n :
  level g s n = [] → discoveryOrder g s = foundBefore g s n.
Proof.
  intros Hn. unfold discoveryOrder.
  pose proof (found_length n) as Hlen. rewrite Hn, app_nil_r in Hlen.
  replace (S (S (length (allCells g))))
    with (length (foundBefore g s n)
          + S (S (length (allCells g)) - length (foundBefore g s n)))%nat
    by lia.
  rewrite fifoSearch_rounds, Hn. simpl.
  by rewrite foundBefore_S, Hn, app_nil_r.
Qed.

(** The cell returned by [computeFarthestPosition]: it is at the greatest
    distance from [s] that a cell reached from [s] has, and it is the first
    cell found at that distance. *)
Lemma computeFarthestPosition_farthest :
  ∃ n far rest,
    Maze.computeFarthestPosition g s = Some far ∧
    level g s n = far :: rest ∧
    discoveryOrder g s = foundBefore g s n ++ far :: rest ∧
    distance g s far n ∧
    (∀ p m, walk g s p m → ∃ d, distance g s p d ∧ (d ≤ n)%nat).
Proof.
  destruct computeFarthestPosition_spec as (n & Hempty & Hne & Hres).
  destruct (level g s n) as [|far rest] eqn:El.
  { by destruct (Hne n (le_n _)). }
  exists n, far, rest. split; [done|]. split; [done|]. split.
  { by rewrite (discoveryOrder_rounds (S n)), foundBefore_S, El. }
  split.
  - apply level_distance. rewrite El. left.
  - intros p m (d & _ & Hd)%walk_found. exists d.
    split; [by apply level_distance|].
    destruct (decide (d ≤ n)%nat) as [|Hgt]; [done|].
    rewrite (level_empty_after (S n) d) in Hd by (done || lia).
    by apply elem_of_nil in Hd.
Qed.

End Rounds.

End Search.

(** ** The generator *)

Section Generator.

Import MazeSpec.

(** The run of [generateMaze] for a size of at least 1. *)
Lemma generateMaze_run size rnd k :
  1 ≤ size →
  ∃ g1 k1 exits e k2 g2 st,
    Maze.carveMaze (Z.to_nat ((size * 2 + 1) * (size * 2 + 1)))
      (replicate (Z.to_nat (size * 2 + 1))
         (replicate (Z.to_nat (size * 2 + 1)) 0)) 1 1 rnd k = Some (g1, k1) ∧
    carved size g1 ∧ cell g1 1 1 = Some 1 ∧
    Maze.exitCandidates g1 = Some exits ∧ mkPosition 1 0 ∈ exits ∧
    Maze.findExit g1 rnd k1 = Some (e, k2) ∧ e ∈ exits ∧
    candidate size g1 e ∧
    setCell g1 (x e) (y e) 2 = Some g2 ∧
    Maze.computeFarthestPosition g2 e = Some st ∧
    Maze.generateMaze size rnd k
      = Some (mkMazeMetadata g2 (size * 2 + 1) (size * 2 + 1) st e, k2).
Proof.
  intros Hs.
  destruct (carveMaze_fresh size rnd k Hs) as (g1 & k1 & Hcarve & Hg1 & H11).
  replace (2 * size + 1) with (size * 2 + 1) in Hcarve by lia.
  destruct (findExit_spec size g1 rnd k1 Hs Hg1 H11)
    as (exits & e & k2 & Hex & Htop & Hfind & He & Hcand).
  destruct (setCell_is_Some (Z.to_nat (2 * size + 1)) (Z.to_nat (2 * size + 1))
              g1 (x e) (y e) 2) as [g2 Hset].
  { apply (carved_shape _ _ Hg1). }
  { unfold candidate in Hcand. lia. }
  { unfold candidate in Hcand. lia. }
  destruct (computeFarthestPosition_farthest g2 e)
    as (n & st & rest & Hst & _).
  exists g1, k1, exits, e, k2, g2, st.
  repeat (split; [done|]).
  unfold Maze.generateMaze, Maze.bind, Maze.lift, Maze.ret.
  by rewrite Hcarve, Hfind, Hset, Hst.
Qed.

(** C4: for every size of at least 1 and every outcome of the random draws,
    [generateMaze] returns a grid of width and height [2 * size + 1] whose
    walkable cells form a tree (one and only one simple path joins any two of
    them), and whose only walkable border cell is the exit. *)
Theorem generateMaze_perfect (size : Z) (rnd : nat → nat) (k : nat) :
  1 ≤ size →
  ∃ m k',
    Maze.generateMaze size rnd k = Some (m, k') ∧
    width m = 2 * size + 1 ∧ height m = 2 * size + 1 ∧
    shaped (Z.to_nat (2 * size + 1)) (Z.to_nat (2 * size + 1)) (grid m) ∧
    perfect (grid m) ∧
    walkable (grid m) (exit m) ∧ onBorder size (exit m) ∧
    (∀ p, walkable (grid m) p → onBorder size p → p = exit m).
Proof.
  intros Hs.
  destruct (generateMaze_run size rnd k Hs)
    as (g1 & k1 & exits & e & k2 & g2 & st & _ & Hg1 & _ & _ & _ & _ & _
        & Hcand & Hset & _ & Hgen).
  destruct (exit_opened size g1 e g2 Hs Hg1 Hcand Hset)
    as (Hperfect & Hwalk & Hborder & _).
  eexists _, _. split; [exact Hgen|]. simpl.
  split; [lia|]. split; [lia|].
  split; [eapply setCell_shaped; [apply (carved_shape _ _ Hg1) | exact Hset]|].
  split; [done|]. split; [apply Hwalk; by left|]. split; [done|].
  intros p [->|Hp]%Hwalk Hb; [done|].
  apply (carved_inside _ _ Hg1) in Hp. unfold onBorder in Hb. lia.
Qed.

Lemma generateMaze_perfect_witness :
  ∃ m k', Maze.generateMaze 2 (λ n, n * 7 + 3)%nat 0%nat = Some (m, k') ∧
          perfect (grid m).
Proof.
  destruct (generateMaze_perfect 2 (λ n, n * 7 + 3)%nat 0%nat)
    as (m & k' & H1 & _ & _ & _ & H2 & _).
  - lia.
  - exists m, k'. split; [exact H1 | exact H2].
Defined.

(** C10: for every size of at least 1 and every outcome of the random draws,
    cell (1,1) is carved, so the cell (1,0) above it is among the exit
    candidates: the list is not empty and the fallback is not taken.  The
    exit returned is a candidate: a border cell whose inward neighbour is a
    carved path cell. *)
Theorem findExit_has_candidates (size : Z) (rnd : nat → nat) (k : nat) :
  1 ≤ size →
  ∃ g k1 exits e k2,
    Maze.carveMaze (Z.to_nat ((size * 2 + 1) * (size * 2 + 1)))
      (replicate (Z.to_nat (size * 2 + 1))
         (replicate (Z.to_nat (size * 2 + 1)) 0)) 1 1 rnd k = Some (g, k1) ∧
    cell g 1 1 = Some 1 ∧
    Maze.exitCandidates g = Some exits ∧
    mkPosition 1 0 ∈ exits ∧ exits ≠ [] ∧
    Maze.findExit g rnd k1 = Some (e, k2) ∧
    e ∈ exits ∧ onBorder size e ∧ adjacent e (inward size e) ∧
    cell g (x (inward size e)) (y (inward size e)) = Some 1 ∧
    ∃ m k', Maze.generateMaze size rnd k = Some (m, k') ∧ exit m = e.
Proof.
  intros Hs.
  destruct (generateMaze_run size rnd k Hs)
    as (g1 & k1 & exits & e & k2 & g2 & st & Hcarve & Hg1 & H11 & Hex & Htop
        & Hfind & He & Hcand & Hset & _ & Hgen).
  destruct (exit_opened size g1 e g2 Hs Hg1 Hcand Hset)
    as (_ & Hwalk & Hborder & Hadj & Hin).
  exists g1, k1, exits, e, k2.
  repeat (split; [done|]).
  split. { intros ->. by apply elem_of_nil in Htop. }
  repeat (split; [done|]). split.
  - rewrite (setCell_cell _ _ _ _ _ _ _ Hset) in Hin.
    case_bool_decide as Heq; [|done]. exfalso.
    destruct Heq as [Hx Hy]. unfold adjacent in Hadj. lia.
  - eexists _, _. split; [exact Hgen | done].
Qed.

Lemma findExit_has_candidates_witness :
  ∃ m k', Maze.generateMaze 1 (λ n, n) 0%nat = Some (m, k') ∧
          onBorder 1 (exit m).
Proof.
  destruct (findExit_has_candidates 1 (λ n, n) 0%nat)
    as (g & k1 & exits & e & k2 & _ & _ & _ & _ & _ & _ & _ & Hb & _ & _
        & m & k' & Hgen & <-).
  - lia.
  - exists m, k'. split; [exact Hgen | exact Hb].
Defined.

Lemma walk_cons g a b c n : link g a b → walk g b c n → walk g a c (S n).
Proof.
  intros Hab. induction 1 as [|c d n Hw IH Hcd].
  - apply walk_step with a; [constructor | done].
  - by apply walk_step with c.
Qed.

Lemma walk_walkable g a b n : walk g a b n → b = a ∨ walkable g b.
Proof. destruct 1 as [|b c n _ (_ & _ & _ & Hc)]; [by left | by right]. Qed.

(** In a grid of rows of equal length, a simple path is a walk. *)
Lemma pathIn_walk w h g a b l :
  shaped w h g → pathIn (walkable g) a b l → ∃ n, walk g a b n.
Proof.
  intros Hshape. induction 1 as [a Ha | a c b l Ha Hadj Hnot Hp [n IH]].
  - exists 0%nat. constructor.
  - exists (S n). apply walk_cons with c; [|done].
    pose proof (pathIn_first_P _ _ _ _ Hp) as Hc.
    split; [done|]. apply walkable_cell in Hc as Hcell.
    assert (∃ v, cell g (x c) (y c) = Some v) as [v Hv]
      by (destruct Hcell; eauto).
    destruct (cell_shaped _ _ _ _ _ _ Hshape Hv) as [Hx Hy].
    rewrite (shaped_rows _ _ _ Hshape).
    rewrite (shaped_cols _ _ _ Hshape) by lia. done.
Qed.

(** C5: the start of a generated maze is a walkable cell at the greatest
    breadth-first distance from the exit: every walkable cell has a distance
    from the exit, at most that of the start.  Among the cells at that
    distance the start is the first that a first-in first-out search from the
    exit finds: every cell found before it is strictly nearer to the exit. *)
Theorem start_is_farthest (size : Z) (rnd : nat → nat) (k : nat) :
  1 ≤ size →
  ∃ m k' n pre rest,
    Maze.generateMaze size rnd k = Some (m, k') ∧
    walkable (grid m) (start m) ∧
    distance (grid m) (exit m) (start m) n ∧
    (∀ p, walkable (grid m) p →
          ∃ d, distance (grid m) (exit m) p d ∧ (d ≤ n)%nat) ∧
    discoveryOrder (grid m) (exit m) = pre ++ start m :: rest ∧
    (∀ q, q ∈ pre → ∃ d, distance (grid m) (exit m) q d ∧ (d < n)%nat) ∧
    (∀ p, walkable (grid m) p → p ∈ discoveryOrder (grid m) (exit m)).
Proof.
  intros Hs.
  destruct (generateMaze_run size rnd k Hs)
    as (g1 & k1 & exits & e & k2 & g2 & st & _ & Hg1 & _ & _ & _ & _ & _
        & Hcand & Hset & Hst & Hgen).
  destruct (exit_opened size g1 e g2 Hs Hg1 Hcand Hset)
    as (Hperfect & Hwalk & _).
  assert (shaped (Z.to_nat (2 * size + 1)) (Z.to_nat (2 * size + 1)) g2)
    as Hshape.
  { eapply setCell_shaped; [apply (carved_shape _ _ Hg1) | exact Hset]. }
  destruct (computeFarthestPosition_farthest g2 e)
    as (n & far & rest & Hfar & Hlevel & Horder & Hdist & Hmax).
  assert (far = st) as -> by congruence.
  assert (walkable g2 e) as He by (apply Hwalk; by left).
  assert (∀ p, walkable g2 p → ∃ d, distance g2 e p d ∧ (d ≤ n)%nat)
    as Hall.
  { intros p Hp. destruct (Hperfect e p He Hp) as (l & Hl & _).
    destruct (pathIn_walk _ _ _ _ _ _ Hshape Hl) as [m Hm]. eauto. }
  exists (mkMazeMetadata g2 (size * 2 + 1) (size * 2 + 1) st e), k2, n,
    (foundBefore g2 e n), rest.
  simpl. split; [done|]. split.
  { destruct Hdist as [Hw _]. apply walk_walkable in Hw as [->|?]; done. }
  split; [done|]. split; [done|]. split; [done|]. split.
  - intros q (d & Hd & Hq)%foundBefore_level. exists d.
    split; [by apply level_distance | done].
  - intros p (d & Hd%level_distance & Hle)%Hall.
    rewrite Horder, <- Hlevel, <- foundBefore_S.
    apply level_foundBefore with d; [lia | done].
Qed.

Lemma start_is_farthest_witness :
  ∃ m k', Maze.generateMaze 3 (λ n, n * n + 1)%nat 0%nat = Some (m, k') ∧
          walkable (grid m) (start m).
Proof.
  destruct (start_is_farthest 3 (λ n, n * n + 1)%nat 0%nat)
    as (m & k' & n & pre & rest & H1 & H2 & _).
  - lia.
  - exists m, k'. split; [exact H1 | exact H2].
Defined.

(** Whenever [generateMaze] returns, for whatever size, the start it reports
    is a walkable cell of a grid that has a row. *)
Lemma generateMaze_start size rnd k m k' :
  Maze.generateMaze size rnd k = Some (m, k') →
  walkable (grid m) (start m) ∧ grid m ≠ [].
Proof.
  unfold Maze.generateMaze.
  intros (g1 & k1 & _ & Hrest)%bind_Some.
  apply bind_Some in Hrest as (e & k2 & _ & Hrest).
  apply bind_Some in Hrest as (g2 & k3 & [Hset _]%lift_Some & Hrest).
  apply bind_Some in Hrest as (st & k4 & [Hst _]%lift_Some & Hret).
  injection Hret as <- <-. simpl.
  assert (walkable g2 e) as He.
  { apply (walkable_setCell _ _ _ _ _ _ Hset); [by right|]. left.
    by destruct e. }
  split.
  - destruct (computeFarthestPosition_farthest g2 e)
      as (n & far & rest & Hfar & _ & _ & [Hw _] & _).
    assert (far = st) as -> by congruence.
    apply walk_walkable in Hw as [->|?]; done.
  - intros ->. apply walkable_cell in He. simpl in He.
    unfold cell in He. case_bool_decide; destruct He; done.
Qed.

End Generator.

(** ** Game engine: positions *)

Section Positions.

Import Game GameSpec MazeSpec.

Lemma walkableAt_walkable g p : walkableAt g p = true → walkable g p.
Proof.
  unfold walkableAt. intros (_ & _ & H)%bool_decide_eq_true.
  by apply walkable_cell.
Qed.

(** A successful glide ends on a walkable cell. *)
Lemma moveToNextJunction_walkable g start key p steps :
  moveToNextJunction g start key = Ok (p, steps) → walkable g p.
Proof.
  unfold moveToNextJunction. destruct g as [|row g'] eqn:Eg; [done|].
  rewrite <- Eg.
  destruct (glide_spec (Z.to_nat (rows g * cols g)) g (directionVectors key)
              start 0) as (n & Hn0 & Hg & Hwalk & _).
  { by exists key. }
  { intros Hw. unfold walkableAt in Hw. apply bool_decide_eq_true in Hw.
    destruct Hw as (Hy & Hx & _).
    destruct key; unfold room, ahead in *; simpl in *; nia. }
  rewrite Hg. rewrite Z.add_0_l.
  destruct (n =? 0) eqn:En; [done|]. intros [= <- <-].
  apply walkableAt_walkable, Hwalk. apply Z.eqb_neq in En. lia.
Qed.

Lemma initialPlayers_lookup st infos cid player :
  initialPlayers st infos !! cid = Some player → position player = st.
Proof.
  unfold initialPlayers.
  assert (∀ acc : gmap string PlayerGameState,
    (∀ c p, acc !! c = Some p → position p = st) →
    fold_left (λ acc player,
      <[infoClientId player :=
          mkPlayerGameState (infoClientId player) (infoName player)
            st None None]> acc) infos acc !! cid = Some player →
    position player = st) as Hgen.
  { induction infos as [|info infos IH]; intros acc Hacc; simpl.
    - apply Hacc.
    - apply IH. intros c p. rewrite lookup_insert. case_decide.
      + by intros [= <-].
      + apply Hacc. }
  apply Hgen. intros c p. by rewrite lookup_empty.
Qed.

Lemma initialPlayers_present st infos info :
  info ∈ infos → is_Some (initialPlayers st infos !! infoClientId info).
Proof.
  unfold initialPlayers.
  assert (∀ acc : gmap string PlayerGameState,
    info ∈ infos ∨ is_Some (acc !! infoClientId info) →
    is_Some (fold_left (λ acc player,
      <[infoClientId player :=
          mkPlayerGameState (infoClientId player) (infoName player)
            st None None]> acc) infos acc !! infoClientId info)) as Hgen.
  { induction infos as [|i infos IH]; intros acc Hacc; simpl.
    - destruct Hacc as [Hin|?]; [by apply elem_of_nil in Hin | done].
    - apply IH. destruct Hacc as [[->|Hin]%elem_of_cons|Hacc].
      + right. rewrite lookup_insert_eq. eauto.
      + by left.
      + right. rewrite lookup_insert. case_decide; eauto. }
  intros Hin. apply Hgen. by left.
Qed.

Lemma wfGames_insert games code game :
  wfGames games → wfGame game → wfGames (<[code := game]> games).
Proof.
  intros Hwf Hg code' game'. rewrite lookup_insert. case_decide.
  - by intros [= <-].
  - apply Hwf.
Qed.

Lemma wfGames_delete games code :
  wfGames games → wfGames (delete code games).
Proof.
  intros Hwf code' game'. rewrite lookup_delete. case_decide; [done|].
  apply Hwf.
Qed.

Lemma createGame_wf games code size infos now rnd k games' game k' :
  wfGames games →
  createGame games code size infos now rnd k = Some (games', game, k') →
  wfGames games' ∧ games' !! code = Some game ∧
  phase game = WAITING ∧
  (∀ cid player, players game !! cid = Some player →
     position player = start (maze game)) ∧
  walkable (grid (maze game)) (start (maze game)) ∧
  (∀ info, info ∈ infos → is_Some (players game !! infoClientId info)).
Proof.
  intros Hwf. unfold createGame.
  intros (m & k1 & Hgen & Hret)%bind_Some. injection Hret as <- <- <-.
  destruct (generateMaze_start _ _ _ _ _ Hgen) as [Hstart Hgrid].
  simpl. split; [|split; [by rewrite lookup_insert_eq|]].
  - apply wfGames_insert; [done|]. split; [done|]. simpl.
    intros cid player Hp. by rewrite (initialPlayers_lookup _ _ _ _ Hp).
  - split; [done|]. split; [apply initialPlayers_lookup|].
    split; [done|]. apply initialPlayers_present.
Qed.

Variable speed : Z.

Lemma handleMove_wf games code cid direction now :
  wfGames games →
  wfGames (handleMove speed games code cid direction now).1.
Proof.
  intros Hwf. unfold handleMove.
  destruct (games !! code) as [game|] eqn:Hgame; [|done].
  destruct (negb _); [done|].
  destruct (players game !! cid) as [player|] eqn:Hplayer; [|done].
  destruct (ownDirection _) as [key|]; [|done].
  destruct (moveToNextJunction _ _ _) as [[p steps]|e] eqn:Hmove; [|done].
  simpl. destruct (Hwf _ _ Hgame) as [Hgrid Hplayers].
  apply wfGames_insert; [done|]. split; [done|]. simpl.
  intros cid' player'. rewrite lookup_insert. case_decide.
  - intros [= <-]. simpl. by eapply moveToNextJunction_walkable.
  - apply Hplayers.
Qed.

Lemma wfGames_apply games op : wfGames games → wfGames (apply speed games op).
Proof.
  intros Hwf.
  destruct op as [rnd k c size infos now | rnd k c size infos now | c
                 | c secs now | c now now' | c req | c cid now | c cid now | now];
    simpl.
  - destruct (createGame _ _ _ _ _ _ _) as [[[games' game] k']|] eqn:E;
      [|done].
    by destruct (createGame_wf _ _ _ _ _ _ _ _ _ _ Hwf E).
  - unfold restartGame.
    destruct (createGame _ _ _ _ _ _ _) as [[[games' game] k']|] eqn:E.
    + by destruct (createGame_wf _ _ _ _ _ _ _ _ _ _
                     (wfGames_delete _ c Hwf) E).
    + by apply wfGames_delete.
  - by apply wfGames_delete.
  - unfold startCountdown.
    destruct (games !! c) as [game|] eqn:E; [|done]. simpl.
    apply wfGames_insert; [done|]. apply (Hwf _ _ E).
  - unfold beginGame.
    destruct (games !! c) as [game|] eqn:E; [|done]. simpl.
    apply wfGames_insert; [done|]. apply (Hwf _ _ E).
  - apply handleMove_wf. done.
  - unfold markPlayerDisconnected.
    destruct (games !! c) as [game|] eqn:E; [|done].
    destruct (players game !! cid); [|done]. simpl.
    apply wfGames_insert; [done|]. apply (Hwf _ _ E).
  - unfold markPlayerReconnected.
    destruct (games !! c) as [game|] eqn:E; [|done].
    destruct (players game !! cid); [|done]. simpl.
    apply wfGames_insert; [done|]. apply (Hwf _ _ E).
  - unfold expireOldGames. intros code game Hg.
    apply map_lookup_filter_Some in Hg as [Hg _]. by apply (Hwf code).
Qed.

Lemma wfGames_run ops : wfGames (run speed ops).
Proof.
  unfold run.
  assert (wfGames (∅ : Games)) as Hempty.
  { intros code game H. by rewrite lookup_empty in H. }
  revert Hempty. generalize (∅ : Games).
  induction ops as [|op ops IH]; intros games Hwf; simpl; [done|].
  by apply IH, wfGames_apply.
Qed.

(** C9: in every store reached by a history of game-engine requests, every
    player of every game stands on a walkable cell (path or exit) of the
    maze of the game.  [createGame] puts every player it is given on the
    start of the maze, which is walkable, and a move changes a position only
    to a walkable cell. *)
Theorem positions_walkable (ops : list Op) (code : string) (game : GameState)
    (cid : string) (player : PlayerGameState) :
  run speed ops !! code = Some game →
  players game !! cid = Some player →
  walkable (grid (maze game)) (position player) ∧
  (∀ size infos now rnd k games' game' k',
     createGame (run speed ops) code size infos now rnd k
       = Some (games', game', k') →
     walkable (grid (maze game')) (start (maze game')) ∧
     (∀ info, info ∈ infos → is_Some (players game' !! infoClientId info)) ∧
     ∀ cid' player', players game' !! cid' = Some player' →
                     position player' = start (maze game')) ∧
  (∀ direction now games' r,
     handleMove speed (run speed ops) code cid direction now
       = (games', Ok r) →
     walkable (grid (maze game)) (resultPosition r)).
Proof.
  intros Hgame Hplayer. split; [|split].
  - destruct (wfGames_run ops code game Hgame) as [_ Hpos]. by eapply Hpos.
  - intros size infos now rnd k games' game' k' Hcreate.
    destruct (createGame_wf _ _ _ _ _ _ _ _ _ _ (wfGames_run ops) Hcreate)
      as (_ & _ & _ & Hpos & Hstart & Hall).
    auto.
  - intros direction now games' r. unfold handleMove.
    rewrite Hgame. destruct (negb _); [done|]. rewrite Hplayer.
    destruct (ownDirection _) as [key|]; [|done].
    destruct (moveToNextJunction _ _ _) as [[p steps]|e] eqn:Hmove; [|done].
    intros [= <- <-]. simpl. by eapply moveToNextJunction_walkable.
Qed.

End Positions.

(** ** Game engine: the glide of a created game *)

Section Glide.

Import Game GameSpec MazeSpec.

(** C1: in every game in phase PLAYING of a store reached by a history of
    requests, for a player of the game and a recognised direction,
    [handleMove] succeeds when the adjacent cell in that direction is
    walkable: the player glides cell by cell through walkable cells and
    stops at the first cell that is the exit, or is a junction, or has no
    walkable cell after it (a wall or the edge of the grid); the result is
    that cell together with the number of steps times the per-step duration.
    When the adjacent cell is not walkable, no step can be taken and the move
    fails with INVALID_MOVE. *)
Theorem handleMove_glides (speed : Z) (ops : list Op) (code : string)
    (game : GameState) (cid : string) (player : PlayerGameState)
    (direction : string) (key : Direction) (now : Z) :
  run speed ops !! code = Some game →
  phase game = PLAYING →
  players game !! cid = Some player →
  ownDirection (toUpperCase direction) = Some key →
  let g := grid (maze game) in
  let d := directionVectors key in
  let start := position player in
  (walkableAt g (ahead d start 1) = true →
     ∃ n game' player',
       stopsAfter g d start n ∧
       (∀ m, stopsAfter g d start m → m = n) ∧
       handleMove speed (run speed ops) code cid direction now
         = (<[code := game']> (run speed ops),
            Ok (mkMoveResult (ahead d start n) (n * speed))) ∧
       players game' !! cid = Some player' ∧
       position player' = ahead d start n ∧
       targetPosition player' = Some (ahead d start n) ∧
       movementEndsAt player' = Some (now + n * speed)) ∧
  (walkableAt g (ahead d start 1) = false →
     handleMove speed (run speed ops) code cid direction now
       = (run speed ops, Err INVALID_MOVE)).
Proof.
  intros Hgame Hphase Hplayer Hkey.
  apply glide_outcome; try done.
  by destruct (wfGames_run speed ops code game Hgame).
Qed.

Lemma handleMove_glides_witness :
  ∃ n game' player',
    stopsAfter (grid (maze playingGame)) (directionVectors RIGHT)
      (mkPosition 1 1) n ∧
    handleMove 50 (run 50 playingHistory) "0000" "ann" "right" 6000
      = (<["0000" := game']> (run 50 playingHistory),
         Ok (mkMoveResult (ahead (directionVectors RIGHT) (mkPosition 1 1) n)
               (n * 50))) ∧
    players game' !! "ann" = Some player'.
Proof.
  destruct (handleMove_glides 50 playingHistory "0000" playingGame "ann"
              playingAnn "right" RIGHT 6000) as [H _].
  - vm_compute. reflexivity.
  - reflexivity.
  - vm_compute. reflexivity.
  - reflexivity.
  - destruct H as (n & game' & player' & H1 & _ & H2 & H3 & _).
    + vm_compute. reflexivity.
    + exists n, game', player'. split; [exact H1|]. split; [exact H2|exact H3].
Defined.

End Glide.

Lemma positions_walkable_witness :
  ∃ game player,
    GameSpec.run 50 GameSpec.demoHistory !! "0000" = Some game ∧
    Game.players game !! "ann" = Some player ∧
    MazeSpec.walkable (grid (Game.maze game)) (Game.position player).
Proof.
  destruct (GameSpec.run 50 GameSpec.demoHistory !! "0000") as [game|] eqn:Hg;
    [|vm_compute in Hg; discriminate].
  destruct (Game.players game !! "ann") as [player|] eqn:Hp.
  - exists game, player. split; [reflexivity|]. split; [exact Hp|].
    exact (proj1 (positions_walkable 50 GameSpec.demoHistory "0000" game
                    "ann" player Hg Hp)).
  - exfalso. vm_compute in Hg. injection Hg as <-.
    vm_compute in Hp. discriminate.
Defined.


(** * Further properties of the maze generator *)

Section Shuffle.

Lemma insert_delete_Permutation {T} (l : list T) (i : nat) (a b : T) :
  l !! i = Some a → <[i:=b]> l ≡ₚ b :: delete i l.
Proof.
  intros Hi. apply lookup_lt_Some in Hi as Hlt.
  rewrite insert_take_drop, delete_take_drop by done.
  by rewrite Permutation_middle.
Qed.

Lemma swap_Permutation {T} (l : list T) (i j : nat) : Maze.swap l i j ≡ₚ l.
Proof.
  unfold Maze.swap.
  destruct (l !! i) as [a|] eqn:Ha; [|done].
  destruct (l !! j) as [b|] eqn:Hb; [|done].
  assert (<[i:=b]> l !! j = Some b) as Hj.
  { destruct (decide (i = j)) as [->|Hne].
    - apply list_lookup_insert_eq. by eapply lookup_lt_Some.
    - by rewrite list_lookup_insert_ne. }
  etrans; [apply (insert_delete_Permutation _ j b a Hj)|].
  etrans; [|symmetry; apply (delete_Permutation l i a Ha)].
  apply Permutation_skip, (Permutation_cons_inv (a:=b)).
  etrans; [symmetry; apply (delete_Permutation _ j b Hj)|].
  by apply insert_delete_Permutation with a.
Qed.

Lemma shuffleFrom_Permutation {T} (i : nat) (l : list T) rnd k :
  ∃ l', Maze.shuffleFrom i l rnd k = Some (l', (k + i)%nat) ∧ l' ≡ₚ l.
Proof.
  revert l k. induction i as [|i IH]; intros l k; simpl.
  - exists l. by rewrite Nat.add_0_r.
  - unfold Maze.bind, Maze.randomBelow.
    destruct (IH (Maze.swap l (S i) (rnd k `mod` S (S i))%nat) (S k))
      as (l' & -> & Hl').
    exists l'. split; [do 2 f_equal; lia|].
    by rewrite Hl', swap_Permutation.
Qed.

(** X1: [shuffle] returns, for every outcome of the random draws, a
    rearrangement of its input (every element is kept, as often as it
    occurred), after one draw per element but the first. *)
Theorem shuffle_permutation {T} (input : list T) (rnd : nat → nat) (k : nat) :
  ∃ output,
    Maze.shuffle input rnd k = Some (output, (k + (length input - 1))%nat) ∧
    output ≡ₚ input.
Proof.
  unfold Maze.shuffle.
  destruct (shuffleFrom_Permutation (length input - 1) input rnd k)
    as (output & Hrun & Hperm).
  exists output. split; [exact Hrun | exact Hperm].
Qed.

End Shuffle.

(** ** Carving reaches every room *)

Section Spanning.

Import MazeSpec LatticeSpec.

Lemma closedAt_mono s g g' p :
  (∀ q, walkable g q → walkable g' q) → closedAt s g p → closedAt s g' p.
Proof. intros Hmono Hp d Hd Hx Hy. by apply Hmono, Hp. Qed.

Section CarveClosure.

Variable s : Z.

Section Loop.

(** The recursive call: besides keeping the grid carved, it leaves every
    room that it carved with all its neighbouring rooms carved. *)
Variable rec : MazeGrid → Z → Z → Maze.M MazeGrid.

Hypothesis Hrec :
  ∀ g x y rnd k g' k' g1,
    setCell g x y 1 = Some g1 → carved s g1 →
    x mod 2 = 1 → y mod 2 = 1 →
    rec g x y rnd k = Some (g', k') →
    carved s g' ∧ (∀ p, walkable g1 p → walkable g' p) ∧
    (∀ p, room s p → walkable g' p → walkable g p ∨ closedAt s g' p).

Lemma carveDirs_closes x y :
  x mod 2 = 1 → y mod 2 = 1 →
  ∀ dirs g rnd k g' k',
    (∀ d, d ∈ dirs → d ∈ Maze.DIRECTIONS) →
    carved s g → walkable g (mkPosition x y) →
    Maze.carveDirs rec x y dirs g rnd k = Some (g', k') →
    carved s g' ∧ (∀ p, walkable g p → walkable g' p) ∧
    (∀ p, room s p → walkable g' p → walkable g p ∨ closedAt s g' p) ∧
    (∀ d, d ∈ dirs →
       0 < x + Maze.dx d < 2 * s → 0 < y + Maze.dy d < 2 * s →
       walkable g' (mkPosition (x + Maze.dx d) (y + Maze.dy d))).
Proof.
  intros Hx Hy dirs.
  induction dirs as [|d dirs IH]; intros g rnd k g' k' Hdirs Hg Hc; simpl.
  - intros [= <- <-]. split; [done|]. split; [done|]. split; [by left|].
    intros d Hd. by apply elem_of_nil in Hd.
  - assert (∀ d', d' ∈ dirs → d' ∈ Maze.DIRECTIONS) as Hdirs'.
    { intros d' Hd'. apply Hdirs. by right. }
    destruct (carved_inside _ _ Hg _ Hc) as (Hcx & Hcy & _). simpl in Hcx, Hcy.
    set (side := Z.to_nat (2 * s + 1)) in *.
    assert (Z.of_nat side = 2 * s + 1) as Hside by (subst side; lia).
    pose proof (carved_shape _ _ Hg) as Hshape. fold side in Hshape.
    destruct ((y + Maze.dy d <=? 0) || (y + Maze.dy d >=? rows g - 1) ||
              (x + Maze.dx d <=? 0) || (x + Maze.dx d >=? cols g - 1))
      eqn:Htests.
    { intros Hrest.
      destruct (IH g rnd k g' k' Hdirs' Hg Hc Hrest) as (Hg' & Hm & Hcl & Hall).
      repeat (split; [done|]).
      intros d0 [->|Hd0]%elem_of_cons Hnx Hny; [|by apply Hall].
      exfalso. rewrite (shaped_rows _ _ _ Hshape) in Htests.
      rewrite (shaped_cols _ _ _ Hshape) in Htests by lia.
      rewrite !orb_true_iff in Htests. lia. }
    pose proof (inside_tests _ _ _ _ _ Hshape Htests) as [Hnx Hny].
    case_bool_decide as Hzero; simpl; cycle 1.
    { intros Hrest.
      destruct (IH g rnd k g' k' Hdirs' Hg Hc Hrest) as (Hg' & Hm & Hcl & Hall).
      repeat (split; [done|]).
      intros d0 [->|Hd0]%elem_of_cons Hd0x Hd0y; [|by apply Hall].
      apply Hm, walkable_cell. simpl.
      destruct (cell_is_Some side side g (x + Maze.dx d) (y + Maze.dy d))
        as [v Hv]; [done|lia|lia|].
      destruct (carved_values _ _ Hg _ _ _ Hv) as [->| ->]; [done | by left]. }
    intros (gw & k1 & (Hw & ->)%lift_Some & Hrest)%bind_Some.
    apply bind_Some in Hrest as (g2 & k2 & Hcall & Hrest).
    assert (d ∈ Maze.DIRECTIONS) as Hd by (apply Hdirs; left).
    destruct (setCell_is_Some side side gw (x + Maze.dx d) (y + Maze.dy d) 1)
      as [gn Hn]; [|lia|lia|].
    { eapply setCell_shaped; [|exact Hw]. done. }
    assert (carved s gn) as Hgn.
    { eapply (carved_step s g x y d gw gn); eauto; lia. }
    assert ((x + Maze.dx d) mod 2 = 1 ∧ (y + Maze.dy d) mod 2 = 1
            ∧ ((x + Maze.dx d / 2) mod 2 = 0 ∨ (y + Maze.dy d / 2) mod 2 = 0))
      as (Hnx2 & Hny2 & Hwall).
    { apply DIRECTIONS_cases in Hd.
      destruct Hd as [[-> ->]|[[-> ->]|[[-> ->]|[-> ->]]]];
        change (0 / 2) with 0; change (2 / 2) with 1;
        change (-2 / 2) with (-1); zsolve. }
    destruct (Hrec _ _ _ _ _ _ _ _ Hn Hgn Hnx2 Hny2 Hcall)
      as (Hg2 & Hmono2 & Hcl2).
    assert (∀ p, walkable gw p ↔
                 p = mkPosition (x + Maze.dx d / 2) (y + Maze.dy d / 2)
                 ∨ walkable g p) as Hgw.
    { intros p. apply (walkable_setCell _ _ _ _ _ _ Hw). by left. }
    assert (∀ p, walkable gn p ↔
                 p = mkPosition (x + Maze.dx d) (y + Maze.dy d)
                 ∨ walkable gw p) as Hgnw.
    { intros p. apply (walkable_setCell _ _ _ _ _ _ Hn). by left. }
    assert (∀ p, walkable g p → walkable g2 p) as Hmono.
    { intros p Hp. apply Hmono2, Hgnw. right. apply Hgw. by right. }
    destruct (IH g2 rnd k2 g' k' Hdirs' Hg2 (Hmono _ Hc) Hrest)
      as (Hg' & Hm & Hcl & Hall).
    split; [done|]. split; [by auto|]. split.
    + intros p Hp Hp'. destruct (Hcl p Hp Hp') as [Hp2|?]; [|by right].
      destruct (Hcl2 p Hp Hp2) as [[->|?]%Hgw|Hclosed].
      * exfalso. destruct Hp as (_ & _ & Hpx & Hpy). simpl in *. lia.
      * by left.
      * right. by apply closedAt_mono with g2.
    + intros d0 [->|Hd0]%elem_of_cons Hd0x Hd0y; [|by apply Hall].
      apply Hm, Hmono2, Hgnw. by left.
Qed.

End Loop.

Lemma carveMaze_closes fuel :
  ∀ g x y rnd k g' k' g1,
    setCell g x y 1 = Some g1 → carved s g1 →
    x mod 2 = 1 → y mod 2 = 1 →
    Maze.carveMaze fuel g x y rnd k = Some (g', k') →
    carved s g' ∧ (∀ p, walkable g1 p → walkable g' p) ∧
    (∀ p, room s p → walkable g' p → walkable g p ∨ closedAt s g' p).
Proof.
  induction fuel as [|fuel IH]; intros g x y rnd k g' k' g1 Hset Hg1 Hx Hy;
    simpl; [done|].
  intros (g1' & k1 & (Hset' & ->)%lift_Some & Hrest)%bind_Some.
  assert (g1' = g1) as -> by congruence.
  apply bind_Some in Hrest as (dirs & k2 & Hsh & Hrest).
  destruct (shuffleFrom_Permutation (length Maze.DIRECTIONS - 1)
              Maze.DIRECTIONS rnd k) as (dirs' & Hsh' & Hperm).
  assert (dirs' = dirs) as -> by (unfold Maze.shuffle in Hsh; congruence).
  assert (∀ p, walkable g1 p ↔ p = mkPosition x y ∨ walkable g p) as Hw1.
  { intros p. apply (walkable_setCell _ _ _ _ _ _ Hset). by left. }
  destruct (carveDirs_closes (Maze.carveMaze fuel) IH x y Hx Hy dirs g1 rnd k2
              g' k') as (Hg' & Hm & Hcl & Hall); auto.
  { intros d Hd. by rewrite <- Hperm. }
  { apply Hw1. by left. }
  split; [done|]. split; [done|].
  intros p Hp Hp'. destruct (Hcl p Hp Hp') as [[->|?]%Hw1|?]; auto.
  right. intros d Hd Hdx Hdy. apply Hall; [by rewrite Hperm | done..].
Qed.

End CarveClosure.

(** From the room (1,1) every room is reached by going right, then down. *)
Lemma rooms_connected s g :
  walkable g (mkPosition 1 1) →
  (∀ p, room s p → walkable g p → closedAt s g p) →
  ∀ p, room s p → walkable g p.
Proof.
  intros H11 Hclosed.
  assert (∀ n : nat, 2 * Z.of_nat n + 1 < 2 * s →
            walkable g (mkPosition (2 * Z.of_nat n + 1) 1)) as Hrow.
  { induction n as [|n IH]; intros Hn; [done|].
    assert (room s (mkPosition (2 * Z.of_nat n + 1) 1)) as Hroom.
    { unfold room. simpl. repeat split; zsolve. }
    pose proof (Hclosed _ Hroom (IH ltac:(lia)) (Maze.mkDelta 2 0)) as Hnext.
    unfold beyond in Hnext. simpl in Hnext.
    replace (2 * Z.of_nat (S n) + 1) with (2 * Z.of_nat n + 1 + 2) by lia.
    replace 1 with (1 + 0) at 3 by done.
    apply Hnext; [|lia|lia].
    unfold Maze.DIRECTIONS. rewrite !elem_of_cons. auto. }
  assert (∀ m n : nat, 2 * Z.of_nat n + 1 < 2 * s →
            2 * Z.of_nat m + 1 < 2 * s →
            walkable g (mkPosition (2 * Z.of_nat n + 1) (2 * Z.of_nat m + 1)))
    as Hall.
  { induction m as [|m IH]; intros n Hn Hm; [by apply Hrow|].
    assert (room s (mkPosition (2 * Z.of_nat n + 1) (2 * Z.of_nat m + 1)))
      as Hroom.
    { unfold room. simpl. repeat split; zsolve. }
    pose proof (Hclosed _ Hroom (IH n Hn ltac:(lia)) (Maze.mkDelta 0 2))
      as Hnext.
    unfold beyond in Hnext. simpl in Hnext.
    replace (2 * Z.of_nat (S m) + 1) with (2 * Z.of_nat m + 1 + 2) by lia.
    rewrite <- (Z.add_0_r (2 * Z.of_nat n + 1)).
    apply Hnext; [|lia|lia].
    unfold Maze.DIRECTIONS. rewrite !elem_of_cons. auto. }
  intros [px py] (Hx & Hy & Hx2 & Hy2). simpl in *.
  replace px with (2 * Z.of_nat (Z.to_nat (px / 2)) + 1) by zsolve.
  replace py with (2 * Z.of_nat (Z.to_nat (py / 2)) + 1) by zsolve.
  apply Hall; zsolve.
Qed.

End Spanning.

(** ** The generated maze: rooms, pillars, exit and start *)

Section GeneratedMaze.

Import MazeSpec LatticeSpec.

(** The carving of [generateMaze] leaves every room a path. *)
Lemma carveMaze_rooms size rnd k g1 k1 :
  1 ≤ size →
  Maze.carveMaze (Z.to_nat ((size * 2 + 1) * (size * 2 + 1)))
    (replicate (Z.to_nat (size * 2 + 1))
       (replicate (Z.to_nat (size * 2 + 1)) 0)) 1 1 rnd k = Some (g1, k1) →
  ∀ p, room size p → walkable g1 p.
Proof.
  intros Hs Hcarve.
  replace (size * 2 + 1) with (2 * size + 1) in Hcarve by lia.
  set (side := Z.to_nat (2 * size + 1)) in *.
  destruct (setCell_is_Some side side (replicate side (replicate side 0))
              1 1 1) as [g0 H0];
    [apply replicate_shaped | subst side; lia | subst side; lia |].
  destruct (carveMaze_closes size _ _ _ _ _ _ _ _ g0 H0
              (carved_first size g0 Hs H0) eq_refl eq_refl Hcarve)
    as (Hg1 & Hmono & Hclosed).
  apply rooms_connected.
  - apply Hmono. apply (walkable_setCell _ _ _ _ _ _ H0); by left.
  - intros p Hp Hw. destruct (Hclosed p Hp Hw) as [Hw0|?]; [|done].
    apply walkable_cell in Hw0 as [Hw0|Hw0]; by apply replicate_cell in Hw0.
Qed.

(** X2: the maze generated for a size of at least 1 spans the whole lattice:
    every room (a cell inside the border with two odd coordinates) is a path
    cell, whatever the random draws; and every cell with two even
    coordinates, other than the exit, is a wall. *)
Theorem generateMaze_spanning (size : Z) (rnd : nat → nat) (k : nat) :
  1 ≤ size →
  ∃ m k',
    Maze.generateMaze size rnd k = Some (m, k') ∧
    (∀ p, room size p → cell (grid m) (x p) (y p) = Some 1) ∧
    (∀ p, 0 ≤ x p ≤ 2 * size → 0 ≤ y p ≤ 2 * size →
          x p mod 2 = 0 → y p mod 2 = 0 → p ≠ exit m →
          cell (grid m) (x p) (y p) = Some 0).
Proof.
  intros Hs.
  destruct (generateMaze_run size rnd k Hs)
    as (g1 & k1 & exits & e & k2 & g2 & st & Hcarve & Hg1 & _ & _ & _ & _ & _
        & Hcand & Hset & _ & Hgen).
  eexists _, _. split; [exact Hgen|]. simpl. split.
  - intros p Hp. rewrite (setCell_cell _ _ _ _ _ _ _ Hset).
    rewrite bool_decide_eq_false_2.
    + pose proof (carveMaze_rooms size rnd k g1 k1 Hs Hcarve p Hp) as Hw.
      apply walkable_cell in Hw as [Hw|Hw]; [done|].
      apply (carved_values _ _ Hg1) in Hw. lia.
    + destruct Hp as (Hx & Hy & _). unfold candidate in Hcand. lia.
  - intros p Hx Hy Hx2 Hy2 Hne. rewrite (setCell_cell _ _ _ _ _ _ _ Hset).
    rewrite bool_decide_eq_false_2.
    + destruct (cell_is_Some _ _ g1 (x p) (y p) (carved_shape _ _ Hg1))
        as [v Hv]; [lia|lia|].
      rewrite Hv. destruct (carved_values _ _ Hg1 _ _ _ Hv) as [->| ->]; [done|].
      assert (walkable g1 p) as Hw by (apply walkable_cell; by left).
      apply (carved_inside _ _ Hg1) in Hw. lia.
    + intros [Hex Hey]. apply Hne. destruct p, e. simpl in *. by subst.
Qed.

Lemma generateMaze_spanning_witness :
  ∃ m k', Maze.generateMaze 2 (λ n, n * 5 + 1)%nat 0%nat = Some (m, k') ∧
          cell (grid m) 3 3 = Some 1 ∧ cell (grid m) 2 2 = Some 0.
Proof.
  destruct (generateMaze_spanning 2 (λ n, n * 5 + 1)%nat 0%nat)
    as (m & k' & Hgen & Hrooms & Hpillars).
  - lia.
  - exists m, k'. split; [exact Hgen|]. split.
    + apply (Hrooms (mkPosition 3 3)). unfold room. simpl.
      repeat split; (lia || reflexivity).
    + apply (Hpillars (mkPosition 2 2)); simpl; try lia; try reflexivity.
      vm_compute in Hgen. injection Hgen as <- _. simpl. discriminate.
Defined.

(** X3: in the maze generated for a size of at least 1 the exit is the only
    cell that holds 2, the start is another cell, it holds 1, and it is at
    least one step away from the exit: the players of a new game never stand
    on the exit. *)
Theorem generateMaze_exit_unique (size : Z) (rnd : nat → nat) (k : nat) :
  1 ≤ size →
  ∃ m k' n,
    Maze.generateMaze size rnd k = Some (m, k') ∧
    (∀ i j, cell (grid m) i j = Some 2 ↔ mkPosition i j = exit m) ∧
    start m ≠ exit m ∧
    cell (grid m) (x (start m)) (y (start m)) = Some 1 ∧
    distance (grid m) (exit m) (start m) (S n).
Proof.
  intros Hs.
  destruct (generateMaze_run size rnd k Hs)
    as (g1 & k1 & exits & e & k2 & g2 & st & _ & Hg1 & _ & _ & _ & _ & _
        & Hcand & Hset & Hst & Hgen).
  destruct (exit_opened size g1 e g2 Hs Hg1 Hcand Hset)
    as (_ & Hwalk & _ & Hadj & Hin).
  assert (∀ i j, cell g2 i j = Some 2 ↔ mkPosition i j = e) as Htwo.
  { intros i j. rewrite (setCell_cell _ _ _ _ _ _ _ Hset).
    case_bool_decide as Hij.
    - destruct Hij as [-> ->]. by destruct e.
    - split.
      + intros H2. apply (carved_values _ _ Hg1) in H2. lia.
      + intros <-. simpl in Hij. lia. }
  destruct (computeFarthestPosition_farthest g2 e)
    as (n & far & rest & Hfar & _ & _ & Hdist & Hmax).
  assert (far = st) as -> by congruence.
  assert (link g2 e (inward size e)) as Hlink.
  { split; [done|].
    assert (shaped (Z.to_nat (2 * size + 1)) (Z.to_nat (2 * size + 1)) g2)
      as Hshape.
    { eapply setCell_shaped; [apply (carved_shape _ _ Hg1) | exact Hset]. }
    destruct (cell_shaped _ _ _ _ _ _ Hshape Hin) as [Hx Hy].
    rewrite (shaped_rows _ _ _ Hshape).
    rewrite (shaped_cols _ _ _ Hshape) by lia.
    split; [lia|]. split; [lia|]. apply walkable_cell. by left. }
  assert (n ≠ 0%nat) as Hn.
  { intros ->.
    destruct (Hmax (inward size e) 1%nat) as (d & [Hd _] & Hle).
    { apply walk_step with e; [constructor | done]. }
    assert (d = 0%nat) as -> by lia. inversion Hd as [Heq|]; subst.
    apply (adjacent_irrefl e). by rewrite Heq at 2. }
  destruct n as [|n]; [done|].
  assert (st ≠ e) as Hne.
  { intros ->. destruct Hdist as [_ Hmin].
    specialize (Hmin 0%nat (walk_here g2 e)). lia. }
  exists (mkMazeMetadata g2 (size * 2 + 1) (size * 2 + 1) st e), k2, n.
  simpl. split; [done|]. split; [done|]. split; [done|]. split; [|done].
  destruct Hdist as [Hw _]. apply walk_walkable in Hw as [?|Hw]; [done|].
  apply walkable_cell in Hw as [?|Hw]; [done|].
  apply Htwo in Hw. destruct st. simpl in *. done.
Qed.

Lemma generateMaze_exit_unique_witness :
  ∃ m k', Maze.generateMaze 1 (λ n, n) 0%nat = Some (m, k') ∧
          start m ≠ exit m.
Proof.
  destruct (generateMaze_exit_unique 1 (λ n, n) 0%nat)
    as (m & k' & n & Hgen & _ & Hne & _).
  - lia.
  - exists m, k'. split; [exact Hgen | exact Hne].
Defined.

End GeneratedMaze.

(** ** The search: neighbours and farthest cell on any grid *)

Section SearchAnyGrid.

Import MazeSpec LatticeSpec.

Lemma neighbor_chunk_sublist g c :
  (if (y c <? 0) || (y c >=? rows g) then []
   else if (x c <? 0) || (x c >=? cols g) then []
   else if negb (Maze.isPath g c) then [] else [c]) `sublist_of` [c].
Proof. repeat case_match; (done || apply sublist_nil_l). Qed.

(** X4: [neighbors] lists exactly the cells that are adjacent to [pos], lie
    inside the grid and hold a path or the exit; it lists them once each, in
    the order up, right, down, left; and a walkable cell of the grid is a
    neighbour of each of its neighbours. *)
Theorem neighbors_spec (g : MazeGrid) (p : Position) :
  (∀ q, q ∈ Maze.neighbors g p ↔ link g p q) ∧
  Maze.neighbors g p `sublist_of` around p ∧
  NoDup (Maze.neighbors g p) ∧
  (∀ q, q ∈ Maze.neighbors g p →
        0 ≤ y p < rows g → 0 ≤ x p < cols g → walkable g p →
        p ∈ Maze.neighbors g q).
Proof.
  assert (Maze.neighbors g p `sublist_of` around p) as Hsub.
  { unfold Maze.neighbors, Maze.deltas, around. simpl. rewrite app_nil_r.
    replace (x p + 0) with (x p) by lia. replace (y p + 0) with (y p) by lia.
    replace (y p + -1) with (y p - 1) by lia.
    replace (x p + -1) with (x p - 1) by lia.
    apply (sublist_app _ [_] _ [_; _; _]);
      [apply (neighbor_chunk_sublist g (mkPosition (x p) (y p - 1)))|].
    apply (sublist_app _ [_] _ [_; _]);
      [apply (neighbor_chunk_sublist g (mkPosition (x p + 1) (y p)))|].
    apply (sublist_app _ [_] _ [_]).
    - apply (neighbor_chunk_sublist g (mkPosition (x p) (y p + 1))).
    - apply (neighbor_chunk_sublist g (mkPosition (x p - 1) (y p))). }
  split; [apply elem_of_neighbors|]. split; [done|]. split.
  - eapply sublist_NoDup; [|exact Hsub]. unfold around.
    rewrite !NoDup_cons, !not_elem_of_cons, elem_of_nil.
    repeat split; try apply NoDup_nil_2; try apply not_elem_of_nil;
      try (intros [=]; lia). tauto.
  - intros q (Hadj & _)%elem_of_neighbors Hy Hx Hw.
    apply elem_of_neighbors. split; [by apply adjacent_sym | done].
Qed.

Lemma walk_first g a b n : walk g a b (S n) → ∃ c, link g a c.
Proof.
  remember (S n) as m eqn:Hm. intros Hw. revert n Hm.
  induction Hw as [|b c m Hw IH Hbc]; intros n Hn; [done|].
  destruct m as [|m]; [|by eapply IH].
  inversion Hw; subst. eauto.
Qed.

(** X5: on every grid and from every cell [start], [computeFarthestPosition]
    returns: the loop ends.  The cell returned is at the greatest
    breadth-first distance from [start] that any reachable cell has, and it is
    the first cell at that distance in the order of discovery of a first-in
    first-out search.  When [start] has no walkable neighbour in the grid the
    cell returned is [start] itself. *)
Theorem computeFarthestPosition_any_grid (g : MazeGrid) (s : Position) :
  ∃ far n pre rest,
    Maze.computeFarthestPosition g s = Some far ∧
    distance g s far n ∧
    (∀ p m, walk g s p m → ∃ d, distance g s p d ∧ (d ≤ n)%nat) ∧
    discoveryOrder g s = pre ++ far :: rest ∧
    (∀ q, q ∈ pre → ∃ d, distance g s q d ∧ (d < n)%nat) ∧
    (Maze.neighbors g s = [] → far = s).
Proof.
  destruct (computeFarthestPosition_farthest g s)
    as (n & far & rest & Hfar & Hlevel & Horder & Hdist & Hmax).
  exists far, n, (foundBefore g s n), rest.
  repeat (split; [done|]). split.
  - intros q (d & Hd & Hq)%foundBefore_level. exists d.
    split; [by apply level_distance | done].
  - intros Hnone. destruct Hdist as [Hw _]. destruct n as [|n].
    + by inversion Hw.
    + apply walk_first in Hw as [c Hc%elem_of_neighbors].
      rewrite Hnone in Hc. by apply elem_of_nil in Hc.
Qed.

End SearchAnyGrid.

(** * Further properties of the game engine *)

Section Engine.

Import Game GameSpec MazeSpec EngineSpec.

(** [generateMaze] returns only for sizes of at least 1: for a smaller size
    the row [grid[1]] that [carveMaze] writes first does not exist. *)
Lemma generateMaze_size size rnd k m k' :
  Maze.generateMaze size rnd k = Some (m, k') → 1 ≤ size.
Proof.
  unfold Maze.generateMaze. intros (g1 & k1 & Hcarve & _)%bind_Some.
  destruct (Z.to_nat ((size * 2 + 1) * (size * 2 + 1))) as [|fuel]; [done|].
  simpl in Hcarve.
  apply bind_Some in Hcarve as (g0 & k0 & (Hset & _)%lift_Some & _).
  unfold setCell in Hset. case_bool_decide; [|done].
  destruct (replicate _ _ !! Z.to_nat 1) as [row|] eqn:Hrow; [|done].
  apply lookup_replicate in Hrow as [_ Hlt]. lia.
Qed.

(** The layout of a generated maze. *)
Lemma generated_layout m :
  generated m →
  ∃ size, 1 ≤ size ∧
    shaped (Z.to_nat (2 * size + 1)) (Z.to_nat (2 * size + 1)) (grid m) ∧
    perfect (grid m) ∧
    (∀ i j, cell (grid m) i j = Some 2 ↔ mkPosition i j = exit m) ∧
    walkable (grid m) (exit m) ∧ walkable (grid m) (start m) ∧
    start m ≠ exit m.
Proof.
  intros (size & rnd & k & k' & Hs & Hgen). exists size. split; [done|].
  destruct (generateMaze_run size rnd k Hs)
    as (g1 & k1 & exits & e & k2 & g2 & st & _ & Hg1 & _ & _ & _ & _ & _
        & Hcand & Hset & Hst & Hgen').
  rewrite Hgen in Hgen'. injection Hgen' as -> _. simpl.
  destruct (exit_opened size g1 e g2 Hs Hg1 Hcand Hset)
    as (Hperfect & Hwalk & _ & Hadj & Hin).
  assert (shaped (Z.to_nat (2 * size + 1)) (Z.to_nat (2 * size + 1)) g2)
    as Hshape.
  { eapply setCell_shaped; [apply (carved_shape _ _ Hg1) | exact Hset]. }
  destruct (computeFarthestPosition_farthest g2 e)
    as (n & far & rest & Hfar & _ & _ & Hdist & Hmax).
  assert (far = st) as -> by congruence.
  split; [done|]. split; [done|]. split.
  { intros i j. rewrite (setCell_cell _ _ _ _ _ _ _ Hset).
    case_bool_decide as Hij.
    - destruct Hij as [-> ->]. by destruct e.
    - split.
      + intros H2. apply (carved_values _ _ Hg1) in H2. lia.
      + intros <-. simpl in Hij. lia. }
  split; [apply Hwalk; by left|].
  assert (st ≠ e) as Hne.
  { intros ->. destruct Hdist as [_ Hmin].
    specialize (Hmin 0%nat (walk_here g2 e)). assert (n = 0%nat) as -> by lia.
    destruct (Hmax (inward size e) 1%nat) as (d & [Hd _] & Hle).
    { apply walk_step with e; [constructor|]. split; [done|].
      destruct (cell_shaped _ _ _ _ _ _ Hshape Hin) as [Hx Hy].
      rewrite (shaped_rows _ _ _ Hshape).
      rewrite (shaped_cols _ _ _ Hshape) by lia.
      split; [lia|]. split; [lia|]. apply walkable_cell. by left. }
    assert (d = 0%nat) as -> by lia. inversion Hd as [Heq|]; subst.
    apply (adjacent_irrefl e). by rewrite Heq at 2. }
  split; [|done].
  destruct Hdist as [Hw _]. by apply walk_walkable in Hw as [?|Hw].
Qed.

Lemma initialPlayers_fields st infos cid player :
  initialPlayers st infos !! cid = Some player →
  clientId player = cid ∧ position player = st ∧
  targetPosition player = None ∧ movementEndsAt player = None.
Proof.
  unfold initialPlayers.
  assert (∀ acc : gmap string PlayerGameState,
    (∀ c p, acc !! c = Some p →
       clientId p = c ∧ position p = st ∧
       targetPosition p = None ∧ movementEndsAt p = None) →
    fold_left (λ acc player,
      <[infoClientId player :=
          mkPlayerGameState (infoClientId player) (infoName player)
            st None None]> acc) infos acc !! cid = Some player →
    clientId player = cid ∧ position player = st ∧
    targetPosition player = None ∧ movementEndsAt player = None) as Hgen.
  { induction infos as [|info infos IH]; intros acc Hacc; simpl.
    - apply Hacc.
    - apply IH. intros c p. rewrite lookup_insert. case_decide.
      + intros [= <-]. by subst.
      + apply Hacc. }
  apply Hgen. intros c p. by rewrite lookup_empty.
Qed.

(** Every request keeps the games sound. *)
Lemma soundGames_insert games code game :
  soundGames games → soundGame code game →
  soundGames (<[code := game]> games).
Proof.
  intros Hs Hg code' game'. rewrite lookup_insert. case_decide.
  - intros [= <-]. by subst.
  - apply Hs.
Qed.

Lemma soundGames_delete games code :
  soundGames games → soundGames (delete code games).
Proof.
  intros Hs code' game'. rewrite lookup_delete. case_decide; [done|].
  apply Hs.
Qed.

Lemma soundGames_createGame games code size infos now rnd k games' game k' :
  soundGames games →
  createGame games code size infos now rnd k = Some (games', game, k') →
  soundGames games'.
Proof.
  intros Hs. unfold createGame.
  intros (m & k1 & Hgen & Hret)%bind_Some. injection Hret as <- <- <-.
  apply soundGames_insert; [done|]. split; simpl; try done.
  - exists size, rnd, k, k1. split; [by eapply generateMaze_size | done].
  - intros cid player Hp. by apply initialPlayers_fields in Hp as (? & _).
  - intros _. split; [done|]. split; [done|].
    intros cid player Hp. by apply initialPlayers_fields in Hp as (_ & ? & ?).
Qed.

Variable speed : Z.

Lemma soundGames_handleMove games code cid direction now :
  soundGames games →
  soundGames (handleMove speed games code cid direction now).1.
Proof.
  intros Hs. unfold handleMove.
  destruct (games !! code) as [game|] eqn:Hgame; [|done].
  case_bool_decide as Hphase; simpl; [|done].
  destruct (players game !! cid) as [player|] eqn:Hplayer; [|done].
  destruct (ownDirection _) as [key|]; [|done].
  destruct (moveToNextJunction _ _ _) as [[p steps]|e] eqn:Hmove; [|done].
  simpl. destruct (Hs _ _ Hgame) as [Hc Hm Hids Hfin Hwin Hwait Hwindow].
  apply soundGames_insert; [done|]. split; simpl; try done.
  - intros cid' player'. rewrite lookup_insert. case_decide.
    + intros [= <-]. simpl. subst. by apply Hids.
    + apply Hids.
  - case_bool_decide as Hexit; [|by rewrite Hphase].
    intros _. eexists cid, _. split; [done|].
    rewrite lookup_insert_eq. split; [done|]. done.
  - intros w. case_bool_decide as Hexit.
    + intros [= <-]. rewrite lookup_insert_eq. eauto.
    + intros Hw. rewrite lookup_insert. case_decide; [eauto | by apply Hwin].
  - case_bool_decide; [done | by rewrite Hphase].
Qed.

Lemma soundGames_apply games op :
  soundGames games → soundGames (apply speed games op).
Proof.
  intros Hs.
  destruct op as [rnd k c size infos now | rnd k c size infos now | c
                 | c secs now | c now now' | c req | c cid now | c cid now | now];
    simpl.
  - destruct (createGame _ _ _ _ _ _ _) as [[[games' game] k']|] eqn:E;
      [|done].
    by eapply soundGames_createGame.
  - unfold restartGame.
    destruct (createGame _ _ _ _ _ _ _) as [[[games' game] k']|] eqn:E.
    + eapply soundGames_createGame; [|exact E]. by apply soundGames_delete.
    + by apply soundGames_delete.
  - by apply soundGames_delete.
  - unfold startCountdown.
    destruct (games !! c) as [game|] eqn:E; [|done]. simpl.
    apply soundGames_insert; [done|].
    destruct (Hs _ _ E) as [Hc Hm Hids Hfin Hwin Hwait Hwindow].
    by split.
  - unfold beginGame.
    destruct (games !! c) as [game|] eqn:E; [|done]. simpl.
    apply soundGames_insert; [done|].
    destruct (Hs _ _ E) as [Hc Hm Hids Hfin Hwin Hwait Hwindow].
    by split.
  - by apply soundGames_handleMove.
  - unfold markPlayerDisconnected.
    destruct (games !! c) as [game|] eqn:E; [|done].
    destruct (players game !! cid); [|done]. simpl.
    apply soundGames_insert; [done|].
    destruct (Hs _ _ E) as [Hc Hm Hids Hfin Hwin Hwait Hwindow].
    by split.
  - unfold markPlayerReconnected.
    destruct (games !! c) as [game|] eqn:E; [|done].
    destruct (players game !! cid); [|done]. simpl.
    apply soundGames_insert; [done|].
    destruct (Hs _ _ E) as [Hc Hm Hids Hfin Hwin Hwait Hwindow].
    by split.
  - unfold expireOldGames. intros code game Hg.
    apply map_lookup_filter_Some in Hg as [Hg _]. by apply (Hs code).
Qed.

Lemma soundGames_run ops : soundGames (run speed ops).
Proof.
  unfold run.
  assert (soundGames (∅ : Games)) as Hempty.
  { intros code game H. by rewrite lookup_empty in H. }
  revert Hempty. generalize (∅ : Games).
  induction ops as [|op ops IH]; intros games Hs; simpl; [done|].
  by apply IH, soundGames_apply.
Qed.

End Engine.

Section EngineInvariants.

Import Game GameSpec MazeSpec EngineSpec.

(** X6: in every store reached by a history of game-engine requests, a game
    is stored under its own lobby code, its maze is one that [generateMaze]
    returned, and its players are stored under their own ids.  A game in
    phase FINISHED has a winner, who is one of its players and stands on the
    exit; a recorded winner is always a player of the game; and in phase
    WAITING nobody has won, no start time is set and every player stands on
    the start.  The reconnect deadline is always set. *)
Theorem game_invariants (speed : Z) (ops : list Op) (code : string)
    (game : GameState) :
  run speed ops !! code = Some game →
  lobbyCode game = code ∧
  generated (maze game) ∧
  (∀ cid player, players game !! cid = Some player → clientId player = cid) ∧
  (phase game = FINISHED →
     ∃ w player, winnerId game = Some w ∧ players game !! w = Some player ∧
                 position player = exit (maze game)) ∧
  (∀ w, winnerId game = Some w → is_Some (players game !! w)) ∧
  (phase game = WAITING →
     winnerId game = None ∧ startedAt game = None ∧
     ∀ cid player, players game !! cid = Some player →
       position player = start (maze game)) ∧
  is_Some (allowReconnectUntil game).
Proof.
  intros Hgame.
  destruct (soundGames_run speed ops code game Hgame)
    as [Hc Hm Hids Hfin Hwin Hwait Hwindow].
  repeat (split; [done|]). split; [|split; [done|split; [|done]]].
  - intros (w & player & Hw & Hp & Hcell)%Hfin. exists w, player.
    split; [done|]. split; [done|].
    destruct (generated_layout _ Hm) as (size & _ & _ & _ & Htwo & _).
    apply Htwo in Hcell. by destruct (position player).
  - intros (Hw & Hst & Hpos)%Hwait. split; [done|]. split; [done|].
    intros cid player Hp. by destruct (Hpos cid player Hp).
Qed.

Lemma game_invariants_witness :
  ∃ game, run 50 demoHistory !! "0000" = Some game ∧
          lobbyCode game = "0000" ∧ is_Some (allowReconnectUntil game).
Proof.
  destruct (run 50 demoHistory !! "0000") as [game|] eqn:Hg;
    [|vm_compute in Hg; discriminate].
  exists game. split; [reflexivity|].
  destruct (game_invariants 50 demoHistory "0000" game Hg)
    as (H1 & _ & _ & _ & _ & _ & H2).
  split; [exact H1 | exact H2].
Defined.

(** X7: a player of a game in phase PLAYING is never stuck: in every store
    reached by a history of requests, at least one of the four directions is
    a legal move for the player. *)
Theorem player_can_move (speed : Z) (ops : list Op) (code : string)
    (game : GameState) (cid : string) (player : PlayerGameState) (now : Z) :
  run speed ops !! code = Some game →
  phase game = PLAYING →
  players game !! cid = Some player →
  ∃ direction games' r,
    direction ∈ directionNames ∧
    handleMove speed (run speed ops) code cid direction now = (games', Ok r).
Proof.
  intros Hgame Hphase Hplayer.
  destruct (soundGames_run speed ops code game Hgame) as [_ Hm _ _ _ _ _].
  destruct (wfGames_run speed ops code game Hgame) as [Hgrid Hpos].
  specialize (Hpos cid player Hplayer).
  destruct (generated_layout _ Hm)
    as (size & Hs & Hshape & Hperfect & _ & Hexit & Hstart & Hne).
  set (g := grid (maze game)) in *. set (p := position player) in *.
  assert (∃ q, walkable g q ∧ q ≠ p) as (q & Hq & Hqp).
  { destruct (decide (p = exit (maze game))) as [->|?].
    - exists (start (maze game)). done.
    - exists (exit (maze game)). done. }
  destruct (Hperfect p q Hpos Hq) as (l & Hl & _).
  inversion Hl as [|a c b l' _ Hadj _ Hrest]; subst; [done|].
  pose proof (pathIn_first_P _ _ _ _ Hrest) as Hc.
  assert (walkableAt g c = true) as Hwc.
  { apply bool_decide_eq_true. apply walkable_cell in Hc as Hcell.
    assert (∃ v, cell g (x c) (y c) = Some v) as [v Hv]
      by (destruct Hcell; eauto).
    destruct (cell_shaped _ _ _ _ _ _ Hshape Hv) as [Hx Hy].
    rewrite (shaped_rows _ _ _ Hshape).
    rewrite (shaped_cols _ _ _ Hshape) by lia. done. }
  assert (∃ key, ahead (directionVectors key) p 1 = c) as [key Hkey].
  { unfold adjacent in Hadj. destruct p as [px py], c as [cx cy].
    simpl in Hadj.
    assert (cx = px ∧ cy = py - 1 ∨ cx = px ∧ cy = py + 1 ∨
            cx = px - 1 ∧ cy = py ∨ cx = px + 1 ∧ cy = py)
      as [[-> ->]|[[-> ->]|[[-> ->]|[-> ->]]]] by lia.
    - exists UP. unfold ahead. simpl. f_equal; lia.
    - exists DOWN. unfold ahead. simpl. f_equal; lia.
    - exists LEFT. unfold ahead. simpl. f_equal; lia.
    - exists RIGHT. unfold ahead. simpl. f_equal; lia. }
  set (direction := match key with
                    | UP => "UP" | DOWN => "DOWN"
                    | LEFT => "LEFT" | RIGHT => "RIGHT"
                    end : string).
  assert (ownDirection (toUpperCase direction) = Some key) as Hown
    by (by destruct key).
  destruct (glide_outcome speed (run speed ops) code game cid player
              direction key now Hgame Hphase Hplayer Hown Hgrid) as [Hok _].
  destruct Hok as (n & game' & player' & _ & _ & Hmove & _).
  { fold p. by rewrite Hkey. }
  eexists direction, _, _. split; [|exact Hmove].
  unfold directionNames. rewrite !elem_of_cons. destruct key; auto.
Qed.

Lemma player_can_move_witness :
  ∃ direction games' r,
    direction ∈ directionNames ∧
    handleMove 50 (run 50 playingHistory) "0000" "bob" direction 7000
      = (games', Ok r).
Proof.
  apply (player_can_move 50 playingHistory "0000" playingGame "bob"
           (mkPlayerGameState "bob" "Bob" (mkPosition 1 1) None None)).
  - vm_compute. reflexivity.
  - reflexivity.
  - vm_compute. reflexivity.
Defined.

End EngineInvariants.

(** ** What the requests leave untouched *)

Section EngineFrame.

Import Game GameSpec MazeSpec EngineSpec.

Variable speed : Z.

(** A successful move rewrites the entry of the mover, and the phase and
    winner of the game; nothing else. *)
Lemma handleMove_frame games code cid direction now games' r :
  handleMove speed games code cid direction now = (games', Ok r) →
  ∃ game game' player player',
    games !! code = Some game ∧ players game !! cid = Some player ∧
    games' = <[code := game']> games ∧
    players game' = <[cid := player']> (players game) ∧
    maze game' = maze game ∧ lobbyCode game' = lobbyCode game ∧
    startedAt game' = startedAt game ∧
    allowReconnectUntil game' = allowReconnectUntil game ∧
    clientId player' = clientId player ∧ name player' = name player ∧
    position player' = resultPosition r.
Proof.
  unfold handleMove.
  destruct (games !! code) as [game|] eqn:Hgame; [|done].
  destruct (negb _); [done|].
  destruct (players game !! cid) as [player|] eqn:Hplayer; [|done].
  destruct (ownDirection _) as [key|]; [|done].
  destruct (moveToNextJunction _ _ _) as [[p steps]|e]; [|done].
  intros [= <- <-]. by eexists game, _, player, _.
Qed.

Lemma move_unchanged games code request games' e :
  move speed games code request = (games', Err e) → games' = games.
Proof.
  unfold move. intros H.
  pose proof (handleMove_error speed games code (reqClientId request)
                (reqDirection request) (reqNow request) e) as He.
  rewrite H in He. specialize (He eq_refl (reqNow request)). congruence.
Qed.

(** X8: a sequence of move requests on one game answers every request and
    touches nothing but the movers: the other games of the store stay as
    they are, and in the game itself the maze, the set of players, and the
    entry of every player who sent no request are unchanged. *)
Theorem moves_frame (games : Games) (code : string)
    (requests : list MoveRequest) :
  let games' := (moves speed games code requests).1 in
  length (moves speed games code requests).2 = length requests ∧
  (∀ c, c ≠ code → games' !! c = games !! c) ∧
  (games !! code = None → games' = games) ∧
  (∀ game, games !! code = Some game →
     ∃ game', games' !! code = Some game' ∧
       maze game' = maze game ∧
       dom (players game') = dom (players game) ∧
       ∀ cid, cid ∉ reqClientId <$> requests →
              players game' !! cid = players game !! cid).
Proof.
  revert games. induction requests as [|request requests IH]; intros games.
  { simpl. split; [done|]. split; [done|]. split; [done|].
    intros game Hgame. by exists game. }
  simpl. destruct (move speed games code request) as [games1 outcome] eqn:Hm.
  specialize (IH games1).
  destruct (moves speed games1 code requests) as [games2 outcomes] eqn:Hms.
  simpl in *. destruct IH as (Hlen & Hother & Hnone & Hsame).
  split; [by rewrite Hlen|].
  destruct outcome as [r|e].
  - unfold move in Hm.
    apply handleMove_frame in Hm
      as (game & game1 & player & player1 & Hgame & Hplayer & -> & Hplayers
          & Hmaze & _).
    split; [|split].
    + intros c Hc. rewrite (Hother c Hc). by rewrite lookup_insert_ne.
    + intros Hno. congruence.
    + intros game0 Hgame0. assert (game0 = game) as -> by congruence.
      destruct (Hsame game1) as (game' & Hg' & Hm' & Hdom & Hkeep).
      { by rewrite lookup_insert_eq. }
      exists game'. split; [done|]. split; [congruence|]. split.
      * rewrite Hdom, Hplayers. apply dom_insert_lookup_L. eauto.
      * intros cid Hcid. apply not_elem_of_cons in Hcid as [Hne Hcid].
        rewrite (Hkeep cid Hcid), Hplayers. by rewrite lookup_insert_ne.
  - apply move_unchanged in Hm as ->.
    split; [done|]. split; [done|].
    intros game Hgame. destruct (Hsame game Hgame)
      as (game' & Hg' & Hm' & Hdom & Hkeep).
    exists game'. repeat (split; [done|]).
    intros cid Hcid. apply not_elem_of_cons in Hcid as [_ Hcid]. auto.
Qed.

(** X9: the maze of a game is immutable, and so is its set of players: when
    a game is in the store after a request, either the request is a
    [createGame] or [restartGame] for that lobby code, or the game was in
    the store before, with the same maze, the same players and the same
    lobby code. *)
Theorem maze_immutable (games : Games) (op : Op) (code : string)
    (game' : GameState) :
  apply speed games op !! code = Some game' →
  creates op code ∨
  ∃ game, games !! code = Some game ∧ maze game' = maze game ∧
          dom (players game') = dom (players game) ∧
          lobbyCode game' = lobbyCode game.
Proof.
  intros Happ.
  assert (∀ c (game1 : GameState),
    <[c := game1]> games !! code = Some game' →
    is_Some (games !! c) →
    (∀ game, games !! c = Some game →
       maze game1 = maze game ∧ dom (players game1) = dom (players game)
       ∧ lobbyCode game1 = lobbyCode game) →
    ∃ game, games !! code = Some game ∧ maze game' = maze game ∧
            dom (players game') = dom (players game) ∧
            lobbyCode game' = lobbyCode game) as Hupd.
  { intros c game1 Hg [game Hgame] Hsame. revert Hg.
    rewrite lookup_insert. case_decide.
    - intros [= <-]. subst. exists game. split; [done|]. by apply Hsame.
    - intros Hg. by exists game'. }
  destruct op as [rnd k c size infos now | rnd k c size infos now | c
                 | c secs now | c now now' | c req | c cid now | c cid now | now];
    simpl in Happ.
  - destruct (decide (c = code)) as [|Hne]; [by left|]. right.
    destruct (createGame _ _ _ _ _ _ _) as [[[games1 game1] k1]|] eqn:E.
    + unfold createGame in E.
      apply bind_Some in E as (m & k2 & _ & Hret). injection Hret as <- <- <-.
      rewrite lookup_insert_ne in Happ by done. by exists game'.
    + by exists game'.
  - destruct (decide (c = code)) as [|Hne]; [by left|]. right.
    unfold restartGame in Happ.
    destruct (createGame _ _ _ _ _ _ _) as [[[games1 game1] k1]|] eqn:E.
    + unfold createGame in E.
      apply bind_Some in E as (m & k2 & _ & Hret). injection Hret as <- <- <-.
      rewrite lookup_insert_ne, lookup_delete_ne in Happ by done.
      by exists game'.
    + rewrite lookup_delete_ne in Happ by done. by exists game'.
  - right. unfold removeGame in Happ.
    apply lookup_delete_Some in Happ as [_ Happ]. by exists game'.
  - right. unfold startCountdown in Happ.
    destruct (games !! c) as [game|] eqn:E; simpl in Happ; [|by exists game'].
    eapply Hupd; [exact Happ | by rewrite E |].
    intros game0 Hg0. rewrite E in Hg0. by injection Hg0 as <-.
  - right. unfold beginGame in Happ.
    destruct (games !! c) as [game|] eqn:E; simpl in Happ; [|by exists game'].
    eapply Hupd; [exact Happ | by rewrite E |].
    intros game0 Hg0. rewrite E in Hg0. by injection Hg0 as <-.
  - right.
    destruct (move speed games c req) as [games1 [r|e]] eqn:Hm;
      simpl in Happ.
    + unfold move in Hm.
      apply handleMove_frame in Hm
        as (game & game1 & player & player1 & Hgame & Hplayer & -> & Hplayers
            & Hmaze & Hcode & _).
      eapply Hupd; [exact Happ | by rewrite Hgame |].
      intros game0 Hg0. assert (game0 = game) as -> by congruence.
      split; [done|]. split; [|done].
      rewrite Hplayers. apply dom_insert_lookup_L. eauto.
    + apply move_unchanged in Hm as ->. by exists game'.
  - right. unfold markPlayerDisconnected in Happ.
    destruct (games !! c) as [game|] eqn:E; simpl in Happ; [|by exists game'].
    destruct (players game !! cid); simpl in Happ; [|by exists game'].
    eapply Hupd; [exact Happ | by rewrite E |].
    intros game0 Hg0. rewrite E in Hg0. by injection Hg0 as <-.
  - right. unfold markPlayerReconnected in Happ.
    destruct (games !! c) as [game|] eqn:E; simpl in Happ; [|by exists game'].
    destruct (players game !! cid); simpl in Happ; [|by exists game'].
    eapply Hupd; [exact Happ | by rewrite E |].
    intros game0 Hg0. rewrite E in Hg0. by injection Hg0 as <-.
  - right. unfold expireOldGames in Happ.
    apply map_lookup_filter_Some in Happ as [Happ _]. by exists game'.
Qed.

End EngineFrame.

Lemma maze_immutable_witness :
  ∃ game',
    GameSpec.apply 50 (GameSpec.run 50 GameSpec.playingHistory)
      (GameSpec.OpHandleMove "0000"
         (GameSpec.mkMoveRequest "ann" "right" 6000)) !! "0000" = Some game' ∧
    Game.maze game' = Game.maze GameSpec.playingGame.
Proof.
  destruct (GameSpec.apply 50 (GameSpec.run 50 GameSpec.playingHistory)
              (GameSpec.OpHandleMove "0000"
                 (GameSpec.mkMoveRequest "ann" "right" 6000)) !! "0000")
    as [game'|] eqn:Hg; [|vm_compute in Hg; discriminate].
  exists game'. split; [reflexivity|].
  destruct (maze_immutable 50 _ _ _ _ Hg) as [[]|(game & Hgame & Hmaze & _)].
  rewrite Hmaze. vm_compute in Hgame. by injection Hgame as <-.
Defined.

(** ** Creation, restart, expiry and refusals *)

Section EngineLifecycle.

Import Game GameSpec MazeSpec EngineSpec.

Lemma initialPlayers_dom st infos cid :
  is_Some (initialPlayers st infos !! cid) ↔ cid ∈ infoClientId <$> infos.
Proof.
  unfold initialPlayers.
  assert (∀ acc : gmap string PlayerGameState,
    is_Some (fold_left (λ acc player,
      <[infoClientId player :=
          mkPlayerGameState (infoClientId player) (infoName player)
            st None None]> acc) infos acc !! cid)
    ↔ cid ∈ infoClientId <$> infos ∨ is_Some (acc !! cid)) as Hgen.
  { induction infos as [|info infos IH]; intros acc; simpl.
    - rewrite elem_of_nil. naive_solver.
    - rewrite IH, lookup_insert. csimpl. rewrite elem_of_cons.
      case_decide; subst; naive_solver. }
  rewrite Hgen, lookup_empty. split; [intros [?|[? ?]]; done | by left].
Qed.

(** X10: [restartGame] leaves the store exactly as [createGame] does:
    deleting the old game first makes no difference, and nothing of the old
    game survives.  For a size of at least 1 both return, with a game in
    phase WAITING, without winner or start time, with the reconnect deadline
    30 seconds ahead, whose players are the given ones, all on the start of
    the new maze. *)
Theorem restartGame_as_createGame (games : Games) (code : string) (size : Z)
    (infos : list PlayerInfo) (now : Z) (rnd : nat → nat) (k : nat) :
  restartGame games code size infos now rnd k
    = createGame games code size infos now rnd k ∧
  (1 ≤ size →
   ∃ game k',
     restartGame games code size infos now rnd k
       = Some (<[code := game]> games, game, k') ∧
     lobbyCode game = code ∧ phase game = WAITING ∧
     winnerId game = None ∧ startedAt game = None ∧
     allowReconnectUntil game = Some (now + 30000) ∧
     (∀ cid, is_Some (players game !! cid) ↔ cid ∈ infoClientId <$> infos) ∧
     (∀ cid player, players game !! cid = Some player →
        position player = start (maze game)
        ∧ walkable (grid (maze game)) (position player))).
Proof.
  assert (restartGame games code size infos now rnd k
          = createGame games code size infos now rnd k) as Heq.
  { unfold restartGame, createGame, Maze.bind, Maze.ret.
    destruct (Maze.generateMaze size rnd k) as [[m k1]|]; [|done].
    by rewrite insert_delete_eq. }
  split; [done|]. intros Hs. rewrite Heq.
  destruct (generateMaze_run size rnd k Hs)
    as (g1 & k1 & exits & e & k2 & g2 & st & _ & _ & _ & _ & _ & _ & _
        & _ & _ & _ & Hgen).
  unfold createGame, Maze.bind, Maze.ret. rewrite Hgen.
  eexists _, _. split; [reflexivity|]. simpl.
  repeat (split; [done|]). split; [apply initialPlayers_dom|].
  intros cid player Hp. apply initialPlayers_fields in Hp as (_ & -> & _).
  split; [done|].
  by destruct (generateMaze_start _ _ _ _ _ Hgen).
Qed.

(** X11: [expireOldGames] removes a game exactly when it is in phase
    FINISHED and its reconnect deadline is a non-zero time that has passed;
    every other game stays as it is.  In a store reached by a history of
    requests a removed game therefore always has a winner. *)
Theorem expireOldGames_reaps (speed : Z) (ops : list Op) (now : Z)
    (code : string) (game : GameState) :
  run speed ops !! code = Some game →
  let games' := expireOldGames (run speed ops) now in
  (games' !! code = None ↔
     phase game = FINISHED ∧
     ∃ until, allowReconnectUntil game = Some until ∧ until ≠ 0
              ∧ until < now) ∧
  (games' !! code ≠ None → games' !! code = Some game) ∧
  (games' !! code = None →
     ∃ w, winnerId game = Some w ∧ is_Some (players game !! w)) ∧
  (∀ c, run speed ops !! c = None → games' !! c = None).
Proof.
  intros Hgame games'.
  assert (expired now game = true ↔
          phase game = FINISHED ∧
          ∃ until, allowReconnectUntil game = Some until ∧ until ≠ 0
                   ∧ until < now) as Hexp.
  { unfold expired. rewrite andb_true_iff, bool_decide_eq_true.
    destruct (allowReconnectUntil game) as [u|].
    - rewrite andb_true_iff, negb_true_iff, Z.eqb_neq, Z.gtb_ltb, Z.ltb_lt.
      split.
      + intros (? & ? & ?). eauto.
      + intros (? & u' & [= <-] & ? & ?). done.
    - split; [intros [_ ?]; done | intros (_ & ? & ? & _); done]. }
  assert (games' !! code = None ↔ expired now game = true) as Hnone.
  { subst games'. unfold expireOldGames.
    rewrite map_lookup_filter_None. split.
    - intros [?|Hall]; [congruence|].
      specialize (Hall game Hgame). simpl in Hall.
      by destruct (expired now game).
    - intros He. right. intros game0 Hg0. simpl.
      assert (game0 = game) as -> by congruence. by rewrite He. }
  split; [by rewrite Hnone|]. split; [|split].
  - intros Hsome. subst games'. unfold expireOldGames.
    apply map_lookup_filter_Some. split; [done|]. simpl.
    destruct (expired now game) eqn:He; [|done].
    exfalso. by apply Hsome, Hnone.
  - intros (Hfin & _)%Hnone%Hexp.
    destruct (soundGames_run speed ops code game Hgame)
      as [_ _ _ Hf Hwin _ _].
    destruct (Hf Hfin) as (w & player & Hw & Hp & _). eauto.
  - intros c Hc. subst games'. unfold expireOldGames.
    apply map_lookup_filter_None. by left.
Qed.

Lemma expireOldGames_reaps_witness :
  ∃ game, run 50 demoHistory !! "0000" = Some game ∧
          expireOldGames (run 50 demoHistory) 40000 !! "0000" = None ∧
          expireOldGames (run 50 demoHistory) 30000 !! "0000" = Some game.
Proof.
  destruct (run 50 demoHistory !! "0000") as [game|] eqn:Hg;
    [|vm_compute in Hg; discriminate].
  exists game. split; [reflexivity|].
  pose proof (expireOldGames_reaps 50 demoHistory 40000 "0000" game Hg)
    as (H1 & _).
  pose proof (expireOldGames_reaps 50 demoHistory 30000 "0000" game Hg)
    as (H2 & H3 & _).
  cbv zeta in *. vm_compute in Hg. injection Hg as <-. split.
  - apply H1. split; [reflexivity|]. exists 35010.
    split; [reflexivity|]. split; [discriminate | reflexivity].
  - apply H3. intros Hnone. apply H2 in Hnone as (_ & u & [= <-] & _ & Hlt).
    discriminate Hlt.
Defined.

Local Abbreviation nat_of_ascii := Ascii.nat_of_ascii.
Local Abbreviation ascii_of_nat := Ascii.ascii_of_nat.

Lemma code_ascii n : (n < 256)%nat → nat_of_ascii (ascii_of_nat n) = n.
Proof. apply Ascii.nat_ascii_embedding. Qed.

Lemma upperAscii_code c :
  nat_of_ascii (upperAscii c)
  = if bool_decide (97 ≤ nat_of_ascii c ≤ 122)%nat
    then (nat_of_ascii c - 32)%nat else nat_of_ascii c.
Proof.
  unfold upperAscii. case_bool_decide; [|done]. apply code_ascii. lia.
Qed.

Lemma upperAscii_high c :
  (128 ≤ nat_of_ascii (upperAscii c))%nat → upperAscii c = c.
Proof.
  rewrite upperAscii_code. unfold upperAscii.
  case_bool_decide; [lia|done].
Qed.

Lemma upperAscii_idem c : upperAscii (upperAscii c) = upperAscii c.
Proof.
  unfold upperAscii at 1. rewrite upperAscii_code.
  case_bool_decide as H; [|done].
  case_bool_decide; lia.
Qed.

Lemma upperOf_Some {K} `{EqDecision K} (key : K) table upper :
  upperOf key table = Some upper → (key, upper) ∈ table.
Proof.
  induction table as [|[key' upper'] table IH]; simpl; [done|].
  case_decide as Hk.
  - intros [= <-]. subst. apply list_elem_of_here.
  - intros Hin. apply list_elem_of_further. by apply IH.
Qed.

Ltac entries :=
  unfold entryOk, settled, leadBytes;
  repeat first
    [ progress simpl | apply Forall_nil | apply Forall_cons | split | lia
    | rewrite !elem_of_cons; lia
    | rewrite !not_elem_of_cons, elem_of_nil; lia
    | eexists; split; [reflexivity | lia] ].

Lemma upperTwo_ok : Forall (λ e, entryOk e.1.1 [e.1.2] e.2) upperTwo.
Proof. unfold upperTwo; simpl. entries. Qed.

Lemma upperThree_ok :
  Forall (λ e, entryOk e.1.1.1 [e.1.1.2; e.1.2] e.2) upperThree.
Proof. unfold upperThree; simpl. entries. Qed.


Lemma upper2_Some c c1 upper :
  upper2 c c1 = Some upper →
  entryOk (nat_of_ascii c) [nat_of_ascii c1] upper.
Proof.
  intros Hin%upperOf_Some.
  by apply (proj1 (Forall_forall _ _) upperTwo_ok) in Hin.
Qed.

Lemma upper3_Some c c1 c2 upper :
  upper3 c c1 c2 = Some upper →
  entryOk (nat_of_ascii c) [nat_of_ascii c1; nat_of_ascii c2] upper.
Proof.
  intros Hin%upperOf_Some.
  by apply (proj1 (Forall_forall _ _) upperThree_ok) in Hin.
Qed.

Lemma toUpperCase_cons c s1 :
  toUpperCase (String c s1)
  = match s1 with
    | EmptyString => String (upperAscii c) (toUpperCase s1)
    | String c1 s2 =>
        match upper2 c c1 with
        | Some upper => prepend upper (toUpperCase s2)
        | None =>
            match s2 with
            | EmptyString => String (upperAscii c) (toUpperCase s1)
            | String c2 s3 =>
                match upper3 c c1 c2 with
                | Some upper => prepend upper (toUpperCase s3)
                | None => String (upperAscii c) (toUpperCase s1)
                end
            end
        end
    end.
Proof. by destruct s1 as [|c1 [|c2 s3]]. Qed.

Lemma toUpperCase_single c s :
  nat_of_ascii c ∉ leadBytes →
  toUpperCase (String c s) = String (upperAscii c) (toUpperCase s).
Proof.
  intros Hc. destruct s as [|c1 [|c2 s3]]; [done| |].
  - cbn [toUpperCase]. destruct (upper2 c c1) eqn:H2; [|done].
    apply upper2_Some in H2 as (? & _). done.
  - cbn [toUpperCase]. destruct (upper2 c c1) eqn:H2.
    + apply upper2_Some in H2 as (? & _). done.
    + destruct (upper3 c c1 c2) eqn:H3; [|done].
      apply upper3_Some in H3 as (? & _). done.
Qed.

Lemma toUpperCase_prepend upper s :
  Forall settled upper →
  toUpperCase (prepend upper s) = prepend upper (toUpperCase s).
Proof.
  induction 1 as [|n upper (Hn & Hlow & Hlead) _ IH]; [done|].
  change (prepend (n :: upper) s) with (String (ascii_of_nat n) (prepend upper s)).
  rewrite toUpperCase_single, IH by (by rewrite code_ascii).
  unfold upperAscii. rewrite code_ascii by done.
  by rewrite bool_decide_eq_false_2.
Qed.

(** A byte outside ASCII, other than 202, at the head of the result stood at
    the head of the string. *)
Lemma toUpperCase_head s k t :
  toUpperCase s = String k t →
  (128 ≤ nat_of_ascii k)%nat → nat_of_ascii k ≠ 202%nat →
  ∃ s', s = String k s' ∧ t = toUpperCase s'.
Proof.
  intros Hs Hk Hk'.
  assert (∀ upper r, Forall settled upper →
            (∃ n, head upper = Some n ∧ (n < 128 ∨ n = 202)%nat) →
            prepend upper r ≠ String k t) as Hupper.
  { intros upper r Hall (n & Hhead & Hn) Heq.
    destruct upper as [|n' upper]; [done|]. injection Hhead as ->.
    apply Forall_cons in Hall as [(Hlt & _) _].
    injection Heq as <- _. rewrite code_ascii in Hk, Hk' by done. lia. }
  assert (∀ c s1, String (upperAscii c) (toUpperCase s1) = String k t →
            ∃ s', String c s1 = String k s' ∧ t = toUpperCase s') as Hsingle.
  { intros c s1 [= <- <-]. rewrite (upperAscii_high c Hk). by exists s1. }
  destruct s as [|c [|c1 [|c2 s3]]]; [done| | |].
  - by apply Hsingle.
  - cbn [toUpperCase] in Hs. destruct (upper2 c c1) eqn:H2.
    + apply upper2_Some in H2 as (_ & _ & Hhead & Hall).
      by apply Hupper in Hs.
    + by apply Hsingle.
  - cbn [toUpperCase] in Hs. destruct (upper2 c c1) eqn:H2.
    + apply upper2_Some in H2 as (_ & _ & Hhead & Hall).
      by apply Hupper in Hs.
    + destruct (upper3 c c1 c2) eqn:H3.
      * apply upper3_Some in H3 as (_ & _ & Hhead & Hall).
        by apply Hupper in Hs.
      * by apply Hsingle.
Qed.


Lemma toUpperCase_again_single c s1 :
  toUpperCase (toUpperCase s1) = toUpperCase s1 →
  (∀ c1 s2, s1 = String c1 s2 → upper2 c c1 = None) →
  (∀ c1 c2 s3, s1 = String c1 (String c2 s3) → upper3 c c1 c2 = None) →
  toUpperCase (String (upperAscii c) (toUpperCase s1))
  = String (upperAscii c) (toUpperCase s1).
Proof.
  intros IH Hno2 Hno3.
  assert (∀ n, n ∈ leadBytes → (128 ≤ n)%nat)
    as Hlead.
  { intros n. unfold leadBytes. rewrite !elem_of_cons, elem_of_nil. lia. }
  destruct (toUpperCase s1) as [|k t] eqn:Hu.
  { simpl. by rewrite upperAscii_idem. }
  rewrite toUpperCase_cons, IH, upperAscii_idem.
  destruct (upper2 (upperAscii c) k) as [upper|] eqn:H2.
  { exfalso. pose proof (upper2_Some _ _ _ H2) as (Hc & Hk & _).
    apply Hlead, upperAscii_high in Hc. rewrite Hc in H2.
    apply Forall_cons in Hk as [[Hk Hk'] _].
    destruct (toUpperCase_head _ _ _ Hu Hk Hk') as (s' & -> & _).
    by rewrite (Hno2 _ _ eq_refl) in H2. }
  destruct t as [|k2 t3]; [done|].
  destruct (upper3 (upperAscii c) k k2) as [upper|] eqn:H3; [|done].
  exfalso. pose proof (upper3_Some _ _ _ _ H3) as (Hc & Hk & _).
  apply Hlead, upperAscii_high in Hc. rewrite Hc in H3.
  apply Forall_cons in Hk as [[Hk Hk'] Hk2].
  apply Forall_cons in Hk2 as [[Hk2 Hk2'] _].
  destruct (toUpperCase_head _ _ _ Hu Hk Hk') as (s' & -> & Ht).
  symmetry in Ht.
  destruct (toUpperCase_head _ _ _ Ht Hk2 Hk2') as (s'' & -> & _).
  by rewrite (Hno3 _ _ _ eq_refl) in H3.
Qed.

Lemma toUpperCase_idem s : toUpperCase (toUpperCase s) = toUpperCase s.
Proof.
  remember (String.length s) as n eqn:Hn.
  revert s Hn. induction n as [n IH] using lt_wf_ind. intros s ->.
  assert (∀ s', (String.length s' < String.length s)%nat →
            toUpperCase (toUpperCase s') = toUpperCase s') as IH'.
  { intros s' Hlt. by eapply IH. }
  clear IH. destruct s as [|c [|c1 [|c2 s3]]]; [done| | |].
  - by apply (toUpperCase_again_single c "").
  - rewrite toUpperCase_cons; cbv beta match. destruct (upper2 c c1) as [upper|] eqn:H2.
    + apply upper2_Some in H2 as (_ & _ & _ & Hall).
      by rewrite toUpperCase_prepend.
    + apply (toUpperCase_again_single c (String c1 "")).
      * apply IH'. simpl. lia.
      * by intros ? ? [= <- <-].
      * intros ? ? ? [=].
  - rewrite toUpperCase_cons; cbv beta match. destruct (upper2 c c1) as [upper|] eqn:H2.
    + apply upper2_Some in H2 as (_ & _ & _ & Hall).
      rewrite toUpperCase_prepend by done. f_equal.
      apply IH'. simpl. lia.
    + destruct (upper3 c c1 c2) as [upper|] eqn:H3.
      * apply upper3_Some in H3 as (_ & _ & _ & Hall).
        rewrite toUpperCase_prepend by done. f_equal.
        apply IH'. simpl. lia.
      * apply (toUpperCase_again_single c (String c1 (String c2 s3))).
        -- apply IH'. simpl. lia.
        -- by intros ? ? [= <- <-].
        -- by intros ? ? ? [= <- <- <-].
Qed.

(** The dotless i is a lower-case I. *)
Example toUpperCase_dotless_i : toUpperCase "rıght" = "RIGHT".
Proof. reflexivity. Qed.

(** X12: the refusals of [handleMove], in the order in which they are
    tested: an unknown lobby code, a game that is not in phase PLAYING, a
    client who is not a player of the game, a direction that is not one of
    UP, DOWN, LEFT, RIGHT once its letters are put in upper case.  Each
    leaves the store as it was.  The letter case of the direction never
    matters. *)
Theorem handleMove_refusals (speed : Z) (games : Games) (code cid : string)
    (direction : string) (now : Z) :
  (games !! code = None →
     handleMove speed games code cid direction now
       = (games, Err GAME_NOT_FOUND)) ∧
  (∀ game, games !! code = Some game →
     (phase game ≠ PLAYING →
        handleMove speed games code cid direction now
          = (games, Err GAME_NOT_READY)) ∧
     (phase game = PLAYING → players game !! cid = None →
        handleMove speed games code cid direction now
          = (games, Err PLAYER_NOT_FOUND)) ∧
     (phase game = PLAYING → is_Some (players game !! cid) →
        toUpperCase direction ∉ directionNames →
        handleMove speed games code cid direction now
          = (games, Err INVALID_MOVE))) ∧
  handleMove speed games code cid (toUpperCase direction) now
    = handleMove speed games code cid direction now.
Proof.
  split; [|split].
  - intros Hnone. unfold handleMove. by rewrite Hnone.
  - intros game Hgame. unfold handleMove. rewrite Hgame. split; [|split].
    + intros Hphase. by rewrite bool_decide_eq_false_2.
    + intros Hphase Hnone. by rewrite bool_decide_eq_true_2, Hnone.
    + intros Hphase [player Hplayer] Hdir.
      rewrite bool_decide_eq_true_2, Hplayer by done. simpl.
      unfold directionNames in Hdir.
      rewrite !not_elem_of_cons in Hdir.
      destruct Hdir as (? & ? & ? & ? & _).
      unfold ownDirection. by rewrite !bool_decide_eq_false_2.
  - unfold handleMove. by rewrite toUpperCase_idem.
Qed.

End EngineLifecycle.

(** * Further properties of the lobby manager *)

Section LobbyShapes.

Import Lobby LobbySpec LobbyShape.

#[local] Arguments findPlayer : simpl never.

Lemma digit_valid d :
  ∃ c, digit d = String c EmptyString ∧ Handlers.isDigit c = true.
Proof.
  destruct d as [|[|[|[|[|[|[|[|[|]]]]]]]]]; simpl; eexists; split;
    reflexivity.
Qed.

Lemma randomDigits_valid n rnd k :
  String.length (randomDigits n rnd k) = n ∧
  Handlers.allDigits (randomDigits n rnd k) = true.
Proof.
  revert k. induction n as [|n IH]; intros k; [done|].
  change (randomDigits (S n) rnd k)
    with (digit (rnd k `mod` 10)%nat +:+ randomDigits n rnd (S k)).
  destruct (digit_valid (rnd k `mod` 10)%nat) as (c & -> & Hc).
  destruct (IH (S k)) as [Hlen Hall]. simpl.
  change ("" +:+ randomDigits n rnd (S k)) with (randomDigits n rnd (S k)).
  by rewrite Hlen, Hc, Hall.
Qed.

Lemma generateLobbyCodeFrom_spec n lobbies rnd k :
  match generateLobbyCodeFrom n lobbies rnd k with
  | Some code =>
      lobbies !! code = None ∧
      ∃ a, (a < n)%nat ∧ code = attempt rnd k a ∧
           ∀ b, (b < a)%nat → lobbies !! attempt rnd k b ≠ None
  | None => ∀ a, (a < n)%nat → lobbies !! attempt rnd k a ≠ None
  end.
Proof.
  revert k. induction n as [|n IH]; intros k; [intros a; lia|].
  change (generateLobbyCodeFrom (S n) lobbies rnd k)
    with (if bool_decide (lobbies !! randomDigits LOBBY_CODE_LENGTH rnd k = None)
          then Some (randomDigits LOBBY_CODE_LENGTH rnd k)
          else generateLobbyCodeFrom n lobbies rnd (k + LOBBY_CODE_LENGTH)%nat).
  assert (∀ a, attempt rnd (k + LOBBY_CODE_LENGTH) a = attempt rnd k (S a))
    as Hshift.
  { intros a. unfold attempt. f_equal. lia. }
  assert (attempt rnd k 0 = randomDigits LOBBY_CODE_LENGTH rnd k) as H0.
  { unfold attempt. f_equal. lia. }
  case_bool_decide as Hfree.
  - split; [done|]. exists 0%nat. split; [lia|]. split; [done|]. intros; lia.
  - specialize (IH (k + LOBBY_CODE_LENGTH)%nat).
    destruct (generateLobbyCodeFrom n lobbies rnd (k + LOBBY_CODE_LENGTH))
      as [code|].
    + destruct IH as (Hnone & a & Ha & -> & Hbefore). split; [done|].
      exists (S a). split; [lia|]. split; [apply Hshift|].
      intros [|b] Hb; [by rewrite H0|]. rewrite <- Hshift. apply Hbefore. lia.
    + intros [|a] Ha; [by rewrite H0|]. rewrite <- Hshift. apply IH. lia.
Qed.

Lemma createLobby_Ok lobbies rnd k leaderId leaderName now lobbies' lobby :
  createLobby lobbies rnd k leaderId leaderName now = (lobbies', Ok lobby) →
  lobbies !! code lobby = None ∧
  Handlers.validCode (code lobby) = true ∧
  lobby = mkLobbyState (code lobby) leaderId now
            [mkLobbyPlayer leaderId leaderName false] 10 OPEN ∧
  lobbies' = <[code lobby := lobby]> lobbies ∧
  ∃ a, (a < 100 * 100)%nat ∧ code lobby = attempt rnd k a ∧
       ∀ b, (b < a)%nat → lobbies !! attempt rnd k b ≠ None.
Proof.
  unfold createLobby, generateLobbyCode.
  pose proof (generateLobbyCodeFrom_spec (100 * 100) lobbies rnd k) as Hspec.
  destruct (generateLobbyCodeFrom (100 * 100) lobbies rnd k) as [c|]; [|done].
  intros [= <- <-]. simpl.
  destruct Hspec as (Hfree & a & Ha & -> & Hbefore).
  split; [done|]. split.
  { unfold Handlers.validCode, attempt.
    destruct (randomDigits_valid LOBBY_CODE_LENGTH rnd
                (k + a * LOBBY_CODE_LENGTH)) as [-> ->]. done. }
  split; [done|]. split; [done|]. exists a. split; [lia|]. done.
Qed.

(** X13: [createLobby] never overwrites a lobby.  When it succeeds, the code
    it returns was free and is made of four decimal digits; the new lobby
    holds the creator alone, as leader, with status OPEN and size 10; and
    every lobby that was live is still there, unchanged.  The code returned
    is the first free one among the codes drawn.  It fails, leaving the
    store as it was, only when each of the 10000 codes it drew is the code
    of a live lobby. *)
Theorem createLobby_fresh (lobbies : Lobbies) (rnd : nat → nat) (k : nat)
    (leaderId leaderName : string) (now : Z) :
  (∀ lobbies' lobby,
     createLobby lobbies rnd k leaderId leaderName now = (lobbies', Ok lobby) →
     lobbies !! code lobby = None ∧
     Handlers.validCode (code lobby) = true ∧
     lobby = mkLobbyState (code lobby) leaderId now
               [mkLobbyPlayer leaderId leaderName false] 10 OPEN ∧
     lobbies' = <[code lobby := lobby]> lobbies ∧
     (∀ c l, lobbies !! c = Some l → lobbies' !! c = Some l) ∧
     ∃ a, (a < 100 * 100)%nat ∧ code lobby = attempt rnd k a ∧
          ∀ b, (b < a)%nat → lobbies !! attempt rnd k b ≠ None) ∧
  (∀ lobbies' e,
     createLobby lobbies rnd k leaderId leaderName now = (lobbies', Err e) →
     e = CODE_SPACE_EXHAUSTED ∧ lobbies' = lobbies ∧
     ∀ a, (a < 100 * 100)%nat → lobbies !! attempt rnd k a ≠ None).
Proof.
  split.
  - intros lobbies' lobby Hok.
    destruct (createLobby_Ok _ _ _ _ _ _ _ _ Hok)
      as (Hfree & Hvalid & Hlobby & -> & Hfirst).
    repeat (split; [done|]). split; [|done].
    intros c l Hl. rewrite lookup_insert_ne; [done|]. congruence.
  - unfold createLobby, generateLobbyCode.
    pose proof (generateLobbyCodeFrom_spec (100 * 100) lobbies rnd k) as Hspec.
    destruct (generateLobbyCodeFrom (100 * 100) lobbies rnd k) as [c|];
      [done|].
    intros lobbies' e [= <- <-]. split; [done|]. split; [done|].
    intros a Ha. apply Hspec. lia.
Qed.

(** Every request keeps the codes and sizes of the live lobbies sound. *)
Lemma soundLobbies_update lobbies c l l' :
  soundLobbies lobbies → lobbies !! c = Some l →
  selectedMazeSize l' = selectedMazeSize l →
  soundLobbies (<[c := l']> lobbies).
Proof.
  intros Hs Hl Hsize key l0. rewrite lookup_insert. case_decide.
  - intros [= <-]. subst. destruct (Hs _ _ Hl) as [Hc Hz].
    split; [done | by rewrite Hsize].
  - apply Hs.
Qed.

Lemma soundLobbies_resetAcceptances lobbies c :
  soundLobbies lobbies → soundLobbies (resetAcceptances lobbies c).1.
Proof.
  intros Hs. unfold resetAcceptances.
  destruct (lobbies !! c) as [l|] eqn:E; simpl; [|done].
  by eapply soundLobbies_update.
Qed.

Lemma soundLobbies_acceptLeader lobbies c :
  soundLobbies lobbies → soundLobbies (Server.acceptLeader lobbies c).
Proof.
  intros Hs. unfold Server.acceptLeader.
  destruct (lobbies !! c) as [l|] eqn:E; [|done].
  destruct (findPlayer _ _); [|done]. by eapply soundLobbies_update.
Qed.

Lemma soundLobbies_openLobby lobbies c :
  soundLobbies lobbies → soundLobbies (Server.openLobby lobbies c).
Proof.
  intros Hs. unfold Server.openLobby.
  destruct (lobbies !! c) as [l|] eqn:E; [|done].
  by eapply soundLobbies_update.
Qed.

Lemma soundLobbies_apply lobbies op :
  soundLobbies lobbies → soundLobbies (apply lobbies op).
Proof.
  intros Hs.
  destruct op as [rnd k lid lname now | c cid nm | c cid | c lid size
                 | c cid b | c | c | c | c | now | lc cid | c | c]; simpl.
  - destruct (createLobby lobbies rnd k lid lname now) as [lobbies' [l|e]]
      eqn:E; simpl.
    + destruct (createLobby_Ok _ _ _ _ _ _ _ _ E)
        as (_ & Hvalid & Hl & -> & _).
      intros key l0. rewrite lookup_insert. case_decide.
      * intros [= <-]. subst key. split; [done|]. rewrite Hl. simpl.
        unfold mazeSizeValues. left.
      * apply Hs.
    + unfold createLobby in E.
      destruct (generateLobbyCode _ _ _); [done|]. by injection E as <- _.
  - unfold joinLobby.
    destruct (lobbies !! c) as [l|] eqn:E; simpl; [|done].
    destruct (findPlayer cid (players l)); simpl; [done|].
    case_bool_decide; simpl; [done|]. by eapply soundLobbies_update.
  - unfold leaveLobby.
    destruct (lobbies !! c) as [l|] eqn:E; simpl; [|done].
    destruct (List.filter _ (players l)) as [|first rest]; simpl.
    + intros key l0. rewrite lookup_delete. case_decide; [done | apply Hs].
    + eapply soundLobbies_update; [done..|].
      by destruct (findPlayer _ _).
  - unfold setMazeSize.
    destruct (lobbies !! c) as [l|] eqn:E; simpl; [|done].
    case_bool_decide; simpl; [|done].
    case_bool_decide as Hsize; simpl; [|done].
    intros key l0. rewrite lookup_insert. case_decide.
    + intros [= <-]. subst. destruct (Hs _ _ E) as [Hc _]. by split.
    + apply Hs.
  - unfold markAcceptGame.
    destruct (lobbies !! c) as [l|] eqn:E; simpl; [|done].
    destruct (findPlayer _ _); simpl; [|done]. by eapply soundLobbies_update.
  - by apply soundLobbies_resetAcceptances.
  - unfold startGame.
    destruct (lobbies !! c) as [l|] eqn:E; simpl; [|done].
    by eapply soundLobbies_update.
  - unfold finishGame.
    destruct (lobbies !! c) as [l|] eqn:E; simpl; [|done].
    by eapply soundLobbies_update.
  - unfold endGame.
    destruct (lobbies !! c) as [l|] eqn:E; simpl; [|done].
    apply soundLobbies_resetAcceptances. by eapply soundLobbies_update.
  - unfold cleanupStaleLobbies. intros key l Hl.
    apply map_lookup_filter_Some in Hl as [Hl _]. by apply Hs.
  - unfold Server.handleStartGame.
    destruct lc as [lc|]; simpl; [|done].
    case_bool_decide; [done|].
    unfold getLobby. destruct (lobbies !! lc) as [l|] eqn:E; simpl; [|done].
    case_bool_decide; simpl; [|done].
    case_bool_decide; simpl; [done|].
    unfold startGame.
    destruct (lobbies !! code l) as [l1|] eqn:E1; simpl; [|done].
    apply soundLobbies_acceptLeader, soundLobbies_resetAcceptances.
    by eapply soundLobbies_update.
  - by apply soundLobbies_openLobby.
  - by apply soundLobbies_acceptLeader.
Qed.

End LobbyShapes.

Section LobbyLife.

Import Lobby LobbySpec LobbyShape.

#[local] Arguments findPlayer : simpl never.

Lemma soundLobbies_run ops : soundLobbies (run ops).
Proof.
  unfold run.
  assert (soundLobbies (∅ : Lobbies)) as Hempty.
  { intros key l H. by rewrite lookup_empty in H. }
  revert Hempty. generalize (∅ : Lobbies).
  induction ops as [|op ops IH]; intros s Hs; simpl; [done|].
  by apply IH, soundLobbies_apply.
Qed.

(** X14: in every store reached by a history of requests, a live lobby is
    stored under its own code, the code is made of four decimal digits (it
    passes the check of the JOIN_LOBBY handler), the lobby has one or two
    members with distinct client ids, and its maze size is one of 10, 20,
    30, 40, 50; so [createGame] for the lobby always returns. *)
Theorem lobby_invariants (ops : list Op) (key : string) (l : LobbyState) :
  run ops !! key = Some l →
  code l = key ∧
  String.length key = 4%nat ∧ Handlers.validCode key = true ∧
  (1 ≤ length (players l) ≤ 2)%nat ∧
  NoDup (members l) ∧
  selectedMazeSize l ∈ [10; 20; 30; 40; 50] ∧
  ∀ games now rnd k,
    ∃ games' game k',
      Game.createGame games key (selectedMazeSize l) (Handlers.playerInfos l)
        now rnd k = Some (games', game, k').
Proof.
  intros Hl.
  destruct (wfLobbies_run ops key l Hl) as [Hk Hc Hne Hcap Hd Hlead].
  destruct (soundLobbies_run ops key l Hl) as [Hvalid Hsize].
  split; [done|]. split.
  { unfold Handlers.validCode in Hvalid.
    apply andb_true_iff in Hvalid as [Hlen _].
    by apply bool_decide_eq_true in Hlen. }
  split; [done|]. split.
  { unfold MAX_PLAYERS in Hcap. destruct (players l); simpl in *; [done|lia]. }
  split; [done|]. split; [done|].
  intros games now rnd k.
  assert (1 ≤ selectedMazeSize l) as Hpos.
  { unfold mazeSizeValues in Hsize. rewrite !elem_of_cons in Hsize.
    destruct Hsize as [->|[->|[->|[->|[->|[]%elem_of_nil]]]]]; lia. }
  destruct (generateMaze_run (selectedMazeSize l) rnd k Hpos)
    as (g1 & k1 & exits & e & k2 & g2 & st & _ & _ & _ & _ & _ & _ & _
        & _ & _ & _ & Hgen).
  unfold Game.createGame, Maze.bind, Maze.ret. rewrite Hgen. eauto.
Qed.

Lemma lobby_invariants_witness :
  ∃ l, run twoPlayerHistory !! "0000" = Some l ∧
       selectedMazeSize l ∈ [10; 20; 30; 40; 50] ∧ NoDup (members l).
Proof.
  destruct (run twoPlayerHistory !! "0000") as [l|] eqn:Hl;
    [|vm_compute in Hl; discriminate].
  exists l. split; [reflexivity|].
  destruct (lobby_invariants twoPlayerHistory "0000" l Hl)
    as (_ & _ & _ & _ & H1 & H2 & _).
  split; [exact H2 | exact H1].
Defined.

Lemma filter_leave_absent cid (ps : list LobbyPlayer) :
  cid ∉ clientId <$> ps →
  List.filter (λ p, negb (bool_decide (clientId p = cid))) ps = ps.
Proof.
  induction ps as [|p ps IH]; csimpl; [done|].
  intros [Hp Hps]%not_elem_of_cons.
  rewrite bool_decide_eq_false_2 by done. simpl. by rewrite IH.
Qed.

Lemma filter_leave_app cid (ps qs : list LobbyPlayer) :
  List.filter (λ p, negb (bool_decide (clientId p = cid))) (ps ++ qs)
  = List.filter (λ p, negb (bool_decide (clientId p = cid))) ps
    ++ List.filter (λ p, negb (bool_decide (clientId p = cid))) qs.
Proof. apply List.filter_app. Qed.

(** X15: joining and leaving again undoes the join: in every store reached
    by a history of requests, when a client who is not a member joins a
    lobby that has room and then leaves it, the lobby has the members, the
    leader, the size and the answers it had before, and status OPEN. *)
Theorem join_then_leave (ops : list Op) (key clientId name : string)
    (l : LobbyState) :
  run ops !! key = Some l →
  clientId ∉ members l →
  (length (players l) < MAX_PLAYERS)%nat →
  ∃ l1,
    joinLobby (run ops) key clientId name
      = (<[key := l1]> (run ops), Ok l1) ∧
    clientId ∈ members l1 ∧
    leaveLobby (<[key := l1]> (run ops)) key clientId
      = (<[key := setStatus l OPEN]> (run ops), Some (setStatus l OPEN)).
Proof.
  intros Hl Hnot Hroom.
  destruct (wfLobbies_run ops key l Hl) as [Hk Hc Hne Hcap Hd Hlead].
  unfold joinLobby. rewrite Hl.
  destruct (findPlayer clientId (players l)) eqn:Hfind.
  { exfalso. apply Hnot. apply findPlayer_is_Some. eauto. }
  rewrite bool_decide_eq_false_2 by lia.
  eexists. split; [reflexivity|]. simpl. split.
  { unfold members. simpl. rewrite fmap_app, elem_of_app. right.
    simpl. left. }
  unfold leaveLobby. rewrite lookup_insert_eq. simpl.
  rewrite filter_leave_app, filter_leave_absent by done. simpl.
  rewrite bool_decide_eq_true_2 by done. simpl. rewrite app_nil_r.
  destruct (players l) as [|first rest] eqn:Hps; [done|].
  destruct (findPlayer (leaderId l) (first :: rest)) eqn:Hleader.
  - rewrite insert_insert_eq. unfold setStatus, setPlayers. simpl.
    by rewrite Hps.
  - exfalso. apply findPlayer_None in Hleader. apply Hleader.
    unfold members in Hlead. by rewrite Hps in Hlead.
Qed.

Lemma join_then_leave_witness :
  ∃ l l1,
    run [OpCreateLobby (λ _, 0%nat) 0 "ann" "Ann" 0] !! "0000" = Some l ∧
    leaveLobby (<["0000" := l1]>
                  (run [OpCreateLobby (λ _, 0%nat) 0 "ann" "Ann" 0]))
      "0000" "bob"
    = (<["0000" := setStatus l OPEN]>
         (run [OpCreateLobby (λ _, 0%nat) 0 "ann" "Ann" 0]),
       Some (setStatus l OPEN)).
Proof.
  destruct (run [OpCreateLobby (λ _, 0%nat) 0 "ann" "Ann" 0] !! "0000")
    as [l|] eqn:Hl; [|vm_compute in Hl; discriminate].
  destruct (join_then_leave [OpCreateLobby (λ _, 0%nat) 0 "ann" "Ann" 0]
              "0000" "bob" "Bob" l Hl) as (l1 & _ & _ & Hleave).
  - vm_compute in Hl. injection Hl as <-. unfold members. simpl.
    rewrite not_elem_of_cons. split; [discriminate | apply not_elem_of_nil].
  - vm_compute in Hl. injection Hl as <-. unfold MAX_PLAYERS. simpl. lia.
  - exists l, l1. split; [reflexivity | exact Hleave].
Defined.

(** X16: the edges of [leaveLobby], in every store reached by a history of
    requests: for an unknown code nothing happens; when the only member
    leaves, the lobby is deleted, so that the code is unknown afterwards;
    and when a client who is not a member leaves, the members stay and the
    status becomes OPEN. *)
Theorem leaveLobby_edges (ops : list Op) (key clientId : string) :
  (run ops !! key = None →
     leaveLobby (run ops) key clientId = (run ops, None)) ∧
  (∀ l, run ops !! key = Some l →
     (members l = [clientId] →
        leaveLobby (run ops) key clientId = (delete key (run ops), None) ∧
        ∀ name, joinLobby (delete key (run ops)) key clientId name
                = (delete key (run ops), Err LOBBY_NOT_FOUND)) ∧
     (clientId ∉ members l →
        leaveLobby (run ops) key clientId
          = (<[key := setStatus l OPEN]> (run ops),
             Some (setStatus l OPEN)))).
Proof.
  split.
  { intros Hnone. unfold leaveLobby. by rewrite Hnone. }
  intros l Hl.
  destruct (wfLobbies_run ops key l Hl) as [Hk Hc Hne Hcap Hd Hlead].
  split.
  - intros Hm. split.
    + unfold leaveLobby. rewrite Hl. simpl.
      unfold members in Hm. destruct (players l) as [|p [|q ps]]; try done.
      injection Hm as Hp. simpl. by rewrite bool_decide_eq_true_2.
    + intros name. unfold joinLobby. by rewrite lookup_delete_eq.
  - intros Hnot. unfold leaveLobby. rewrite Hl. simpl.
    rewrite filter_leave_absent by done.
    destruct (players l) as [|first rest] eqn:Hps; [done|].
    destruct (findPlayer (leaderId l) (first :: rest)) eqn:Hleader.
    + unfold setStatus, setPlayers. simpl. by rewrite Hps.
    + exfalso. apply findPlayer_None in Hleader. apply Hleader.
      unfold members in Hlead. by rewrite Hps in Hlead.
Qed.

(** X17: the outcomes of [setMazeSize], in the order in which they are
    tested: an unknown code; a caller who is not the leader, whatever the
    size; a size that is not one of the five sizes.  Each leaves the store
    as it was.  Otherwise the size of the lobby is replaced and nothing else
    changes. *)
Theorem setMazeSize_outcomes (lobbies : Lobbies) (key leader : string)
    (size : Z) :
  (lobbies !! key = None →
     setMazeSize lobbies key leader size = (lobbies, Err LOBBY_NOT_FOUND)) ∧
  (∀ l, lobbies !! key = Some l →
     (leaderId l ≠ leader →
        setMazeSize lobbies key leader size = (lobbies, Err NOT_LEADER)) ∧
     (leaderId l = leader → size ∉ [10; 20; 30; 40; 50] →
        setMazeSize lobbies key leader size = (lobbies, Err INVALID_SIZE)) ∧
     (leaderId l = leader → size ∈ [10; 20; 30; 40; 50] →
        setMazeSize lobbies key leader size
          = (<[key := setSelectedMazeSize l size]> lobbies,
             Ok (setSelectedMazeSize l size)) ∧
        selectedMazeSize (setSelectedMazeSize l size) = size ∧
        players (setSelectedMazeSize l size) = players l ∧
        leaderId (setSelectedMazeSize l size) = leaderId l ∧
        status (setSelectedMazeSize l size) = status l)).
Proof.
  split.
  { intros Hnone. unfold setMazeSize. by rewrite Hnone. }
  intros l Hl. unfold setMazeSize. rewrite Hl. split; [|split].
  - intros Hne. by rewrite bool_decide_eq_false_2.
  - intros Heq Hsize. rewrite bool_decide_eq_true_2 by done. simpl.
    by rewrite bool_decide_eq_false_2.
  - intros Heq Hsize. rewrite bool_decide_eq_true_2 by done. simpl.
    by rewrite bool_decide_eq_true_2.
Qed.

Lemma acceptFirst_answer cid b (ps : list LobbyPlayer) :
  NoDup (clientId <$> ps) → acceptFirst cid b ps = answer cid b <$> ps.
Proof.
  induction ps as [|p ps IH]; csimpl; [done|].
  intros [Hp Hps]%NoDup_cons. unfold answer at 1.
  case_bool_decide as Hid; csimpl.
  - f_equal. symmetry. etrans; [|apply list_fmap_id].
    apply list_fmap_ext. intros i q Hq. unfold answer.
    rewrite bool_decide_eq_false_2; [done|].
    intros Hqid. apply Hp. rewrite Hid, <- Hqid.
    apply list_elem_of_fmap_2. by eapply list_elem_of_lookup_2.
  - by rewrite IH.
Qed.

(** X18: answers to a start request, in every store reached by a history
    of requests.  [markAcceptGame] by a member records the answer of that
    member and of nobody else; by a client who is not a member it fails
    with NOT_IN_LOBBY and changes nothing.  [resetAcceptances] clears every
    answer, and [endGame] clears every answer and sets the status OPEN;
    neither changes the members, the leader or the size. *)
Theorem answers_recorded (ops : list Op) (key : string) (l : LobbyState) :
  run ops !! key = Some l →
  let cleared :=
    setPlayers l ((λ p, setAcceptedGame p false) <$> players l) in
  (∀ cid b, cid ∈ members l →
     markAcceptGame (run ops) key cid b
       = (<[key := setPlayers l (answer cid b <$> players l)]> (run ops),
          Ok (setPlayers l (answer cid b <$> players l)))) ∧
  (∀ cid b, cid ∉ members l →
     markAcceptGame (run ops) key cid b = (run ops, Err NOT_IN_LOBBY)) ∧
  resetAcceptances (run ops) key
    = (<[key := cleared]> (run ops), Some cleared) ∧
  endGame (run ops) key
    = (<[key := setStatus cleared OPEN]> (run ops),
       Some (setStatus cleared OPEN)) ∧
  (∀ p, p ∈ players cleared → acceptedGame p = false) ∧
  members cleared = members l.
Proof.
  intros Hl cleared.
  destruct (wfLobbies_run ops key l Hl) as [Hk Hc Hne Hcap Hd Hlead].
  split; [|split; [|split; [|split; [|split]]]].
  - intros cid b Hcid. unfold markAcceptGame. rewrite Hl.
    destruct (findPlayer cid (players l)) eqn:Hfind.
    + by rewrite acceptFirst_answer.
    + apply findPlayer_None in Hfind. done.
  - intros cid b Hcid. unfold markAcceptGame. rewrite Hl.
    destruct (findPlayer cid (players l)) eqn:Hfind; [|done].
    exfalso. apply Hcid, findPlayer_is_Some. eauto.
  - unfold resetAcceptances. by rewrite Hl.
  - unfold endGame. rewrite Hl. unfold resetAcceptances.
    rewrite lookup_insert_eq. simpl.
    by rewrite insert_insert_eq, lookup_insert_eq.
  - intros p (q & -> & _)%list_elem_of_fmap. done.
  - unfold members. simpl. apply reset_members.
Qed.

Lemma answers_recorded_witness :
  ∃ l, run twoPlayerHistory !! "0000" = Some l ∧
       markAcceptGame (run twoPlayerHistory) "0000" "bob" true
       = (<["0000" := setPlayers l (answer "bob" true <$> players l)]>
            (run twoPlayerHistory),
          Ok (setPlayers l (answer "bob" true <$> players l))).
Proof.
  destruct (run twoPlayerHistory !! "0000") as [l|] eqn:Hl;
    [|vm_compute in Hl; discriminate].
  exists l. split; [reflexivity|].
  destruct (answers_recorded twoPlayerHistory "0000" l Hl) as (H & _).
  apply H. vm_compute in Hl. injection Hl as <-. unfold members. simpl.
  rewrite !elem_of_cons. auto.
Defined.

(** X19: [cleanupStaleLobbies], in every store reached by a history of
    requests, removes exactly the lobbies created more than an hour
    (3600000 ms) before: every other lobby stays as it is, and no lobby
    appears. *)
Theorem cleanupStaleLobbies_reaps (ops : list Op) (now : Z) (key : string)
    (l : LobbyState) :
  run ops !! key = Some l →
  (cleanupStaleLobbies (run ops) now !! key = None
     ↔ 3600000 < now - createdAt l) ∧
  (now - createdAt l ≤ 3600000 →
     cleanupStaleLobbies (run ops) now !! key = Some l) ∧
  (∀ c, run ops !! c = None → cleanupStaleLobbies (run ops) now !! c = None).
Proof.
  intros Hl.
  destruct (wfLobbies_run ops key l Hl) as [Hk Hc Hne Hcap Hd Hlead].
  assert (length (players l) ≠ 0%nat) as Hlen by (by destruct (players l)).
  unfold cleanupStaleLobbies. split; [|split].
  - rewrite map_lookup_filter_None. unfold LOBBY_TTL_MS. split.
    + intros [?|Hall]; [congruence|]. specialize (Hall l Hl). simpl in Hall.
      destruct (decide (3600000 < now - createdAt l)); [done|].
      exfalso. apply Hall. intros [?|?]; [lia | done].
    + intros Hold. right. intros l0 Hl0. simpl.
      assert (l0 = l) as -> by congruence. intros Hkeep. apply Hkeep. left.
      lia.
  - intros Hyoung. apply map_lookup_filter_Some. split; [done|]. simpl.
    unfold LOBBY_TTL_MS. intros [?|?]; [lia | done].
  - intros c Hc'. apply map_lookup_filter_None. by left.
Qed.

Lemma cleanupStaleLobbies_reaps_witness :
  ∃ l, run twoPlayerHistory !! "0000" = Some l ∧
       cleanupStaleLobbies (run twoPlayerHistory) 3600000 !! "0000" = Some l.
Proof.
  destruct (run twoPlayerHistory !! "0000") as [l|] eqn:Hl;
    [|vm_compute in Hl; discriminate].
  exists l. split; [reflexivity|].
  destruct (cleanupStaleLobbies_reaps twoPlayerHistory 3600000 "0000" l Hl)
    as (_ & H & _).
  apply H. vm_compute in Hl. injection Hl as <-. simpl. lia.
Defined.

End LobbyLife.

(** * Properties of the registry of players *)

Section Registry.

Import Player PlayerSpec.

Lemma getPlayer_update players id f id' :
  getPlayer (update players id f) id'
  = (if bool_decide (id' = id) then f else λ player, player)
      <$> getPlayer players id'.
Proof.
  unfold getPlayer, update.
  induction players as [|[key player] players IH]; csimpl; [done|].
  destruct (decide (key = id)) as [->|Hkey].
  - rewrite (bool_decide_eq_true_2 (id = id)) by done. simpl.
    destruct (decide (id = id')) as [<-|Hne].
    + by rewrite !bool_decide_eq_true_2.
    + rewrite (bool_decide_eq_false_2 (id = id')) by done. apply IH.
  - rewrite (bool_decide_eq_false_2 (key = id)) by done. simpl.
    destruct (decide (key = id')) as [<-|Hne].
    + rewrite bool_decide_eq_true_2 by done. simpl.
      by rewrite bool_decide_eq_false_2.
    + rewrite bool_decide_eq_false_2 by done. apply IH.
Qed.

Lemma getPlayer_snoc players id player id' :
  getPlayer (players ++ [(id, player)]) id'
  = match getPlayer players id' with
    | Some found => Some found
    | None => if bool_decide (id = id') then Some player else None
    end.
Proof.
  unfold getPlayer.
  induction players as [|[key q] players IH]; simpl.
  - by case_bool_decide.
  - destruct (decide (key = id')) as [->|Hne].
    + by rewrite !(bool_decide_eq_true_2 (id' = id')).
    + rewrite !(bool_decide_eq_false_2 (key = id')) by done. apply IH.
Qed.

(** X20: [upsertPlayer] leaves under the client id a record that is
    connected, was last seen now and bears the new name, and it touches no
    other record.  For a client who is not registered the record is new:
    authenticated now, in no lobby and in no game.  For a registered client
    the time of authentication, the lobby and the game are kept: identifying
    again does not extend the ten seconds during which [authenticatePlayer]
    answers true. *)
Theorem upsertPlayer_keeps_authentication (players : Players)
    (id newName : string) (now : Z) :
  let players' := (upsertPlayer players id newName now).1 in
  let record := (upsertPlayer players id newName now).2 in
  getPlayer players' id = Some record ∧
  name record = newName ∧ connected record = true ∧ lastSeen record = now ∧
  (∀ id', id' ≠ id → getPlayer players' id' = getPlayer players id') ∧
  (getPlayer players id = None →
     authenticatedAt record = now ∧
     lobbyCode record = None ∧ gameCode record = None ∧
     ∀ t, authenticatePlayer players' id t = bool_decide (t - now ≤ 10000)) ∧
  (∀ old, getPlayer players id = Some old →
     authenticatedAt record = authenticatedAt old ∧
     lobbyCode record = lobbyCode old ∧ gameCode record = gameCode old ∧
     ∀ t, authenticatePlayer players' id t = authenticatePlayer players id t).
Proof.
  unfold upsertPlayer.
  destruct (getPlayer players id) as [old|] eqn:Hold; simpl.
  - split.
    { by rewrite getPlayer_update, Hold, bool_decide_eq_true_2. }
    repeat (split; [done|]). split.
    { intros id' Hne. rewrite getPlayer_update.
      rewrite bool_decide_eq_false_2 by done.
      destruct (getPlayer players id'); reflexivity. }
    split; [done|]. intros old' [= <-]. repeat (split; [done|]).
    intros t. unfold authenticatePlayer.
    by rewrite getPlayer_update, Hold, bool_decide_eq_true_2.
  - split.
    { by rewrite getPlayer_snoc, Hold, bool_decide_eq_true_2. }
    repeat (split; [done|]). split.
    { intros id' Hne. rewrite getPlayer_snoc.
      destruct (getPlayer players id'); [done|].
      by rewrite bool_decide_eq_false_2. }
    split; [|done]. intros _. repeat (split; [done|]).
    intros t. unfold authenticatePlayer.
    by rewrite getPlayer_snoc, Hold, bool_decide_eq_true_2.
Qed.

(** The requests keep the registry tidy. *)
Lemma getPlayer_elem players id player :
  getPlayer players id = Some player → (id, player) ∈ players.
Proof.
  unfold getPlayer. destruct (List.find _ players) as [[key q]|] eqn:Hfind;
    [|done].
  intros [= <-]. apply find_some in Hfind as [Hin Hkey].
  apply bool_decide_eq_true in Hkey. simpl in Hkey. subst.
  by apply list_elem_of_In.
Qed.

Lemma getPlayer_None players id :
  getPlayer players id = None ↔ id ∉ fst <$> players.
Proof.
  unfold getPlayer.
  induction players as [|[key q] players IH]; csimpl.
  - split; [intros _; apply not_elem_of_nil | done].
  - case_bool_decide as Hkey; simpl.
    + split; [done|]. intros Hnot. exfalso. apply Hnot. subst. left.
    + rewrite IH, not_elem_of_cons. naive_solver.
Qed.

Lemma getPlayer_tidy players id player :
  tidy players → (id, player) ∈ players → getPlayer players id = Some player.
Proof.
  intros [Hnd _]. unfold getPlayer.
  induction players as [|[key q] players IH]; csimpl.
  - by intros ?%elem_of_nil.
  - apply NoDup_cons in Hnd as [Hkey Hnd].
    intros [[= -> ->]|Hin]%elem_of_cons.
    + by rewrite bool_decide_eq_true_2.
    + case_bool_decide as Hid; simpl; [|by apply IH].
      exfalso. subst. apply Hkey.
      by apply (list_elem_of_fmap_2 fst _ (id, player)).
Qed.

Lemma update_keys players id f : fst <$> update players id f = fst <$> players.
Proof.
  unfold update. rewrite <- list_fmap_compose. apply list_fmap_ext.
  intros i [key q] _. simpl. by case_bool_decide.
Qed.

Lemma tidy_update players id f :
  (∀ player, (id, player) ∈ players → clientId (f player) = id) →
  tidy players → tidy (update players id f).
Proof.
  intros Hf [Hnd Hids]. split; [by rewrite update_keys|].
  intros key q Hin. unfold update in Hin.
  apply list_elem_of_fmap in Hin as ([key' q'] & Heq & Hin).
  simpl in Heq. case_bool_decide.
  - injection Heq as -> ->. subst. by apply Hf.
  - injection Heq as -> ->. by apply Hids.
Qed.

Lemma tidy_filter (P : string * PlayerRecord → Prop)
    `{∀ kv, Decision (P kv)} players :
  tidy players → tidy (filter P players).
Proof.
  intros [Hnd Hids]. split.
  - eapply sublist_NoDup; [exact Hnd|].
    apply fmap_sublist, sublist_filter.
  - intros key q [_ Hin]%list_elem_of_filter. by apply Hids.
Qed.

Lemma tidy_apply players op : tidy players → tidy (apply players op).
Proof.
  intros Ht.
  destruct op as [id nm now | id now | id lc | id gc | id now | id
                 | age now]; simpl.
  - unfold upsertPlayer.
    destruct (getPlayer players id) as [old|] eqn:Hold; simpl.
    + apply tidy_update; [|done]. intros player _. simpl.
      apply getPlayer_elem in Hold. destruct Ht as [_ Hids]. by apply Hids.
    + destruct Ht as [Hnd Hids]. split.
      * rewrite fmap_app. simpl. apply NoDup_app. split; [done|].
        split; [|apply NoDup_singleton].
        intros key Hkey ->%list_elem_of_singleton.
        by apply getPlayer_None in Hold.
      * intros key q [Hin|Hin]%elem_of_app; [by apply Hids|].
        apply list_elem_of_singleton in Hin. by injection Hin as -> ->.
  - unfold markPlayerSeen. destruct (getPlayer players id); [|done].
    apply tidy_update; [|done]. intros player Hin. simpl.
    destruct Ht as [_ Hids]. by apply Hids.
  - unfold assignLobby. destruct (getPlayer players id); [|done].
    apply tidy_update; [|done]. intros player Hin. simpl.
    destruct Ht as [_ Hids]. by apply Hids.
  - unfold assignGame. destruct (getPlayer players id); [|done].
    apply tidy_update; [|done]. intros player Hin. simpl.
    destruct Ht as [_ Hids]. by apply Hids.
  - unfold markDisconnected. destruct (getPlayer players id); [|done].
    apply tidy_update; [|done]. intros player Hin. simpl.
    destruct Ht as [_ Hids]. by apply Hids.
  - by apply tidy_filter.
  - by apply tidy_filter.
Qed.

End Registry.

Section RegistryHistory.

Import Player PlayerSpec.

Lemma tidy_run ops : tidy (run ops).
Proof.
  unfold run.
  assert (tidy []) as Hempty.
  { split; [apply NoDup_nil_2|]. by intros id player ?%elem_of_nil. }
  revert Hempty. generalize ([] : Players).
  induction ops as [|op ops IH]; intros players Ht; simpl; [done|].
  by apply IH, tidy_apply.
Qed.

Lemma getPlayer_filter (P : string * PlayerRecord → Prop)
    `{∀ kv, Decision (P kv)} players id player :
  tidy players →
  getPlayer (filter P players) id = Some player
  ↔ getPlayer players id = Some player ∧ P (id, player).
Proof.
  intros Ht. split.
  - intros [HP Hin]%getPlayer_elem%list_elem_of_filter.
    split; [by apply getPlayer_tidy | done].
  - intros [Hin%getPlayer_elem HP].
    apply getPlayer_tidy; [by apply tidy_filter|].
    by apply list_elem_of_filter.
Qed.

Lemma tidy_ids players :
  tidy players → clientId <$> (snd <$> players) = fst <$> players.
Proof.
  intros [_ Hids]. rewrite <- list_fmap_compose. apply list_fmap_ext.
  intros i [id player] Hi. simpl. apply Hids.
  by eapply list_elem_of_lookup_2.
Qed.

(** X21: in every registry reached by a history of requests, each client id
    has at most one record and each record is stored under its own client
    id.  [getPlayersInLobby] lists exactly the registered players whose
    lobby is the given one, and [getPlayersInGame] those whose game is the
    given one, each player once, in the order of registration. *)
Theorem registry_lists (ops : list Op) (code : string) :
  let players := run ops in
  NoDup (fst <$> players) ∧
  (∀ id player, getPlayer players id = Some player → clientId player = id) ∧
  (∀ player, player ∈ getPlayersInLobby players code
     ↔ ∃ id, getPlayer players id = Some player
             ∧ lobbyCode player = Some code) ∧
  (∀ player, player ∈ getPlayersInGame players code
     ↔ ∃ id, getPlayer players id = Some player
             ∧ gameCode player = Some code) ∧
  clientId <$> getPlayersInLobby players code `sublist_of` fst <$> players ∧
  clientId <$> getPlayersInGame players code `sublist_of` fst <$> players ∧
  NoDup (clientId <$> getPlayersInLobby players code) ∧
  NoDup (clientId <$> getPlayersInGame players code).
Proof.
  intros players. pose proof (tidy_run ops) as Ht. fold players in Ht.
  pose proof Ht as [Hnd Hids].
  assert (∀ (P : PlayerRecord → Prop) `{∀ r, Decision (P r)} player,
            player ∈ filter P (snd <$> players)
            ↔ ∃ id, getPlayer players id = Some player ∧ P player) as Hlist.
  { intros P ? player. rewrite list_elem_of_filter, list_elem_of_fmap. split.
    - intros (HP & [id q] & -> & Hin). exists id.
      split; [by apply getPlayer_tidy | done].
    - intros (id & Hin%getPlayer_elem & HP). split; [done|].
      by exists (id, player). }
  assert (∀ (P : PlayerRecord → Prop) `{∀ r, Decision (P r)},
            clientId <$> filter P (snd <$> players)
            `sublist_of` fst <$> players) as Hsub.
  { intros P ?. rewrite <- (tidy_ids players Ht).
    apply fmap_sublist, sublist_filter. }
  split; [done|]. split.
  { intros id player Hin%getPlayer_elem. by apply Hids. }
  split; [apply Hlist|]. split; [apply Hlist|].
  split; [apply Hsub|]. split; [apply Hsub|].
  split; (eapply sublist_NoDup; [exact Hnd | apply Hsub]).
Qed.

(** X22: deletions from a registry reached by a history of requests.
    [removePlayer] deletes the record of the client and no other;
    [cleanupStalePlayers] keeps exactly the records last seen at most
    [maxAgeMs] before, without reordering them; and after either, the
    records that remain are the records that were there. *)
Theorem registry_deletions (ops : list Op) (id : string)
    (maxAgeMs now : Z) :
  let players := run ops in
  getPlayer (removePlayer players id) id = None ∧
  (∀ id', id' ≠ id →
     getPlayer (removePlayer players id) id' = getPlayer players id') ∧
  (∀ id' player,
     getPlayer (cleanupStalePlayers players maxAgeMs now) id' = Some player
     ↔ getPlayer players id' = Some player
       ∧ now - lastSeen player ≤ maxAgeMs) ∧
  cleanupStalePlayers players maxAgeMs now `sublist_of` players ∧
  removePlayer players id `sublist_of` players.
Proof.
  intros players. pose proof (tidy_run ops) as Ht. fold players in Ht.
  split; [|split; [|split; [|split]]].
  - apply getPlayer_None. unfold removePlayer.
    intros ([key q] & -> & [Hne _]%list_elem_of_filter)%list_elem_of_fmap.
    done.
  - intros id' Hne. unfold removePlayer.
    destruct (getPlayer players id') as [player|] eqn:Hp.
    + apply getPlayer_filter; [done|]. split; [done|]. simpl. done.
    + apply getPlayer_None. apply getPlayer_None in Hp.
      intros ([key q] & -> & [_ Hin]%list_elem_of_filter)%list_elem_of_fmap.
      apply Hp. by apply (list_elem_of_fmap_2 fst _ (key, q)).
  - intros id' player. unfold cleanupStalePlayers.
    rewrite getPlayer_filter by done. simpl. split.
    + intros [? ?]. split; [done|lia].
    + intros [? ?]. split; [done|lia].
  - apply sublist_filter.
  - apply sublist_filter.
Qed.

End RegistryHistory.

(** * Properties of the server *)

Section SocketRegistry.

Import Handlers ServerSpec.

Lemma runSockets_nonempty ops code sockets :
  runSockets ops !! code = Some sockets → sockets ≠ ∅.
Proof.
  unfold runSockets.
  assert (∀ c (set : gset nat), (∅ : Sockets) !! c = Some set → set ≠ ∅)
    as Hempty.
  { intros c set H. by rewrite lookup_empty in H. }
  revert Hempty code sockets. generalize (∅ : Sockets).
  induction ops as [|op ops IH]; intros m Hm; simpl; [done|].
  apply IH. intros c set.
  destruct op as [socket lc | socket [lc|]]; simpl; [| |by apply Hm].
  - unfold addSocketToLobby.
    destruct (m !! lc) as [old|] eqn:Hold; rewrite lookup_insert;
      (case_decide; [intros [= <-]; set_solver | by apply Hm]).
  - unfold removeSocketFromLobby. case_bool_decide; [by apply Hm|].
    destruct (m !! lc) as [old|] eqn:Hold; [|by apply Hm].
    case_bool_decide as Hsize.
    + rewrite lookup_delete. case_decide; [done | by apply Hm].
    + rewrite lookup_insert. case_decide; [|by apply Hm].
      intros [= <-] Hnone. apply Hsize. rewrite Hnone. apply size_empty.
Qed.

(** X23: the registry of sockets, after any history of additions and
    removals.  No lobby is registered with an empty set of sockets.  Adding
    a socket registers it for the lobby and removing it unregisters it,
    without touching the other lobbies; removing with no lobby code, or with
    the empty code, does nothing.  Removing a socket that was just added to a
    lobby in which it was not registered gives the registry back as it
    was. *)
Theorem sockets_registered (ops : list SocketOp) (socket : nat)
    (code : string) :
  let m := runSockets ops in
  (∀ c sockets, m !! c = Some sockets → sockets ≠ ∅) ∧
  socketsOf (addSocketToLobby m socket code) code
    = {[socket]} ∪ socketsOf m code ∧
  (code ≠ "" →
     socketsOf (removeSocketFromLobby m socket (Some code)) code
       = socketsOf m code ∖ {[socket]}) ∧
  (∀ c, c ≠ code →
     addSocketToLobby m socket code !! c = m !! c ∧
     removeSocketFromLobby m socket (Some code) !! c = m !! c) ∧
  removeSocketFromLobby m socket None = m ∧
  removeSocketFromLobby m socket (Some "") = m ∧
  (code ≠ "" → socket ∉ socketsOf m code →
     removeSocketFromLobby (addSocketToLobby m socket code) socket (Some code)
       = m).
Proof.
  intros m. pose proof (runSockets_nonempty ops) as Hne. fold m in Hne.
  split; [done|]. split; [|split; [|split; [|split; [done|split; [done|]]]]].
  - unfold socketsOf, addSocketToLobby.
    destruct (m !! code) as [old|] eqn:Hold; rewrite lookup_insert_eq; simpl;
      set_solver.
  - intros Hcode. unfold socketsOf, removeSocketFromLobby.
    rewrite bool_decide_eq_false_2 by done.
    destruct (m !! code) as [old|] eqn:Hold; simpl.
    + case_bool_decide as Hsize.
      * rewrite lookup_delete_eq. simpl. apply size_empty_inv in Hsize.
        symmetry. by apply leibniz_equiv.
      * by rewrite lookup_insert_eq.
    + rewrite Hold. simpl. set_solver.
  - intros c Hc. split.
    + unfold addSocketToLobby.
      destruct (m !! code); by rewrite lookup_insert_ne.
    + unfold removeSocketFromLobby. case_bool_decide; [done|].
      destruct (m !! code); [|done].
      case_bool_decide; [by rewrite lookup_delete_ne
                        | by rewrite lookup_insert_ne].
  - intros Hcode Hnot. unfold socketsOf in Hnot.
    unfold addSocketToLobby, removeSocketFromLobby.
    rewrite bool_decide_eq_false_2 by done.
    destruct (m !! code) as [old|] eqn:Hold; simpl in Hnot;
      rewrite lookup_insert_eq.
    + assert (({[socket]} ∪ old) ∖ {[socket]} = old) as -> by set_solver.
      rewrite bool_decide_eq_false_2.
      * rewrite insert_insert_eq. by apply insert_id.
      * intros Hsize%size_empty_inv. apply (Hne code old Hold).
        by apply leibniz_equiv.
    + assert (({[socket]} : gset nat) ∖ {[socket]} = ∅) as -> by set_solver.
      rewrite size_empty, bool_decide_eq_true_2 by done.
      by rewrite delete_insert_eq, delete_id.
Qed.

End SocketRegistry.

Section Countdown.

Import Handlers ServerSpec.

Lemma ticks_pending key times :
  ∀ s remaining,
    countdownTimers s !! key = Some remaining →
    Z.of_nat (length times) < remaining →
    ticks s key times
    = setCountdownTimers s
        (<[key := remaining - Z.of_nat (length times)]> (countdownTimers s)).
Proof.
  induction times as [|[now now'] times IH]; intros s remaining Hr Hlen.
  - simpl. rewrite Z.sub_0_r, insert_id by done. by destruct s.
  - simpl in Hlen.
    change (ticks s key ((now, now') :: times))
      with (ticks (countdownTick s key now now') key times).
    assert (countdownTick s key now now'
            = setCountdownTimers s
                (<[key := remaining - 1]> (countdownTimers s))) as ->.
    { unfold countdownTick. rewrite Hr.
      by rewrite bool_decide_eq_false_2 by lia. }
    rewrite (IH _ (remaining - 1)); simpl.
    + unfold setCountdownTimers. simpl. rewrite insert_insert_eq.
      do 2 f_equal. lia.
    + by rewrite lookup_insert_eq.
    + lia.
Qed.

(** X24: the countdown.  [scheduleCountdown] for a lobby that has a game
    arms a timer of 5.  The first four firings only count down, 5 - n being
    left after n of them, and change no store.  The fifth firing removes the
    timer and begins the game: phase PLAYING, started at the first reading
    [now] of the clock, reconnect deadline 30 seconds after the second
    reading [now'], same maze, players and winner; and it puts the lobby, if
    it is still live, in status IN_GAME.  After that the timer fires no
    more. *)
Theorem countdown_elapses (s : Stores) (l : Lobby.LobbyState)
    (game : Game.GameState) (times : list (Z * Z)) (now now' : Z) :
  games s !! Lobby.code l = Some game →
  (length times ≤ 4)%nat →
  let key := Lobby.code l in
  let armed := scheduleCountdown s l in
  let pending := ticks armed key times in
  armed = setCountdownTimers s (<[key := 5]> (countdownTimers s)) ∧
  pending
    = setCountdownTimers s
        (<[key := 5 - Z.of_nat (length times)]> (countdownTimers s)) ∧
  (length times = 4%nat →
   let started := countdownTick pending key now now' in
   countdownTimers started = delete key (countdownTimers s) ∧
   games started
     = <[key := Game.mkGameState (Game.lobbyCode game) (Game.maze game)
                  Game.PLAYING (Game.players game) (Some now)
                  (Game.winnerId game) (Some (now' + 30000))]> (games s) ∧
   lobbies started = (Lobby.finishGame (lobbies s) key).1 ∧
   (∀ lobby, lobbies s !! key = Some lobby →
      lobbies started !! key = Some (Lobby.setStatus lobby Lobby.IN_GAME)) ∧
   players started = players s ∧
   ∀ later later', countdownTick started key later later' = started).
Proof.
  intros Hgame Hlen key armed pending. fold key in Hgame.
  assert (armed = setCountdownTimers s (<[key := 5]> (countdownTimers s)))
    as Harmed.
  { subst armed. unfold scheduleCountdown, Game.getGame. fold key.
    by rewrite Hgame. }
  assert (pending
          = setCountdownTimers s
              (<[key := 5 - Z.of_nat (length times)]> (countdownTimers s)))
    as Hpending.
  { subst pending. rewrite (ticks_pending key times armed 5).
    - rewrite Harmed. unfold setCountdownTimers. simpl.
      by rewrite insert_insert_eq.
    - rewrite Harmed. simpl. by rewrite lookup_insert_eq.
    - lia. }
  split; [done|]. split; [done|]. intros H4 started.
  assert (started
          = mkStores (Lobby.finishGame (lobbies s) key).1
              (<[key := Game.mkGameState (Game.lobbyCode game) (Game.maze game)
                          Game.PLAYING (Game.players game) (Some now)
                          (Game.winnerId game) (Some (now' + 30000))]> (games s))
              (players s) (lobbySockets s) (delete key (countdownTimers s)))
    as ->.
  { subst started. rewrite Hpending, H4. unfold countdownTick. simpl.
    rewrite lookup_insert_eq. rewrite bool_decide_eq_true_2 by lia.
    simpl. unfold Game.beginGame. rewrite Hgame. simpl.
    unfold setLobbies, setGames. simpl. by rewrite delete_insert_eq. }
  simpl. repeat (split; [done|]). split; [|split; [done|]].
  - intros lobby Hlobby. unfold Lobby.finishGame. rewrite Hlobby. simpl.
    by rewrite lookup_insert_eq.
  - intros later later'. unfold countdownTick. simpl.
    by rewrite lookup_delete_eq.
Qed.

Lemma countdown_elapses_witness :
  let s := mkStores ∅ GameSpec.corridorGames [] ∅ ∅ in
  let times := [(1000, 1000); (2000, 2001); (3000, 3000); (4000, 4002)] in
  ∃ game,
    games (countdownTick
             (ticks (scheduleCountdown s LobbySpec.twoPlayerLobby) "0000"
                times) "0000" 5000 5003) !! "0000"
    = Some game ∧
    Game.phase game = Game.PLAYING ∧ Game.startedAt game = Some 5000 ∧
    Game.allowReconnectUntil game = Some 35003.
Proof.
  intros s times.
  destruct (countdown_elapses s LobbySpec.twoPlayerLobby GameSpec.corridorGame
              times 5000 5003) as (_ & _ & H).
  - reflexivity.
  - simpl. lia.
  - destruct (H eq_refl) as (_ & Hgames & _).
    change (Lobby.code LobbySpec.twoPlayerLobby) with "0000" in Hgames.
    eexists. rewrite Hgames, lookup_insert_eq. by repeat split.
Defined.

End Countdown.

Section AcceptGame.

Import Handlers ServerSpec.

#[local] Arguments Lobby.findPlayer : simpl never.

Lemma createGame_returns games code size infos now rnd k :
  1 ≤ size →
  ∃ game k',
    Game.createGame games code size infos now rnd k
      = Some (<[code := game]> games, game, k') ∧
    Game.lobbyCode game = code ∧ Game.phase game = Game.WAITING ∧
    Game.winnerId game = None ∧ Game.startedAt game = None ∧
    Game.players game = Game.initialPlayers (start (Game.maze game)) infos ∧
    width (Game.maze game) = 2 * size + 1.
Proof.
  intros Hs.
  destruct (generateMaze_run size rnd k Hs)
    as (g1 & k1 & exits & e & k2 & g2 & st & _ & _ & _ & _ & _ & _ & _
        & _ & _ & _ & Hgen).
  unfold Game.createGame, Maze.bind, Maze.ret. rewrite Hgen.
  eexists _, _. split; [reflexivity|]. simpl. repeat (split; [done|]). lia.
Qed.

Lemma playerInfos_ids l :
  Game.infoClientId <$> playerInfos l = LobbySpec.members l.
Proof.
  unfold playerInfos, LobbySpec.members. rewrite <- list_fmap_compose.
  by apply list_fmap_ext.
Qed.

Lemma answer_ready me (ps : list Lobby.LobbyPlayer) :
  (∀ p, p ∈ ps → Lobby.clientId p ≠ me → Lobby.acceptedGame p = true) →
  forallb Lobby.acceptedGame (LobbyShape.answer me true <$> ps) = true.
Proof.
  intros Hps. apply forallb_forall. intros q Hq.
  apply list_elem_of_In, list_elem_of_fmap in Hq as (p & -> & Hp).
  unfold LobbyShape.answer. case_bool_decide; [done|]. by apply Hps.
Qed.

(** X25: the last acceptance starts the game.  In every store of lobbies
    reached by a history of requests, when a member of a lobby of two
    accepts and the other member has accepted, [handleAcceptGamePacket]
    records the answer, leaves the lobby a game in phase COUNTDOWN that
    starts 5 seconds later, and arms the timer of the lobby with 5.  When
    the lobby had no game, the game is new: its maze has side twice the
    size of the lobby plus one, its players are the members of the lobby,
    all on the start, and nobody has won.  When the lobby had a game, that
    game is kept, with its maze, its players where they stood and its
    winner. *)
Theorem last_acceptance_starts_countdown (ops : list LobbySpec.Op)
    (s : Stores) (key me : string) (l : Lobby.LobbyState) (now now' : Z)
    (rnd : nat → nat) (k : nat) :
  lobbies s = LobbySpec.run ops →
  lobbies s !! key = Some l →
  length (Lobby.players l) = 2%nat →
  me ∈ LobbySpec.members l →
  (∀ p, p ∈ Lobby.players l → Lobby.clientId p ≠ me →
        Lobby.acceptedGame p = true) →
  ∃ s' game k',
    handleAcceptGamePacket s (Some key) me true now now' rnd k
      = (s', AcceptCountdown, k') ∧
    lobbies s'
      = <[key := Lobby.setPlayers l
                   (LobbyShape.answer me true <$> Lobby.players l)]>
          (lobbies s) ∧
    games s' !! key = Some game ∧
    (∀ c, c ≠ key → games s' !! c = games s !! c) ∧
    Game.phase game = Game.COUNTDOWN ∧
    Game.startedAt game = Some (now' + 5000) ∧
    countdownTimers s' = <[key := 5]> (countdownTimers s) ∧
    (games s !! key = None →
       width (Game.maze game) = 2 * Lobby.selectedMazeSize l + 1 ∧
       (∀ cid, is_Some (Game.players game !! cid)
               ↔ cid ∈ LobbySpec.members l) ∧
       (∀ cid p, Game.players game !! cid = Some p →
                 Game.position p = start (Game.maze game)) ∧
       Game.winnerId game = None) ∧
    (∀ old, games s !! key = Some old →
       Game.maze game = Game.maze old ∧
       Game.players game = Game.players old ∧
       Game.winnerId game = Game.winnerId old ∧ players s' = players s).
Proof.
  intros Hrun Hl Hlen Hme Hothers.
  assert (LobbySpec.wfLobby key l) as [Hk Hc Hne Hcap Hd Hlead].
  { apply (wfLobbies_run ops). by rewrite <- Hrun. }
  assert (LobbyShape.soundLobby key l) as [_ Hsize].
  { apply (soundLobbies_run ops). by rewrite <- Hrun. }
  assert (1 ≤ Lobby.selectedMazeSize l) as Hpos.
  { unfold Lobby.mazeSizeValues in Hsize. rewrite !elem_of_cons in Hsize.
    destruct Hsize as [->|[->|[->|[->|[->|[]%elem_of_nil]]]]]; lia. }
  unfold handleAcceptGamePacket.
  rewrite (bool_decide_eq_false_2 (key = "")) by done.
  unfold Lobby.markAcceptGame. rewrite Hl.
  destruct (Lobby.findPlayer me (Lobby.players l)) eqn:Hfind; cycle 1.
  { apply findPlayer_None in Hfind. done. }
  rewrite acceptFirst_answer by done. simpl.
  rewrite length_fmap, Hlen, answer_ready by done. simpl.
  unfold ensureGame, Game.getGame. simpl. rewrite Hc.
  destruct (games s !! key) as [old|] eqn:Hold.
  - unfold Game.startCountdown. simpl. rewrite Hold. simpl.
    unfold scheduleCountdown, Game.getGame. simpl. rewrite Hc.
    rewrite lookup_insert_eq. simpl.
    eexists _, _, _. split; [reflexivity|]. simpl.
    split; [done|]. split; [by rewrite lookup_insert_eq|].
    split; [intros c Hne'; by rewrite lookup_insert_ne|].
    split; [done|]. split; [by rewrite Z.mul_comm|].
    split; [done|]. split; [done|]. by intros old' [= <-].
  - destruct (createGame_returns (games s) key (Lobby.selectedMazeSize l)
                (playerInfos (Lobby.setPlayers l
                   (LobbyShape.answer me true <$> Lobby.players l)))
                now rnd k Hpos)
      as (game & k' & Hcreate & Hcode & Hphase & Hwin & Hst & Hplayers & Hw).
    simpl. rewrite Hcreate. simpl.
    unfold Game.startCountdown. simpl. rewrite lookup_insert_eq. simpl.
    unfold scheduleCountdown, Game.getGame. simpl. rewrite Hc.
    rewrite lookup_insert_eq. simpl.
    eexists _, _, _. split; [reflexivity|]. simpl.
    split; [done|]. split; [by rewrite lookup_insert_eq|].
    split; [intros c Hne'; by rewrite !lookup_insert_ne|].
    split; [done|]. split; [by rewrite Z.mul_comm|].
    split; [done|]. split; [|done]. intros _.
    split; [done|]. split; [|split; [|done]].
    + intros cid. simpl.
      rewrite Hplayers, initialPlayers_dom, playerInfos_ids.
      unfold LobbySpec.members. simpl. rewrite <- list_fmap_compose.
      rewrite (list_fmap_ext (Lobby.clientId ∘ LobbyShape.answer me true)
                 Lobby.clientId (Lobby.players l)); [done|].
      intros i p _. simpl. unfold LobbyShape.answer. by case_bool_decide.
    + intros cid p Hp. simpl in Hp. rewrite Hplayers in Hp.
      by apply initialPlayers_fields in Hp as (_ & ? & _).
Qed.

End AcceptGame.

Lemma last_acceptance_starts_countdown_witness :
  ∃ s' game k',
    Handlers.handleAcceptGamePacket ServerSpec.startedStores (Some "0000")
      "bob" true 100 101 (λ n, n) 0 = (s', Handlers.AcceptCountdown, k') ∧
    Handlers.games s' !! "0000" = Some game ∧
    Game.phase game = Game.COUNTDOWN.
Proof.
  destruct (last_acceptance_starts_countdown ServerSpec.startedHistory
              ServerSpec.startedStores "0000" "bob" ServerSpec.startedLobby
              100 101 (λ n, n) 0)
    as (s' & game & k' & H1 & _ & H2 & _ & H3 & _).
  - reflexivity.
  - vm_compute. reflexivity.
  - reflexivity.
  - unfold LobbySpec.members. simpl. rewrite !elem_of_cons. auto.
  - intros p Hp Hne. simpl in Hp. rewrite !elem_of_cons in Hp.
    destruct Hp as [->|[->|Hp]]; [reflexivity | done |].
    by apply elem_of_nil in Hp.
  - exists s', game, k'. split; [exact H1|]. split; [exact H2 | exact H3].
Defined.

Section DeclineGame.

Import Handlers ServerSpec.

#[local] Arguments Lobby.findPlayer : simpl never.

(** X26: declining ends the round.  In every store of lobbies reached by a
    history of requests, when a member declines, [handleAcceptGamePacket]
    leaves the lobbies as [endGame] would: every answer of the lobby is
    cleared and its status is OPEN, with the same members, leader and size;
    the games, the registry of players and the timers stay as they are (a
    countdown that was armed is not cancelled).  An answer from a client who
    is not a member of the lobby is refused and changes nothing, and so is an
    answer from a connection that is in no lobby. *)
Theorem decline_reopens_lobby (ops : list LobbySpec.Op) (s : Stores)
    (key me : string) (l : Lobby.LobbyState) (now now' : Z)
    (rnd : nat → nat) (k : nat) :
  lobbies s = LobbySpec.run ops →
  lobbies s !! key = Some l →
  let cleared :=
    Lobby.setStatus
      (Lobby.setPlayers l
         ((λ p, Lobby.setAcceptedGame p false) <$> Lobby.players l))
      Lobby.OPEN in
  (me ∈ LobbySpec.members l →
     handleAcceptGamePacket s (Some key) me false now now' rnd k
       = (setLobbies s (<[key := cleared]> (lobbies s)), AcceptDeclined, k) ∧
     (Lobby.endGame (lobbies s) key).1 = <[key := cleared]> (lobbies s)) ∧
  (me ∉ LobbySpec.members l →
     ∀ accepted,
       handleAcceptGamePacket s (Some key) me accepted now now' rnd k
         = (s, AcceptFailed, k)) ∧
  (∀ accepted,
     handleAcceptGamePacket s None me accepted now now' rnd k
       = (s, AcceptNotInLobby, k) ∧
     handleAcceptGamePacket s (Some "") me accepted now now' rnd k
       = (s, AcceptNotInLobby, k)).
Proof.
  intros Hrun Hl cleared.
  assert (LobbySpec.wfLobby key l) as [Hk Hc Hne Hcap Hd Hlead].
  { apply (wfLobbies_run ops). by rewrite <- Hrun. }
  split; [|split; [|done]].
  - intros Hme. split.
    + unfold handleAcceptGamePacket.
      rewrite (bool_decide_eq_false_2 (key = "")) by done.
      unfold Lobby.markAcceptGame. rewrite Hl.
      destruct (Lobby.findPlayer me (Lobby.players l)) eqn:Hfind; cycle 1.
      { apply findPlayer_None in Hfind. done. }
      rewrite acceptFirst_answer by done. simpl.
      unfold Lobby.resetAcceptances. simpl. rewrite Hc.
      rewrite lookup_insert_eq. simpl. rewrite insert_insert_eq.
      unfold Server.openLobby. rewrite lookup_insert_eq, insert_insert_eq.
      assert ((λ player, Lobby.setAcceptedGame player false)
                <$> (LobbyShape.answer me false <$> Lobby.players l)
              = (λ p, Lobby.setAcceptedGame p false) <$> Lobby.players l)
        as ->; [|done].
      rewrite <- list_fmap_compose. apply list_fmap_ext.
      intros i p _. simpl. unfold LobbyShape.answer. by case_bool_decide.
    + unfold Lobby.endGame. rewrite Hl. unfold Lobby.resetAcceptances.
      rewrite lookup_insert_eq. simpl. by rewrite insert_insert_eq.
  - intros Hme accepted. unfold handleAcceptGamePacket.
    rewrite (bool_decide_eq_false_2 (key = "")) by done.
    unfold Lobby.markAcceptGame. rewrite Hl.
    destruct (Lobby.findPlayer me (Lobby.players l)) eqn:Hfind; [|done].
    exfalso. apply Hme, findPlayer_is_Some. eauto.
Qed.

End DeclineGame.

Lemma decline_reopens_lobby_witness :
  Handlers.lobbies
    (Handlers.handleAcceptGamePacket ServerSpec.startedStores (Some "0000")
       "bob" false 100 101 (λ n, n) 0).1.1 !! "0000"
  = Some (Lobby.setStatus
            (Lobby.setPlayers ServerSpec.startedLobby
               ((λ p, Lobby.setAcceptedGame p false)
                  <$> Lobby.players ServerSpec.startedLobby))
            Lobby.OPEN).
Proof.
  destruct (decline_reopens_lobby ServerSpec.startedHistory
              ServerSpec.startedStores "0000" "bob" ServerSpec.startedLobby
              100 101 (λ n, n) 0) as (H & _).
  - reflexivity.
  - vm_compute. reflexivity.
  - destruct H as [-> _].
    + unfold LobbySpec.members. simpl. rewrite !elem_of_cons. auto.
    + simpl. by rewrite lookup_insert_eq.
Defined.

Section LobbyHandlers.

Import Handlers ServerSpec.

#[local] Arguments Lobby.findPlayer : simpl never.

(** X27: restarting.  In every store of lobbies reached by a history of
    requests, [handleRestart] refuses anyone but the leader of the lobby
    (and any request for an unknown lobby), changing nothing.  For the
    leader it always goes through: the game of the lobby is replaced by a
    new game in phase WAITING, without winner or start time, whose players
    are the members of the lobby, all on the start of the new maze; the
    lobby is OPEN, with the answer of the leader set and every other answer
    cleared; the other games, the sockets and the timers stay as they
    are. *)
Theorem restart_by_leader (ops : list LobbySpec.Op) (s : Stores)
    (key : string) (l : Lobby.LobbyState) (now : Z) (rnd : nat → nat)
    (k : nat) :
  lobbies s = LobbySpec.run ops →
  lobbies s !! key = Some l →
  (∀ cid, cid ≠ Lobby.leaderId l →
     handleRestart s (Some key) cid now rnd k = (s, RestartNotLeader, k)) ∧
  (∀ c cid, c ≠ "" → lobbies s !! c = None →
     handleRestart s (Some c) cid now rnd k = (s, RestartLobbyNotFound, k)) ∧
  ∃ s' game k',
    handleRestart s (Some key) (Lobby.leaderId l) now rnd k
      = (s', Restarted, k') ∧
    games s' = <[key := game]> (games s) ∧
    Game.phase game = Game.WAITING ∧ Game.winnerId game = None ∧
    Game.startedAt game = None ∧
    (∀ cid, is_Some (Game.players game !! cid) ↔ cid ∈ LobbySpec.members l) ∧
    (∀ cid p, Game.players game !! cid = Some p →
              Game.position p = start (Game.maze game)) ∧
    lobbies s'
      = <[key := Lobby.setStatus
                   (Lobby.setPlayers l
                      ((λ p, Lobby.mkLobbyPlayer (Lobby.clientId p)
                               (Lobby.name p)
                               (bool_decide
                                  (Lobby.clientId p = Lobby.leaderId l)))
                         <$> Lobby.players l))
                   Lobby.OPEN]> (lobbies s) ∧
    lobbySockets s' = lobbySockets s ∧
    countdownTimers s' = countdownTimers s.
Proof.
  intros Hrun Hl.
  assert (LobbySpec.wfLobby key l) as [Hk Hc Hne Hcap Hd Hlead].
  { apply (wfLobbies_run ops). by rewrite <- Hrun. }
  assert (LobbyShape.soundLobby key l) as [_ Hsize].
  { apply (soundLobbies_run ops). by rewrite <- Hrun. }
  assert (1 ≤ Lobby.selectedMazeSize l) as Hpos.
  { unfold Lobby.mazeSizeValues in Hsize. rewrite !elem_of_cons in Hsize.
    destruct Hsize as [->|[->|[->|[->|[->|[]%elem_of_nil]]]]]; lia. }
  split; [|split].
  - intros cid Hcid. unfold handleRestart, Lobby.getLobby.
    rewrite (bool_decide_eq_false_2 (key = "")) by done. rewrite Hl.
    by rewrite bool_decide_eq_false_2.
  - intros c cid Hc' Hnone. unfold handleRestart, Lobby.getLobby.
    rewrite (bool_decide_eq_false_2 (c = "")) by done. by rewrite Hnone.
  - unfold handleRestart, Lobby.getLobby.
    rewrite (bool_decide_eq_false_2 (key = "")) by done. rewrite Hl.
    rewrite bool_decide_eq_true_2 by done. simpl.
    unfold Game.restartGame.
    destruct (createGame_returns (delete key (games s)) key
                (Lobby.selectedMazeSize l) (playerInfos l) now rnd k Hpos)
      as (game & k' & Hcreate & Hcode & Hphase & Hwin & Hst & Hplayers & Hw).
    rewrite Hcreate.
    eexists _, game, k'. split; [reflexivity|]. simpl.
    split; [by rewrite insert_delete_eq|].
    repeat (split; [done|]). split; [|split; [|split; [|done]]].
    + intros cid. by rewrite Hplayers, initialPlayers_dom, playerInfos_ids.
    + intros cid p Hp. rewrite Hplayers in Hp.
      by apply initialPlayers_fields in Hp as (_ & ? & _).
    + unfold Server.openLobby. rewrite Hl.
      unfold Lobby.resetAcceptances. rewrite lookup_insert_eq. simpl.
      rewrite insert_insert_eq.
      unfold Server.acceptLeader. rewrite lookup_insert_eq. simpl.
      destruct (Lobby.findPlayer _ _) eqn:Hfind.
      * rewrite insert_insert_eq. f_equal.
        unfold Lobby.setStatus, Lobby.setPlayers. simpl. f_equal.
        by apply acceptFirst_reset_distinct.
      * exfalso. apply findPlayer_None in Hfind. apply Hfind.
        by rewrite reset_members.
Qed.

(** X28: creating a lobby through the handler.  [handleCreateLobby] never
    fails because of the size it is given: the new lobby has that size when
    it is one of 10, 20, 30, 40, 50 and the size 10 otherwise.  The lobby is
    stored under a code that was free, with the creator as only member and
    leader; the socket is registered for it and the creator is assigned to
    it in the registry; the games stay as they are.  When no code is free
    the stores are unchanged. *)
Theorem handleCreateLobby_size (s : Stores) (socket : nat)
    (cid name : string) (size : Z) (now : Z) (rnd : nat → nat) (k : nat) :
  (∀ s' key,
     handleCreateLobby s socket cid name size now rnd k = (s', Some key) →
     lobbies s !! key = None ∧ validCode key = true ∧
     lobbies s'
       = <[key := Lobby.mkLobbyState key cid now
                    [Lobby.mkLobbyPlayer cid name false]
                    (if bool_decide (size ∈ [10; 20; 30; 40; 50])
                     then size else 10)
                    Lobby.OPEN]> (lobbies s) ∧
     games s' = games s ∧
     socketsOf (lobbySockets s') key
       = {[socket]} ∪ socketsOf (lobbySockets s) key ∧
     players s' = Player.assignLobby (players s) cid (Some key) ∧
     countdownTimers s' = countdownTimers s) ∧
  (∀ s', handleCreateLobby s socket cid name size now rnd k = (s', None) →
         s' = s).
Proof.
  unfold handleCreateLobby.
  destruct (Lobby.createLobby (lobbies s) rnd k cid name now)
    as [lobbies1 [lobby|e]] eqn:Hcreate; [|by split; [|intros s' [= <-]]].
  split; [|done]. intros s' key [= <- <-].
  destruct (createLobby_Ok _ _ _ _ _ _ _ _ Hcreate)
    as (Hfree & Hvalid & Hlobby & -> & _).
  destruct lobby as [c lid created ps sz st]. simpl in *.
  injection Hlobby as -> -> -> -> ->.
  split; [done|]. split; [done|]. split; [|split; [done|split]].
  - unfold Lobby.setMazeSize. rewrite lookup_insert_eq. simpl.
    rewrite bool_decide_eq_true_2 by done. simpl.
    unfold Lobby.mazeSizeValues. case_bool_decide; simpl; [|done].
    by rewrite insert_insert_eq.
  - unfold socketsOf, addSocketToLobby.
    destruct (lobbySockets s !! c) as [old|] eqn:Hold;
      rewrite lookup_insert_eq; simpl; set_solver.
  - done.
Qed.

(** X29: joining through the handler.  [handleJoinLobbyPacket] refuses a
    packet without a code, and a code that is not made of four decimal
    digits, with INVALID_CODE, changing nothing.  In every store of lobbies
    reached by a history of requests the code of a live lobby is never
    refused as invalid: a client who is not a member joins a lobby that has
    room, the socket is registered for the lobby and the leader stays;
    a member is refused with ALREADY_IN_LOBBY; and a valid code of no live
    lobby is refused with LOBBY_NOT_FOUND. *)
Theorem handleJoinLobbyPacket_codes (ops : list LobbySpec.Op) (s : Stores)
    (socket : nat) (cid name : string) :
  lobbies s = LobbySpec.run ops →
  handleJoinLobbyPacket s socket cid name None = (s, JoinInvalidCode) ∧
  (∀ codeRaw, validCode codeRaw = false →
     handleJoinLobbyPacket s socket cid name (Some codeRaw)
       = (s, JoinInvalidCode)) ∧
  (∀ codeRaw, validCode codeRaw = true → lobbies s !! codeRaw = None →
     handleJoinLobbyPacket s socket cid name (Some codeRaw)
       = (s, JoinFailed Lobby.LOBBY_NOT_FOUND)) ∧
  (∀ key l, lobbies s !! key = Some l →
     validCode key = true ∧
     (cid ∈ LobbySpec.members l →
        handleJoinLobbyPacket s socket cid name (Some key)
          = (s, JoinFailed Lobby.ALREADY_IN_LOBBY)) ∧
     (cid ∉ LobbySpec.members l → length (Lobby.players l) = 1%nat →
        ∃ s' l',
          handleJoinLobbyPacket s socket cid name (Some key)
            = (s', Joined key) ∧
          lobbies s' = <[key := l']> (lobbies s) ∧
          Lobby.players l'
            = Lobby.players l ++ [Lobby.mkLobbyPlayer cid name false] ∧
          Lobby.leaderId l' = Lobby.leaderId l ∧
          Lobby.status l' = Lobby.OPEN ∧
          socket ∈ socketsOf (lobbySockets s') key ∧
          games s' = games s)).
Proof.
  intros Hrun. split; [done|]. split; [|split].
  - intros codeRaw Hinvalid. unfold handleJoinLobbyPacket.
    by rewrite Hinvalid.
  - intros codeRaw Hvalid Hnone. unfold handleJoinLobbyPacket.
    rewrite Hvalid. simpl. unfold Lobby.joinLobby. by rewrite Hnone.
  - intros key l Hl.
    assert (LobbySpec.wfLobby key l) as [Hk Hc Hne Hcap Hd Hlead].
    { apply (wfLobbies_run ops). by rewrite <- Hrun. }
    assert (LobbyShape.soundLobby key l) as [Hvalid _].
    { apply (soundLobbies_run ops). by rewrite <- Hrun. }
    split; [done|]. unfold handleJoinLobbyPacket. rewrite Hvalid. simpl.
    unfold Lobby.joinLobby. rewrite Hl. split.
    + intros Hcid.
      destruct (Lobby.findPlayer cid (Lobby.players l)) eqn:Hfind; [done|].
      apply findPlayer_None in Hfind. done.
    + intros Hcid Hone.
      destruct (Lobby.findPlayer cid (Lobby.players l)) eqn:Hfind.
      { exfalso. apply Hcid, findPlayer_is_Some. eauto. }
      rewrite Hone. simpl. rewrite length_app, Hone. simpl.
      eexists _, _. rewrite Hc. split; [reflexivity|]. simpl.
      repeat (split; [done|]). split; [|done].
      unfold socketsOf, addSocketToLobby.
      destruct (lobbySockets s !! key) as [old|] eqn:Hold;
        rewrite lookup_insert_eq; simpl; set_solver.
Qed.

End LobbyHandlers.

Lemma restart_by_leader_witness :
  ∃ s' game k',
    Handlers.handleRestart ServerSpec.startedStores (Some "0000") "ann" 100
      (λ n, n) 0 = (s', Handlers.Restarted, k') ∧
    Handlers.games s' = <["0000" := game]> ∅ ∧
    Game.phase game = Game.WAITING.
Proof.
  destruct (restart_by_leader ServerSpec.startedHistory
              ServerSpec.startedStores "0000" ServerSpec.startedLobby 100
              (λ n, n) 0)
    as (_ & _ & s' & game & k' & H1 & H2 & H3 & _).
  - reflexivity.
  - vm_compute. reflexivity.
  - exists s', game, k'. split; [exact H1|]. split; [exact H2 | exact H3].
Defined.

Lemma handleJoinLobbyPacket_codes_witness :
  Handlers.handleJoinLobbyPacket ServerSpec.startedStores 7 "cat" "Cat"
    (Some "12a4")
  = (ServerSpec.startedStores, Handlers.JoinInvalidCode).
Proof.
  destruct (handleJoinLobbyPacket_codes ServerSpec.startedHistory
              ServerSpec.startedStores 7 "cat" "Cat") as (_ & H & _).
  - reflexivity.
  - apply H. reflexivity.
Defined.

Section CloseConnection.

Import Handlers ServerSpec.

#[local] Arguments Lobby.findPlayer : simpl never.

(** X30: closing a connection.  In every store of lobbies reached by a
    history of requests, when the connection of an identified client that is
    in a lobby closes, the client leaves the lobby as by [leaveLobby]: the
    lobby is deleted when the client was its only member, and otherwise it
    is OPEN, without the client, led by one of its members.  The timer of
    the lobby is removed, so that a countdown in progress never begins the
    game; the socket is unregistered; the game of the lobby, if any, keeps
    its maze, phase and players, the client included; and in the registry
    the client is disconnected, last seen now, in no lobby and in no game,
    while every other record is unchanged.  Closing a connection that never
    identified changes nothing. *)
Theorem onClose_leaves (ops : list LobbySpec.Op) (s : Stores) (socket : nat)
    (cid name key : string) (l : Lobby.LobbyState) (now now' : Z) :
  lobbies s = LobbySpec.run ops →
  lobbies s !! key = Some l →
  cid ≠ "" →
  let s' := onClose s socket (Identified cid name (Some key)) now now' in
  lobbies s' = (Lobby.leaveLobby (lobbies s) key cid).1 ∧
  (LobbySpec.members l = [cid] → lobbies s' !! key = None) ∧
  (∀ l', lobbies s' !! key = Some l' →
     LobbySpec.members l' = filter (λ id, id ≠ cid) (LobbySpec.members l) ∧
     Lobby.leaderId l' ∈ LobbySpec.members l' ∧
     Lobby.status l' = Lobby.OPEN) ∧
  countdownTimers s' = delete key (countdownTimers s) ∧
  (∀ later later', countdownTick s' key later later' = s') ∧
  (socket ∉ socketsOf (lobbySockets s') key) ∧
  (∀ game, games s !! key = Some game →
     ∃ game', games s' !! key = Some game' ∧
              Game.maze game' = Game.maze game ∧
              Game.phase game' = Game.phase game ∧
              Game.players game' = Game.players game) ∧
  (∀ record, Player.getPlayer (players s) cid = Some record →
     Player.getPlayer (players s') cid
     = Some (Player.mkPlayerRecord (Player.clientId record)
               (Player.name record) false now' None None
               (Player.authenticatedAt record))) ∧
  (∀ id, id ≠ cid →
     Player.getPlayer (players s') id = Player.getPlayer (players s) id) ∧
  onClose s socket Anonymous now now' = s.
Proof.
  intros Hrun Hl Hcid s'.
  assert (LobbySpec.wfLobbies (lobbies s)) as Hwf.
  { rewrite Hrun. apply wfLobbies_run. }
  destruct (Hwf key l Hl) as [Hk Hc Hne Hcap Hd Hlead].
  assert (s' = setPlayers
                 (mkStores (Lobby.leaveLobby (lobbies s) key cid).1
                    (Game.markPlayerDisconnected (games s) key cid now).1
                    (players s)
                    (removeSocketFromLobby (lobbySockets s) socket (Some key))
                    (delete key (countdownTimers s)))
                 (Player.assignGame
                    (Player.assignLobby
                       (Player.markDisconnected (players s) cid now')
                       cid None) cid None)) as ->.
  { subst s'. unfold onClose.
    rewrite (bool_decide_eq_false_2 (key = "")) by done.
    by rewrite (bool_decide_eq_false_2 (cid = "")) by done. }
  simpl. split; [done|]. split; [|split; [|split; [done|split; [|split]]]].
  - intros Hm. unfold Lobby.leaveLobby. rewrite Hl. simpl.
    unfold LobbySpec.members in Hm.
    destruct (Lobby.players l) as [|p [|q ps]]; try done.
    injection Hm as Hp. simpl. rewrite bool_decide_eq_true_2 by done.
    simpl. by rewrite lookup_delete_eq.
  - intros l' Hl'.
    pose proof (wfLobbies_leaveLobby (lobbies s) key cid Hwf key l' Hl')
      as [_ _ _ _ _ Hleader].
    split; [|split; [done|]]; revert Hl'; unfold Lobby.leaveLobby;
      rewrite Hl; simpl;
      pose proof (filter_members_leave cid (Lobby.players l)) as Hmem;
      destruct (List.filter _ (Lobby.players l)) as [|first rest]; simpl;
      rewrite ?lookup_delete_eq, ?lookup_insert_eq; try done;
      intros [= <-]; simpl.
    + unfold LobbySpec.members. rewrite <- Hmem.
      by destruct (Lobby.findPlayer _ _).
    + done.
  - intros later later'. unfold countdownTick, setPlayers. simpl.
    by rewrite lookup_delete_eq.
  - unfold socketsOf, removeSocketFromLobby.
    rewrite bool_decide_eq_false_2 by done.
    destruct (lobbySockets s !! key) as [old|] eqn:Hold; simpl.
    + case_bool_decide.
      * rewrite lookup_delete_eq. simpl. set_solver.
      * rewrite lookup_insert_eq. simpl. set_solver.
    + rewrite Hold. simpl. set_solver.
  - split; [|split; [|split; [|done]]].
    + intros game Hgame. unfold Game.markPlayerDisconnected. rewrite Hgame.
      destruct (Game.players game !! cid); simpl.
      * rewrite lookup_insert_eq. by eexists.
      * by exists game.
    + intros record Hrecord.
      assert (Player.getPlayer (Player.markDisconnected (players s) cid now')
                cid
              = Some (Player.mkPlayerRecord (Player.clientId record)
                        (Player.name record) false now'
                        (Player.lobbyCode record) (Player.gameCode record)
                        (Player.authenticatedAt record))) as H1.
      { unfold Player.markDisconnected. rewrite Hrecord.
        by rewrite getPlayer_update, Hrecord, bool_decide_eq_true_2. }
      assert (Player.getPlayer
                (Player.assignLobby
                   (Player.markDisconnected (players s) cid now') cid None)
                cid
              = Some (Player.mkPlayerRecord (Player.clientId record)
                        (Player.name record) false now' None
                        (Player.gameCode record)
                        (Player.authenticatedAt record))) as H2.
      { unfold Player.assignLobby. rewrite H1.
        by rewrite getPlayer_update, H1, bool_decide_eq_true_2. }
      unfold Player.assignGame. rewrite H2.
      by rewrite getPlayer_update, H2, bool_decide_eq_true_2.
    + intros id Hid.
      assert (∀ ps f, Player.getPlayer (Player.update ps cid f) id
                      = Player.getPlayer ps id) as Hupd.
      { intros ps f. rewrite getPlayer_update.
        rewrite bool_decide_eq_false_2 by done.
        destruct (Player.getPlayer ps id); reflexivity. }
      unfold Player.assignGame, Player.assignLobby, Player.markDisconnected.
      repeat (case_match; rewrite ?Hupd); done.
Qed.

End CloseConnection.

Lemma onClose_leaves_witness :
  Handlers.lobbies
    (Handlers.onClose ServerSpec.startedStores 7
       (Handlers.Identified "bob" "Bob" (Some "0000")) 100 101) !! "0000"
  = Some (Lobby.mkLobbyState "0000" "ann" 0
            [Lobby.mkLobbyPlayer "ann" "Ann" true] Lobby.TenByTen Lobby.OPEN).
Proof.
  destruct (onClose_leaves ServerSpec.startedHistory ServerSpec.startedStores
              7 "bob" "Bob" "0000" ServerSpec.startedLobby 100 101)
    as (H & _).
  - reflexivity.
  - vm_compute. reflexivity.
  - discriminate.
  - rewrite H. vm_compute. reflexivity.
Defined.
